(** * Local cache and synchronisation engine: a shallow embedding

    The development follows the three classes of the dashboard:
    [CacheManager] (the IndexedDB store with its metadata singleton and the
    precomputed-aggregate caches), [WebSocketSyncManager] (catch-up
    reconciliation, live push, heartbeat) and the storage workers of
    [DataPreloader.parallelShardedLoad].

    JavaScript values are restricted to the scalars that reach this code:
    [undefined], [null], booleans, integral numbers, [NaN], strings of
    Latin-1 code units and [Date] objects.  A number is written as the
    integer it is worth.  Where the code forms a number that need not fit in
    53 bits (the product in [parseTimeToTimestamp], a run of digits read by
    [Number] or [parseInt]) the result is rounded to the nearest double as
    IEEE 754 does; Date arithmetic ends in [TimeClip], which answers [NaN]
    long before rounding could matter.  Fractions and the infinities are
    outside the universe. *)

From stdpp Require Import gmap strings list fin_maps pretty sorting.
From Stdlib Require Import ZArith Ascii String.

Open Scope Z_scope.

(** ** JavaScript values and the platform *)

Module Js.

Inductive jsnum : Type :=
| Num (z : Z)
| NaN.

Inductive jsval : Type :=
| JUndefined
| JNull
| JBool (b : bool)
| JNumber (n : jsnum)
| JString (s : string)
| JDate (t : jsnum).

#[global] Instance jsnum_eq_dec : EqDecision jsnum.
Proof. solve_decision. Defined.

#[global] Instance jsval_eq_dec : EqDecision jsval.
Proof. solve_decision. Defined.

(** What the host leaves open: the offset of local time from UTC (ECMAScript
    [LocalTZA] at a local time value, in milliseconds), [Date.parse] on
    strings outside the ISO date-time format, and [Number] on strings that
    are not plain decimal integers (fractions, exponents, radix prefixes and
    [Infinity] leave the integer universe of this model). *)
Record Platform : Type := {
  LocalTZA : Z → Z;
  DateParseLegacy : string → jsnum;
  NumberLiteralExt : string → jsnum
}.

(** ToBoolean. *)
Definition truthy (v : jsval) : bool :=
  match v with
  | JUndefined | JNull => false
  | JBool b => b
  | JNumber (Num z) => negb (z =? 0)
  | JNumber NaN => false
  | JString s => negb (String.eqb s "")
  | JDate _ => true
  end.

(** [a || b] *)
Definition js_or (a b : jsval) : jsval := if truthy a then a else b.

Definition isNaN (n : jsnum) : bool :=
  match n with NaN => true | Num _ => false end.

(** *** Characters and strings *)

Definition code (c : ascii) : Z := Z.of_N (N_of_ascii c).

Definition is_digit (c : ascii) : bool := (48 <=? code c) && (code c <=? 57).

(** [\s] and the characters removed by [trim], within Latin-1. *)
Definition is_space (c : ascii) : bool :=
  ((9 <=? code c) && (code c <=? 13)) || (code c =? 32) || (code c =? 160).

Definition is_sign (c : ascii) : bool := (code c =? 43) || (code c =? 45).

Fixpoint map_chars (f : ascii → ascii) (s : string) : string :=
  match s with
  | EmptyString => EmptyString
  | String c r => String (f c) (map_chars f r)
  end.

(** [s.replace(/[TZ]/g, ' ')] *)
Definition replace_TZ (s : string) : string :=
  map_chars (λ c, if (code c =? 84) || (code c =? 90) then " "%char else c) s.

(** The whole of [s] is [[+-]\d{2}:\d{2}]. *)
Definition is_offset (s : string) : bool :=
  match s with
  | String a (String b (String c (String d (String e (String f EmptyString))))) =>
      is_sign a && is_digit b && is_digit c && (code d =? 58)
      && is_digit e && is_digit f
  | _ => false
  end.

(** [s.replace(/[+-]\d{2}:\d{2}$/, '')]: the match is anchored at the end, so
    the only candidate is the suffix of length six. *)
Fixpoint strip_offset (s : string) : string :=
  match s with
  | EmptyString => EmptyString
  | String c r => if is_offset s then EmptyString else String c (strip_offset r)
  end.

Fixpoint trim_start (s : string) : string :=
  match s with
  | EmptyString => EmptyString
  | String c r => if is_space c then trim_start r else s
  end.

Fixpoint trim_end (s : string) : string :=
  match s with
  | EmptyString => EmptyString
  | String c r =>
      let r' := trim_end r in
      if is_space c && String.eqb r' "" then EmptyString else String c r'
  end.

Definition trim (s : string) : string := trim_end (trim_start s).

(** [timeStr.replace(/[TZ]/g, ' ').replace(/[+-]\d{2}:\d{2}$/, '').trim()] *)
Definition clean (s : string) : string := trim (strip_offset (replace_TZ s)).

(** [s.split(sep)] for a one-character separator. *)
Fixpoint split_on (sep : ascii) (s : string) : list string :=
  match s with
  | EmptyString => [EmptyString]
  | String c r =>
      let ps := split_on sep r in
      if Ascii.eqb c sep then EmptyString :: ps
      else match ps with
           | p :: ps' => String c p :: ps'
           | [] => [String c EmptyString]
           end
  end.

(** Greedy [\d{0,n}]: the digits taken and the rest. *)
Fixpoint take_digits (n : nat) (s : string) : string * string :=
  match n, s with
  | S n', String c r =>
      if is_digit c
      then let '(ds, rest) := take_digits n' r in (String c ds, rest)
      else (EmptyString, s)
  | _, _ => (EmptyString, s)
  end.

(** [parseInt] on a string of decimal digits. *)
Definition parseInt_digits (s : string) : Z :=
  fold_left (λ acc c, 10 * acc + (code c - 48)) (list_ascii_of_string s) 0.

(** [\d{1,2}] followed by whatever comes next in the pattern: greedy, and a
    shorter choice never helps because the next pattern item is not a digit. *)
Definition digits12 (s : string) : option (string * string) :=
  let '(ds, rest) := take_digits 2 s in
  if String.eqb ds "" then None else Some (ds, rest).

Definition expect (c : ascii) (s : string) : option string :=
  match s with
  | String c' r => if Ascii.eqb c c' then Some r else None
  | EmptyString => None
  end.

(** [^(\d{4})-(\d{1,2})-(\d{1,2})]: the three captures and the rest. *)
Definition match_date (s : string) : option (string * string * string * string) :=
  let '(y, r0) := take_digits 4 s in
  if negb (String.length y =? 4)%nat then None else
  r1 ← expect "-" r0;
  '(m, r2) ← digits12 r1;
  r3 ← expect "-" r2;
  '(d, r4) ← digits12 r3;
  Some (y, m, d, r4).

(** [\s+(\d{1,2}):(\d{1,2}):(\d{1,2})] at the head of [s]. *)
Definition match_time (s : string) : option (string * string * string) :=
  match s with
  | String c _ =>
      if is_space c then
        '(h, r1) ← digits12 (trim_start s);
        r2 ← expect ":" r1;
        '(mi, r3) ← digits12 r2;
        r4 ← expect ":" r3;
        '(se, _) ← digits12 r4;
        Some (h, mi, se)
      else None
  | EmptyString => None
  end.

(** *** Numbers from strings *)

(** The double nearest to the integer [x], ties to the even significand.
    Magnitudes from 2^1024 on, which IEEE turns into an infinity, are
    outside the universe. *)
Definition round_double (x : Z) : Z :=
  let a := Z.abs x in
  if a <? 2 ^ 53 then x else
  let q := 2 ^ (Z.log2 a - 52) in
  let n := a / q in
  let r := a mod q in
  let n' :=
    if 2 * r <? q then n
    else if q <? 2 * r then n + 1
    else if Z.even n then n else n + 1 in
  Z.sgn x * (n' * q).

Definition all_digits (s : string) : bool :=
  forallb is_digit (list_ascii_of_string s).

(** [Number(s)]: surrounding white space is ignored, the empty string is 0,
    an optionally signed run of digits is its value; every other literal is
    left to the platform. *)
Definition Number_of_string (P : Platform) (s : string) : jsnum :=
  let t := trim s in
  match t with
  | EmptyString => Num 0
  | String c r =>
      if all_digits t then Num (round_double (parseInt_digits t))
      else if (code c =? 45) && all_digits r && negb (String.eqb r "")
           then Num (round_double (- parseInt_digits r))
      else if (code c =? 43) && all_digits r && negb (String.eqb r "")
           then Num (round_double (parseInt_digits r))
      else NumberLiteralExt P s
  end.

Definition num_sub (a : jsnum) (b : Z) : jsnum :=
  match a with Num z => Num (z - b) | NaN => NaN end.

(** *** Dates (ECMAScript time values, milliseconds since the epoch) *)

Definition msPerDay : Z := 86400000.

Definition DayFromYear (y : Z) : Z :=
  365 * (y - 1970) + (y - 1969) / 4 - (y - 1901) / 100 + (y - 1601) / 400.

Definition InLeapYear (y : Z) : bool :=
  ((y mod 4 =? 0) && negb (y mod 100 =? 0)) || (y mod 400 =? 0).

Definition DaysInMonth (y mn : Z) : Z :=
  if mn =? 1 then (if InLeapYear y then 29 else 28)
  else if (mn =? 3) || (mn =? 5) || (mn =? 8) || (mn =? 10) then 30 else 31.

(** Days from 1 January to the first of month [mn] (0-based). *)
Definition MonthStart (y mn : Z) : Z :=
  let leap := if InLeapYear y then 1 else 0 in
  match mn with
  | 0 => 0 | 1 => 31 | 2 => 59 + leap | 3 => 90 + leap | 4 => 120 + leap
  | 5 => 151 + leap | 6 => 181 + leap | 7 => 212 + leap | 8 => 243 + leap
  | 9 => 273 + leap | 10 => 304 + leap | _ => 334 + leap
  end.

(** [MakeDay] on integral arguments.  The standard lets it answer [NaN] for
    arguments too large to name a day; here that is left to the [TimeClip]
    that every use ends with. *)
Definition MakeDay (year month date : Z) : Z :=
  let ym := year + month / 12 in
  let mn := month mod 12 in
  DayFromYear ym + MonthStart ym mn + date - 1.

Definition MakeTime (h mi s ms : Z) : Z :=
  h * 3600000 + mi * 60000 + s * 1000 + ms.

Definition MakeDate (day time : Z) : Z := day * msPerDay + time.

Definition TimeClip (t : Z) : jsnum :=
  if Z.abs t >? 8640000000000000 then NaN else Num t.

(** [UTC(t)] for a local time value. *)
Definition UTC (P : Platform) (t : Z) : Z := t - LocalTZA P t.

(** [new Date(year, month, date, hours, minutes, seconds)]: years 0..99 mean
    1900..1999; the fields are local time.  The result is the time value
    ([getTime()]), [NaN] for an invalid date. *)
Definition Date_local (P : Platform) (y mo d h mi s : jsnum) : jsnum :=
  match y, mo, d, h, mi, s with
  | Num y, Num mo, Num d, Num h, Num mi, Num s =>
      let yr := if (0 <=? y) && (y <=? 99) then 1900 + y else y in
      TimeClip (UTC P (MakeDate (MakeDay yr mo d) (MakeTime h mi s 0)))
  | _, _, _, _, _, _ => NaN
  end.

End Js.

(** ** [Date.parse] and [new Date(value)] *)

Module JsDate.
Import Js.

(** Exactly [n] digits. *)
Definition digitsN (n : nat) (s : string) : option (Z * string) :=
  let '(ds, rest) := take_digits n s in
  if (String.length ds =? n)%nat then Some (parseInt_digits ds, rest) else None.

(** An optional [.sss] fraction. *)
Definition fraction (s : string) : option (Z * string) :=
  match s with
  | String c r => if code c =? 46 then digitsN 3 r else Some (0, s)
  | EmptyString => Some (0, s)
  end.

(** The ECMAScript date-time string format, restricted to the complete forms
    [YYYY-MM-DD] and [YYYY-MM-DDTHH:mm:ss(.sss)?(Z|±HH:mm)?] with legal
    element values.  A date-only form is UTC; a date-time form without an
    offset is local time.  [None]: the string is not of these forms. *)
Definition parse_iso (P : Platform) (s : string) : option jsnum :=
  '(y, r) ← digitsN 4 s;
  r ← expect "-" r;
  '(m, r) ← digitsN 2 r;
  r ← expect "-" r;
  '(d, r) ← digitsN 2 r;
  if negb ((1 <=? m) && (m <=? 12) && (1 <=? d) && (d <=? DaysInMonth y (m - 1)))
  then None else
  let day := MakeDay y (m - 1) d in
  match r with
  | EmptyString => Some (TimeClip (MakeDate day 0))
  | _ =>
      r ← expect "T" r;
      '(h, r) ← digitsN 2 r;
      r ← expect ":" r;
      '(mi, r) ← digitsN 2 r;
      r ← expect ":" r;
      '(se, r) ← digitsN 2 r;
      '(ms, r) ← fraction r;
      if negb ((h <=? 23) && (mi <=? 59) && (se <=? 59)) then None else
      let t := MakeDate day (MakeTime h mi se ms) in
      match r with
      | EmptyString => Some (TimeClip (UTC P t))
      | String c r' =>
          if String.eqb r "Z" then Some (TimeClip t)
          else if is_sign c then
            '(oh, r) ← digitsN 2 r';
            r ← expect ":" r;
            '(om, r) ← digitsN 2 r;
            if negb (String.eqb r "" && (oh <=? 23) && (om <=? 59)) then None else
            let off := (oh * 60 + om) * 60000 in
            Some (TimeClip (if code c =? 45 then t + off else t - off))
          else None
      end
  end.

(** [Date.parse(s)] *)
Definition Date_parse (P : Platform) (s : string) : jsnum :=
  match parse_iso P s with
  | Some t => t
  | None => DateParseLegacy P s
  end.

(** [new Date(v).getTime()] *)
Definition Date_of_value (P : Platform) (v : jsval) : jsnum :=
  match v with
  | JDate t => t
  | JString s => Date_parse P s
  | JUndefined => NaN
  | JNull => Num 0
  | JBool b => Num (if b then 1 else 0)
  | JNumber (Num z) => TimeClip z
  | JNumber NaN => NaN
  end.

End JsDate.

(** ** CacheManager *)

Module Cache.
Import Js JsDate.

(** *** Time parsing *)

Section Parsing.
Context (P : Platform).

Definition date_of_captures (y m d : string) (hms : option (string * string * string))
  : jsnum :=
  let '(h, mi, s) :=
    match hms with
    | Some (h, mi, s) => (parseInt_digits h, parseInt_digits mi, parseInt_digits s)
    | None => (0, 0, 0)
    end in
  Date_local P (Num (parseInt_digits y)) (Num (parseInt_digits m - 1))
    (Num (parseInt_digits d)) (Num h) (Num mi) (Num s).

(** The last resort of [parseLocalTime]: the text before the first blank,
    split at [-], each part through [Number]. *)
Definition parseLocalTime_fallback (timeStr : string) : jsnum :=
  let dateOnly := List.hd EmptyString (split_on " " timeStr) in
  let dateParts := map (Number_of_string P) (split_on "-" dateOnly) in
  match dateParts with
  | p0 :: p1 :: p2 :: _ =>
      Date_local P p0 (num_sub p1 1) p2 (Num 0) (Num 0) (Num 0)
  | _ => NaN
  end.

(** [parseLocalTime(timeStr)]: the time value of the Date it returns. *)
Definition parseLocalTime (timeStr : string) : jsnum :=
  if String.eqb timeStr "" then NaN else
  match match_date timeStr with
  | Some (y, m, d, rest) => date_of_captures y m d (match_time rest)
  | None =>
      let cleanStr := clean timeStr in
      match match_date cleanStr with
      | Some (y, m, d, rest) =>
          match match_time rest with
          | Some hms => date_of_captures y m d (Some hms)
          | None => parseLocalTime_fallback timeStr
          end
      | None => parseLocalTime_fallback timeStr
      end
  end.

(** [parseTimeToTimestamp(timeValue)] *)
Definition parseTimeToTimestamp (timeValue : jsval) : jsnum :=
  match timeValue with
  | JNumber (Num z) =>
      if z >? 1000000000000 then Num z else Num (round_double (z * 1000))
  | JNumber NaN => NaN
  | JString s =>
      let date := parseLocalTime (clean s) in
      if isNaN date then Num 0 else date
  | JDate t => t
  | _ => Num 0
  end.

End Parsing.

(** *** The database *)

(** Keys of the object store: numbers, strings and valid dates are keys;
    [undefined], [null], booleans, [NaN] and invalid dates are not
    ([put] and [delete] raise [DataError] on them). *)
Inductive idbkey : Type :=
| KNum (z : Z)
| KStr (s : string)
| KDate (t : Z).

#[global] Instance idbkey_eq_dec : EqDecision idbkey.
Proof. solve_decision. Defined.

#[global] Instance idbkey_countable : Countable idbkey.
Proof.
  refine (inj_countable'
    (λ k, match k with
          | KNum z => inl (inl z) | KStr s => inl (inr s) | KDate t => inr t
          end)
    (λ x, match x with
          | inl (inl z) => KNum z | inl (inr s) => KStr s | inr t => KDate t
          end) _).
  by intros [].
Defined.

Definition to_key (v : jsval) : option idbkey :=
  match v with
  | JNumber (Num z) => Some (KNum z)
  | JString s => Some (KStr s)
  | JDate (Num t) => Some (KDate t)
  | _ => None
  end.

(** A record is a JavaScript object: a finite map from property names to
    values; reading an absent property gives [undefined]. *)
Abbreviation record := (gmap string jsval).

Definition get (r : record) (f : string) : jsval := default JUndefined (r !! f).

(** Aggregate payloads are never inspected by this code; they are kept as an
    opaque serialisation. *)
Definition payload : Type := string.

(** The singleton stored under the key [allDataMeta]. *)
Record Meta : Type := mkMeta {
  totalCount : Z;
  lastUpdated : Z;
  lastSyncTime : option Z;
  lastChangeLogId : jsval;
  extra : gmap string jsval
}.

Record StatEntry : Type := mkStat {
  stat_type : string;
  stat_data : payload;
  stat_timestamp : Z
}.

Record BucketEntry : Type := mkBucket {
  bucket_groupType : string;
  bucket_buckets : payload;
  bucket_recordCount : Z;
  bucket_timestamp : Z
}.

Record DB : Type := mkDB {
  allDataCache : gmap idbkey (gmap string jsval);
  metaData : option Meta;
  statisticsCache : gmap string StatEntry;
  dataStoreCache : gmap string BucketEntry
}.

Inductive error : Type := DataError | TypeError | NetworkError.

(** How a promise settles. *)
Inductive outcome (A : Type) : Type :=
| Resolved (a : A)
| Rejected (e : error).
Arguments Resolved {A} a.
Arguments Rejected {A} e.

Definition set_allData (d : gmap idbkey (gmap string jsval)) (db : DB) : DB :=
  mkDB d (metaData db) (statisticsCache db) (dataStoreCache db).

Definition set_meta (m : option Meta) (db : DB) : DB :=
  mkDB (allDataCache db) m (statisticsCache db) (dataStoreCache db).

Definition set_statistics (c : gmap string StatEntry) (db : DB) : DB :=
  mkDB (allDataCache db) (metaData db) c (dataStoreCache db).

Definition set_dataStore (c : gmap string BucketEntry) (db : DB) : DB :=
  mkDB (allDataCache db) (metaData db) (statisticsCache db) c.

(** [store.put(record)] on the store with key path [id]. *)
Definition put (r : record) (db : DB) : option DB :=
  k ← to_key (get r "id");
  Some (set_allData (<[k := r]> (allDataCache db)) db).

(** [meta.lastUpdated = Date.now(); meta.lastSyncTime = Date.now()] on the
    stored metadata, or on the default object of [updateRecord] and
    [batchUpdateRecords] when there is none. *)
Definition touch_sync (now : Z) (m : option Meta) : Meta :=
  match m with
  | Some m => mkMeta (totalCount m) now (Some now) (lastChangeLogId m) (extra m)
  | None => mkMeta 0 now (Some now) JUndefined ∅
  end.

Section Store.
Context (P : Platform).

(** [if (!record.timestamp) record.timestamp = new Date(record.start_time).getTime()] *)
Definition ensure_timestamp (r : record) : record :=
  if truthy (get r "timestamp") then r
  else <["timestamp" := JNumber (Date_of_value P (get r "start_time"))]> r.

(** [updateRecord(record)] at time [now]. *)
Definition updateRecord (now : Z) (r : record) (db : DB) : DB * outcome record :=
  let r := ensure_timestamp r in
  match put r db with
  | None => (db, Rejected DataError)
  | Some db' => (set_meta (Some (touch_sync now (metaData db'))) db', Resolved r)
  end.

(** The [forEach] of [batchUpdateRecords]: the puts issued before a throwing
    one stay queued on the transaction and are committed. *)
Fixpoint batch_puts (rs : list record) (db : DB) : DB * outcome unit :=
  match rs with
  | [] => (db, Resolved ())
  | r :: rs' =>
      match put (ensure_timestamp r) db with
      | None => (db, Rejected DataError)
      | Some db' => batch_puts rs' db'
      end
  end.

(** [batchUpdateRecords(records)] *)
Definition batchUpdateRecords (now : Z) (records : list record) (db : DB)
  : DB * outcome Z :=
  match records with
  | [] => (db, Resolved 0)
  | _ =>
      match batch_puts records db with
      | (db', Resolved _) =>
          (set_meta (Some (touch_sync now (metaData db'))) db',
           Resolved (Z.of_nat (List.length records)))
      | (db', Rejected e) => (db', Rejected e)
      end
  end.

(** The object literal of [appendData] (and of [storeBatch]): defaults first,
    then the record's own properties over them. *)
Definition standardRecord (generated : string) (r : record) : record :=
  r ∪ list_to_map
    [("id", js_or (js_or (js_or (get r "plan_id") (get r "计划ID")) (get r "id"))
              (JString generated));
     ("start_time", js_or (get r "start_time") (get r "开始时间"));
     ("task_result", js_or (get r "task_result") (get r "任务结果状态"));
     ("task_type", js_or (get r "task_type") (get r "任务类型"));
     ("customer", js_or (get r "customer") (get r "所属客户"));
     ("satellite_name", js_or (get r "satellite_name") (get r "卫星名称"));
     ("station_name", js_or (get r "station_name") (get r "测站名称"));
     ("station_id", js_or (get r "station_id") (get r "测站ID"))].

(** [if (standardRecord.start_time) standardRecord.timestamp = parseTimeToTimestamp(...)] *)
Definition derive_timestamp (r : record) : record :=
  if truthy (get r "start_time")
  then <["timestamp" := JNumber (parseTimeToTimestamp P (get r "start_time"))]> r
  else r.

(** The identifier made up for a record without one; [appendedCount] is
    still 0 while the loop runs, its increments happen in later callbacks. *)
Definition generated_id (now : Z) : string :=
  "record_" +:+ pretty now +:+ "_0".

Fixpoint append_puts (now : Z) (rs : list record) (db : DB) : DB * outcome unit :=
  match rs with
  | [] => (db, Resolved ())
  | r :: rs' =>
      match put (derive_timestamp (standardRecord (generated_id now) r)) db with
      | None => (db, Rejected DataError)
      | Some db' => append_puts now rs' db'
      end
  end.

(** [appendData(newRecords)] *)
Definition appendData (now : Z) (newRecords : list record) (db : DB)
  : DB * outcome Z :=
  match newRecords with
  | [] => (db, Resolved 0)
  | _ =>
      match append_puts now newRecords db with
      | (db', Resolved _) =>
          let appendedCount := Z.of_nat (List.length newRecords) in
          let meta :=
            match metaData db' with
            | Some m => mkMeta (totalCount m + appendedCount) now (lastSyncTime m)
                          (lastChangeLogId m) (extra m)
            | None => mkMeta (0 + appendedCount) now None JUndefined ∅
            end in
          (set_meta (Some meta) db', Resolved appendedCount)
      | (db', Rejected e) => (db', Rejected e)
      end
  end.

End Store.

(** [deleteRecord(recordId)] *)
Definition deleteRecord (now : Z) (recordId : jsval) (db : DB) : DB * outcome jsval :=
  match to_key recordId with
  | None => (db, Rejected DataError)
  | Some k =>
      let db' := set_allData (delete k (allDataCache db)) db in
      match metaData db' with
      | Some m => (set_meta (Some (touch_sync now (Some m))) db', Resolved recordId)
      | None => (db', Resolved recordId)
      end
  end.

(** [getLastSyncTime()]: [meta?.lastSyncTime || 0] *)
Definition getLastSyncTime (db : DB) : Z :=
  match metaData db with
  | Some m => default 0 (lastSyncTime m)
  | None => 0
  end.

(** [getLastChangeLogId()]: [meta?.lastChangeLogId || 0] *)
Definition getLastChangeLogId (db : DB) : jsval :=
  match metaData db with
  | Some m => js_or (lastChangeLogId m) (JNumber (Num 0))
  | None => JNumber (Num 0)
  end.

(** [saveLastChangeLogId(changeLogId)] *)
Definition saveLastChangeLogId (now : Z) (changeLogId : jsval) (db : DB) : DB :=
  let m :=
    match metaData db with
    | Some m => mkMeta (totalCount m) now (Some now) changeLogId (extra m)
    | None => mkMeta 0 now (Some now) changeLogId ∅
    end in
  set_meta (Some m) db.

(** *** Precomputed aggregates *)

(** [saveStatistics(type, data)] *)
Definition saveStatistics (now : Z) (type : string) (data : payload) (db : DB) : DB :=
  set_statistics (<["stats_" +:+ type := mkStat type data now]> (statisticsCache db)) db.

(** [getStatistics(type)]: the cached data, or [null]. *)
Definition getStatistics (type : string) (db : DB) : option payload :=
  stat_data <$> statisticsCache db !! ("stats_" +:+ type).

(** [clearStatisticsCache()] *)
Definition clearStatisticsCache (db : DB) : DB := set_statistics ∅ db.

(** [saveDataStoreBuckets(groupType, bucketsMap, recordCount)] *)
Definition saveDataStoreBuckets (now : Z) (groupType : string) (buckets : payload)
    (recordCount : Z) (db : DB) : DB :=
  set_dataStore
    (<["datastore_" +:+ groupType := mkBucket groupType buckets recordCount now]>
       (dataStoreCache db)) db.

(** [loadDataStoreBuckets(groupType, lastSyncTime = null)] at time [now]:
    an entry older than the caller's [lastSyncTime], or older than 24 hours,
    is answered with [null]. *)
Definition loadDataStoreBuckets (now : Z) (groupType : string)
    (lastSyncTime : option Z) (db : DB) : option BucketEntry :=
  match dataStoreCache db !! ("datastore_" +:+ groupType) with
  | None => None
  | Some cacheData =>
      let stale :=
        match lastSyncTime with
        | Some t => negb (t =? 0) && (bucket_timestamp cacheData <? t)
        | None => false
        end in
      if stale then None
      else if now - bucket_timestamp cacheData >? 24 * 60 * 60 * 1000 then None
      else Some cacheData
  end.

(** [clearDataStoreBucketsCache()] *)
Definition clearDataStoreBucketsCache (db : DB) : DB := set_dataStore ∅ db.

End Cache.

(** ** WebSocketSyncManager: catch-up reconciliation and live changes *)

Module Sync.
Import Js JsDate Cache.

(** [result.data] of the incremental endpoint.  [records = None]: the field
    is missing, so reading [records.length] throws. *)
Record CatchupData : Type := mkData {
  records : option (list (gmap string jsval));
  maxChangeLogId : jsval;
  filteredCount : jsval
}.

(** What [fetch] and [response.json()] can come back with. *)
Inductive response : Type :=
| FetchRejected
| HttpNotOk
| JsonRejected
| JsonNull
| Body (success : bool) (data : option CatchupData).

(** The query string of the incremental request. *)
Record request : Type := mkRequest {
  sinceChangeLogId : jsval;
  recentDays : Z;
  limit : Z
}.

Record CatchupResult : Type := mkResult {
  hasNewData : bool;
  count : Z;
  resultMaxChangeLogId : jsval
}.

Definition noNewData : CatchupResult := mkResult false 0 JUndefined.

Section Catchup.
Context (P : Platform).

(** [records.map(record => ({...record, id: record.plan_id}))] *)
Definition convertRecord (r : record) : record := <["id" := get r "plan_id"]> r.

(** [performCatchupSyncByChangeLogId(lastChangeLogId)]: the database after
    the call, the value the promise resolves to, and the requests sent.
    Every failure ends in the [catch], which resolves to [noNewData]. *)
Definition performCatchupSyncByChangeLogId (now : Z) (lastChangeLogId : jsval)
    (resp : response) (db : DB) : DB * CatchupResult * list request :=
  let sent := [mkRequest lastChangeLogId 30 10000] in
  match resp with
  | FetchRejected | HttpNotOk | JsonRejected | JsonNull => (db, noNewData, sent)
  | Body success data =>
      match success, data with
      | true, Some d =>
          match records d with
          | None => (db, noNewData, sent)
          | Some [] => (db, noNewData, sent)
          | Some rs =>
              match batchUpdateRecords P now (map convertRecord rs) db with
              | (db1, Rejected _) => (db1, noNewData, sent)
              | (db1, Resolved _) =>
                  (saveLastChangeLogId now (maxChangeLogId d) db1,
                   mkResult true (Z.of_nat (List.length rs)) (maxChangeLogId d),
                   sent)
              end
          end
      | _, _ => (db, noNewData, sent)
      end
  end.

(** [checkAndPerformCatchup()] *)
Definition checkAndPerformCatchup (now : Z) (resp : response) (db : DB)
  : DB * CatchupResult * list request :=
  let lastChangeLogId := getLastChangeLogId db in
  if decide (lastChangeLogId = JNumber (Num 0)) then (db, noNewData, [])
  else performCatchupSyncByChangeLogId now lastChangeLogId resp db.

(** One catch-up attempt: the time it runs at and what the server answers. *)
Definition attempt : Type := Z * response.

Definition catchup (db : DB) (a : attempt) : DB :=
  (checkAndPerformCatchup a.1 a.2 db).1.1.

Definition succeeded (db : DB) (a : attempt) : bool :=
  hasNewData (checkAndPerformCatchup a.1 a.2 db).1.2.

(** A sequence of catch-ups, one after the other. *)
Definition run_catchups (db : DB) (l : list attempt) : DB := fold_left catchup l db.

End Catchup.

(** The persisted cursor as a number (0 when it is not one). *)
Definition cursor (db : DB) : Z :=
  match getLastChangeLogId db with
  | JNumber (Num z) => z
  | _ => 0
  end.

(** The [maxChangeLogId] of a response that carries records, as a number. *)
Definition returned_id (resp : response) : option Z :=
  match resp with
  | Body true (Some d) =>
      match records d, maxChangeLogId d with
      | Some (_ :: _), JNumber (Num z) => Some z
      | _, _ => None
      end
  | _ => None
  end.

(** *** Live changes *)

Definition lower_char (c : ascii) : ascii :=
  let n := code c in
  if ((65 <=? n) && (n <=? 90)) || ((192 <=? n) && (n <=? 222) && negb (n =? 215))
  then ascii_of_N (Z.to_N (n + 32)) else c.

(** [s.toLowerCase()] within Latin-1. *)
Definition toLowerCase (s : string) : string := map_chars lower_char s.

(** [message.data] of a [data_change] message. *)
Record ChangeData : Type := mkChange {
  operation : jsval;
  change_record : option (gmap string jsval)
}.

(** What [onSyncUpdate] is called with. *)
Record SyncUpdate : Type := mkUpdate {
  update_operation : string;
  update_record : option (gmap string jsval)
}.

Section Live.
Context (P : Platform).

(** The body of the [try] in [handleDataChange]; [Rejected] is an exception
    on its way to the [catch].  [updateRecord] adds [timestamp] to the very
    object that is then handed to [onSyncUpdate]. *)
Definition applyChange (now : Z) (cd : ChangeData) (db : DB)
  : DB * outcome (list SyncUpdate) :=
  match operation cd with
  | JString operation =>
      let op := toLowerCase operation in
      let notify := [mkUpdate op (change_record cd)] in
      if decide (op = "insert" ∨ op = "update") then
        match change_record cd with
        | None => (db, Rejected TypeError)
        | Some r =>
            match updateRecord P now r db with
            | (db', Resolved r') => (db', Resolved [mkUpdate op (Some r')])
            | (db', Rejected e) => (db', Rejected e)
            end
        end
      else if decide (op = "delete") then
        match change_record cd with
        | None => (db, Rejected TypeError)
        | Some r =>
            match deleteRecord now (get r "id") db with
            | (db', Resolved _) => (db', Resolved notify)
            | (db', Rejected e) => (db', Rejected e)
            end
        end
      else (db, Resolved notify)
  | _ => (db, Rejected TypeError)
  end.

(** [handleDataChange(changeData)]: destructuring a missing [changeData]
    throws before the [try]; everything after it is caught and logged. *)
Definition handleDataChange (now : Z) (changeData : option ChangeData) (db : DB)
  : DB * outcome unit * list SyncUpdate :=
  match changeData with
  | None => (db, Rejected TypeError, [])
  | Some cd =>
      match applyChange now cd db with
      | (db', Resolved us) => (db', Resolved (), us)
      | (db', Rejected _) => (db', Resolved (), [])
      end
  end.

End Live.

(** *** Heartbeat and reconnection *)

Inductive readyState : Type := CONNECTING | OPEN | CLOSING | CLOSED.

#[global] Instance readyState_eq_dec : EqDecision readyState.
Proof. solve_decision. Defined.

(** The fields of the manager that the connection logic reads and writes,
    with counters for its effects: calls of [ws.close()], reconnect timers
    installed by [scheduleReconnect], heartbeat messages sent. *)
Record Conn : Type := mkConn {
  ws : option readyState;
  isConnected : bool;
  isReconnecting : bool;
  heartbeatInterval : bool;
  missedHeartbeats : Z;
  closeCalls : nat;
  reconnectsScheduled : nat;
  heartbeatsSent : nat
}.

Definition maxMissedHeartbeats : Z := 3.

(** [stopHeartbeat()] *)
Definition stopHeartbeat (c : Conn) : Conn :=
  mkConn (ws c) (isConnected c) (isReconnecting c) false (missedHeartbeats c)
    (closeCalls c) (reconnectsScheduled c) (heartbeatsSent c).

(** [startHeartbeat()]: the previous interval is cleared, a new one set. *)
Definition startHeartbeat (c : Conn) : Conn :=
  let c := stopHeartbeat c in
  mkConn (ws c) (isConnected c) (isReconnecting c) true (missedHeartbeats c)
    (closeCalls c) (reconnectsScheduled c) (heartbeatsSent c).

(** [handleOpen()] *)
Definition handleOpen (c : Conn) : Conn :=
  startHeartbeat
    (mkConn (ws c) true false (heartbeatInterval c) 0
       (closeCalls c) (reconnectsScheduled c) (heartbeatsSent c)).

Definition set_readyState (r : readyState) (c : Conn) : Conn :=
  mkConn (Some r) (isConnected c) (isReconnecting c) (heartbeatInterval c)
    (missedHeartbeats c) (closeCalls c) (reconnectsScheduled c) (heartbeatsSent c).

(** The socket's [open] event: the socket is [OPEN] when [onopen] runs. *)
Definition openEvent (c : Conn) : Conn := handleOpen (set_readyState OPEN c).

(** The callback of the 30-second interval; it runs only while the interval
    is installed.  [ws.close()] puts an open socket into [CLOSING]. *)
Definition heartbeatTick (c : Conn) : Conn :=
  if negb (heartbeatInterval c) then c else
  match ws c with
  | Some OPEN =>
      let missed := missedHeartbeats c + 1 in
      if missed >=? maxMissedHeartbeats then
        mkConn (Some CLOSING) (isConnected c) (isReconnecting c) (heartbeatInterval c)
          missed (S (closeCalls c)) (reconnectsScheduled c) (heartbeatsSent c)
      else
        mkConn (ws c) (isConnected c) (isReconnecting c) (heartbeatInterval c)
          missed (closeCalls c) (reconnectsScheduled c) (S (heartbeatsSent c))
  | _ => c
  end.

(** [handleMessage] on a [heartbeat] message. *)
Definition heartbeatReceived (c : Conn) : Conn :=
  mkConn (ws c) (isConnected c) (isReconnecting c) (heartbeatInterval c) 0
    (closeCalls c) (reconnectsScheduled c) (heartbeatsSent c).

(** [scheduleReconnect()] *)
Definition scheduleReconnect (c : Conn) : Conn :=
  if isReconnecting c then c else
  mkConn (ws c) (isConnected c) true (heartbeatInterval c) (missedHeartbeats c)
    (closeCalls c) (S (reconnectsScheduled c)) (heartbeatsSent c).

(** [handleClose(event)] with [event.wasClean] *)
Definition handleClose (wasClean : bool) (c : Conn) : Conn :=
  let c := stopHeartbeat
             (mkConn (ws c) false (isReconnecting c) (heartbeatInterval c)
                (missedHeartbeats c) (closeCalls c) (reconnectsScheduled c)
                (heartbeatsSent c)) in
  if negb wasClean && negb (isReconnecting c) then scheduleReconnect c else c.

(** The socket's [close] event: the socket is [CLOSED] when [onclose] runs. *)
Definition closeEvent (wasClean : bool) (c : Conn) : Conn :=
  handleClose wasClean (set_readyState CLOSED c).

End Sync.

(** ** DataPreloader: the storage workers of [parallelShardedLoad] *)

Module Loader.
Import Js Cache.

(** Where a storage worker is suspended: in the 10 ms [setTimeout] (or not
    yet started), or in [await cacheManager.storePartitionedBatch(batch, ...)]
    for a partition, or past the end of its loop. *)
Inductive wstatus : Type :=
| Sleeping
| Storing (partitionId : string) (batch : list (gmap string jsval))
| Exited.

(** The variables the workers share.  [order] is the key order of
    [taskQueues] as [Object.entries] enumerates it. *)
Record Pool : Type := mkPool {
  order : list string;
  taskQueues : gmap string (list (gmap string jsval));
  lockedPartitions : gset string;
  downloadComplete : bool;
  workers : gmap nat wstatus;
  totalLoaded : Z;
  completedShards : Z
}.

Definition MIN_BATCH_SIZE : Z := 50000.
Definition STORAGE_WORKERS : nat := 3.

Definition queue_of (s : Pool) (pid : string) : list (gmap string jsval) :=
  default [] (taskQueues s !! pid).

Definition nonempty {A} (l : list A) : bool :=
  match l with [] => false | _ => true end.

(** [Object.values(taskQueues).some(queue => queue.length > 0)] *)
Definition hasTasksInQueues (s : Pool) : bool :=
  existsb (λ pid, nonempty (queue_of s pid)) (order s).

(** The two [continue] tests of the scan. *)
Definition claimable (s : Pool) (pid : string) : bool :=
  nonempty (queue_of s pid) && negb (bool_decide (pid ∈ lockedPartitions s)).

(** The first partition the [for] loop does not skip. *)
Definition scan (s : Pool) : option string := List.find (claimable s) (order s).

(** [queue.length <= MIN_BATCH_SIZE * 0.4 ? queue.length
     : Math.min(queue.length, MIN_BATCH_SIZE)] *)
Definition batchSize (len : Z) : Z :=
  if 10 * len <=? MIN_BATCH_SIZE * 4 then len else Z.min len MIN_BATCH_SIZE.

Definition set_worker (w : nat) (st : wstatus) (s : Pool) : Pool :=
  mkPool (order s) (taskQueues s) (lockedPartitions s) (downloadComplete s)
    (<[w := st]> (workers s)) (totalLoaded s) (completedShards s).

(** [lockedPartitions.add(partitionId)] *)
Definition lock (pid : string) (s : Pool) : Pool :=
  mkPool (order s) (taskQueues s) ({[pid]} ∪ lockedPartitions s) (downloadComplete s)
    (workers s) (totalLoaded s) (completedShards s).

(** [lockedPartitions.delete(currentPartitionId)] in the [finally]. *)
Definition release (pid : string) (s : Pool) : Pool :=
  mkPool (order s) (taskQueues s) (lockedPartitions s ∖ {[pid]}) (downloadComplete s)
    (workers s) (totalLoaded s) (completedShards s).

(** [queue.splice(0, batchSize)] followed by the call of
    [storePartitionedBatch], at whose [await] the worker is suspended. *)
Definition start_batch (w : nat) (pid : string) (s : Pool) : Pool :=
  let q := queue_of s pid in
  let n := Z.to_nat (batchSize (Z.of_nat (List.length q))) in
  set_worker w (Storing pid (take n q))
    (mkPool (order s) (<[pid := drop n q]> (taskQueues s)) (lockedPartitions s)
       (downloadComplete s) (workers s) (totalLoaded s) (completedShards s)).

(** From the test of the outer [while] to the next [await]. *)
Definition next_task (w : nat) (s : Pool) : Pool :=
  if downloadComplete s && negb (hasTasksInQueues s) then set_worker w Exited s
  else match scan s with
       | Some pid => start_batch w pid (lock pid s)
       | None => set_worker w Sleeping s
       end.

Definition add_loaded (n : nat) (done : Z) (s : Pool) : Pool :=
  mkPool (order s) (taskQueues s) (lockedPartitions s) (downloadComplete s)
    (workers s) (totalLoaded s + Z.of_nat n) (completedShards s + done).

(** The continuation of a worker when [storePartitionedBatch] settles:
    fulfilled, it takes the next batch of the same partition or, the queue
    drained, leaves through the [finally]; rejected, it goes through [catch]
    and the same [finally].  After the [finally] it runs on to the next scan. *)
Definition store_settled (ok : bool) (w : nat) (pid : string)
    (batch : list (gmap string jsval)) (s : Pool) : Pool :=
  if ok then
    if nonempty (queue_of s pid)
    then start_batch w pid (add_loaded (List.length batch) 0 s)
    else next_task w (release pid (add_loaded (List.length batch) 1 s))
  else next_task w (release pid s).

(** [taskQueues[partitionId].push(...records)] by a download worker. *)
Definition route (pid : string) (rs : list (gmap string jsval)) (s : Pool) : Pool :=
  mkPool (order s) (<[pid := queue_of s pid ++ rs]> (taskQueues s)) (lockedPartitions s)
    (downloadComplete s) (workers s) (totalLoaded s) (completedShards s).

Definition finish_download (s : Pool) : Pool :=
  mkPool (order s) (taskQueues s) (lockedPartitions s) true
    (workers s) (totalLoaded s) (completedShards s).

(** One turn of the event loop that touches the shared variables. *)
Inductive step : Pool → Pool → Prop :=
| step_wake s w :
    workers s !! w = Some Sleeping → step s (next_task w s)
| step_settled s w pid batch ok :
    workers s !! w = Some (Storing pid batch) →
    step s (store_settled ok w pid batch s)
| step_route s pid rs :
    pid ∈ order s → step s (route pid rs s)
| step_finish s :
    step s (finish_download s).

(** The pool as [parallelShardedLoad] sets it up: an empty queue for every
    partition of the shard list, no lock, the workers about to start. *)
Definition initial (partitions : list string) : Pool :=
  mkPool partitions (list_to_map (map (λ pid, (pid, [])) partitions)) ∅ false
    (list_to_map (map (λ w, (w, Sleeping)) (seq 1 STORAGE_WORKERS))) 0 0.

Definition reachable (partitions : list string) (s : Pool) : Prop :=
  rtc step (initial partitions) s.


(** *** The three-stage pipeline: storage workers behind [tryLockPartition] *)

(** Modelled from the spec: [cacheManager.tryLockPartition], which the
    three-stage [storageWorker] calls and which is not among the sources.
    The spec describes a cooperative lock set with try-lock-and-move-on: the
    call fails when the partition is currently locked by a persist worker,
    and otherwise locks it exclusively. *)
Definition tryLockPartition (pid : string) (locks : gset string) : bool * gset string :=
  if decide (pid ∈ locks) then (false, locks) else (true, {[pid]} ∪ locks).

(** Modelled from the spec: [cacheManager.unlockPartition], likewise absent;
    it releases the lock. *)
Definition unlockPartition (pid : string) (locks : gset string) : gset string :=
  locks ∖ {[pid]}.

(** The shared variables of the three-stage pipeline that the storage
    workers use.  [resumeAt] keeps, for a worker suspended in a write, the
    entries its [for] loop has still to visit. *)
Record Stage : Type := mkStage {
  partitionOrder : list string;
  parsedQueues : gmap string (list (gmap string jsval));
  partitionLocks : gset string;
  parseComplete : bool;
  storageWorkers : gmap nat wstatus;
  resumeAt : gmap nat (list string);
  stageLoaded : Z
}.

Definition OPTIMAL_BATCH_SIZE : Z := 5000.

Definition parsed_of (s : Stage) (pid : string) : list (gmap string jsval) :=
  default [] (parsedQueues s !! pid).

(** [Object.values(parsedQueues).some(queue => queue.length > 0)] *)
Definition hasParsedData (s : Stage) : bool :=
  existsb (λ pid, nonempty (parsed_of s pid)) (partitionOrder s).

Definition set_storage (w : nat) (st : wstatus) (s : Stage) : Stage :=
  mkStage (partitionOrder s) (parsedQueues s) (partitionLocks s) (parseComplete s)
    (<[w := st]> (storageWorkers s)) (resumeAt s) (stageLoaded s).

(** The [for] loop over the entries [rest], up to the first [await]: empty
    queues and partitions whose lock is refused are passed over; on the
    first partition it locks, the worker splices a batch (never empty, the
    queue having been found non-empty) and suspends in the write.  [None]:
    the loop ran to its end without a write. *)
Fixpoint visit (w : nat) (rest : list string) (s : Stage) : option Stage :=
  match rest with
  | [] => None
  | pid :: rest' =>
      if negb (nonempty (parsed_of s pid)) then visit w rest' s
      else match tryLockPartition pid (partitionLocks s) with
           | (false, _) => visit w rest' s
           | (true, locks) =>
               let q := parsed_of s pid in
               let n := Z.to_nat (Z.min (Z.of_nat (List.length q)) OPTIMAL_BATCH_SIZE) in
               Some (mkStage (partitionOrder s) (<[pid := drop n q]> (parsedQueues s))
                       locks (parseComplete s)
                       (<[w := Storing pid (take n q)]> (storageWorkers s))
                       (<[w := rest']> (resumeAt s)) (stageLoaded s))
           end
  end.

(** From the test of the [while] to the next [await]: a pass that finds
    nothing ends in the 10 ms sleep. *)
Definition next_pass (w : nat) (s : Stage) : Stage :=
  if parseComplete s && negb (hasParsedData s) then set_storage w Exited s
  else match visit w (partitionOrder s) s with
       | Some s' => s'
       | None => set_storage w Sleeping s
       end.

(** The continuation when the write settles: the [finally] unlocks, the
    [for] loop goes on with the remaining entries, and at its end, a task
    having been found in this pass, the [while] is tested again at once. *)
Definition batch_settled (ok : bool) (w : nat) (pid : string)
    (batch : list (gmap string jsval)) (s : Stage) : Stage :=
  let s1 := mkStage (partitionOrder s) (parsedQueues s)
              (unlockPartition pid (partitionLocks s)) (parseComplete s)
              (storageWorkers s) (resumeAt s)
              (if ok then stageLoaded s + Z.of_nat (List.length batch) else stageLoaded s) in
  match visit w (default [] (resumeAt s !! w)) s1 with
  | Some s' => s'
  | None => next_pass w s1
  end.

Inductive stage_step : Stage → Stage → Prop :=
| stage_wake s w :
    storageWorkers s !! w = Some Sleeping → stage_step s (next_pass w s)
| stage_settled s w pid batch ok :
    storageWorkers s !! w = Some (Storing pid batch) →
    stage_step s (batch_settled ok w pid batch s)
| stage_parsed s pid rs :
    pid ∈ partitionOrder s →
    stage_step s (mkStage (partitionOrder s)
                    (<[pid := parsed_of s pid ++ rs]> (parsedQueues s))
                    (partitionLocks s) (parseComplete s) (storageWorkers s)
                    (resumeAt s) (stageLoaded s))
| stage_parse_complete s :
    stage_step s (mkStage (partitionOrder s) (parsedQueues s) (partitionLocks s) true
                    (storageWorkers s) (resumeAt s) (stageLoaded s)).

Definition stage_initial (partitions : list string) : Stage :=
  mkStage partitions (list_to_map (map (λ pid, (pid, [])) partitions)) ∅ false
    (list_to_map (map (λ w, (w, Sleeping)) (seq 1 STORAGE_WORKERS))) ∅ 0.

End Loader.

(** ** Vocabulary of the specification *)

Module Vocabulary.
Import Js JsDate Cache.

(** The three formats [parseLocalTime] accepts, by shape: a leading
    [YYYY-M-D] (with or without a time), the same after stripping an ISO
    offset, and the date-only fallback of at least three [-]-separated
    parts before the first blank. *)
Definition recognised (timeStr : string) : bool :=
  bool_decide (is_Some (match_date timeStr))
  || bool_decide (is_Some (match_date (clean timeStr)))
  || (3 <=? Z.of_nat (List.length (split_on "-" (List.hd EmptyString (split_on " " timeStr))))).

End Vocabulary.

(** ** The puts of a batch, as a list *)

Module Batch.
Import Js JsDate Cache.

(** Inserting key-value pairs in order. *)
Definition ins (l : list (idbkey * gmap string jsval))
    (m : gmap idbkey (gmap string jsval)) : gmap idbkey (gmap string jsval) :=
  fold_left (λ m kv, <[kv.1 := kv.2]> m) l m.

(** The puts a loop issues before it meets a record without a usable key;
    [f] is what the loop does to a record before storing it. *)
Fixpoint issued (f : gmap string jsval → gmap string jsval)
    (rs : list (gmap string jsval)) : list (idbkey * gmap string jsval) :=
  match rs with
  | [] => []
  | r :: rs' =>
      match to_key (get (f r) "id") with
      | Some k => (k, f r) :: issued f rs'
      | None => []
      end
  end.

Definition all_keyed (f : gmap string jsval → gmap string jsval)
    (rs : list (gmap string jsval)) : bool :=
  forallb (λ r, bool_decide (is_Some (to_key (get (f r) "id")))) rs.

(** The record names its identity itself, so that [appendData] does not
    have to make one up. *)
Definition has_identity (r : gmap string jsval) : Prop :=
  is_Some (r !! "id")
  ∨ truthy (js_or (js_or (get r "plan_id") (get r "计划ID")) (get r "id")) = true.

(** The second database has the records, the total count and the cached
    aggregates of the first. *)
Definition same_contents (db1 db2 : DB) : Prop :=
  allDataCache db2 = allDataCache db1
  ∧ totalCount <$> metaData db2 = totalCount <$> metaData db1
  ∧ statisticsCache db2 = statisticsCache db1
  ∧ dataStoreCache db2 = dataStoreCache db1.

(** [metadata.totalCount], 0 while there is no metadata. *)
Definition stored_count (db : DB) : Z :=
  default 0 (totalCount <$> metaData db).

(** The timestamp stored under the identity [p1]. *)
Definition stored_timestamp (db : DB) : option jsval :=
  (λ r, get r "timestamp") <$> allDataCache db !! KStr "p1".

End Batch.

(** ** Vocabulary for catch-up runs *)

Module CatchupVocabulary.
Import Js JsDate Cache Sync.

(** The incremental request failed (network error, non-OK status, body that
    is not JSON or not of the expected shape) or brought no records. *)
Definition failed_or_empty (resp : response) : bool :=
  match resp with
  | Body true (Some d) =>
      match records d with
      | Some (_ :: _) => false
      | _ => true
      end
  | _ => true
  end.

(** The contract of the incremental endpoint: a response that carries
    records carries a numeric [maxChangeLogId] not below the cursor [c] the
    request was made with. *)
Definition answers_from (c : Z) (resp : response) : Prop :=
  match resp with
  | Body true (Some d) =>
      match records d with
      | Some (_ :: _) => ∃ z, maxChangeLogId d = JNumber (Num z) ∧ c ≤ z
      | _ => True
      end
  | _ => True
  end.

(** Every attempt of the run is answered according to the contract. *)
Fixpoint contract (P : Platform) (db : DB) (l : list attempt) : Prop :=
  match l with
  | [] => True
  | a :: l' => answers_from (cursor db) a.2 ∧ contract P (catchup P db a) l'
  end.

(** The [maxChangeLogId]s returned to the successful attempts of a run. *)
Fixpoint returned_ids (P : Platform) (db : DB) (l : list attempt) : list Z :=
  match l with
  | [] => []
  | a :: l' =>
      (if succeeded P db a
       then match returned_id a.2 with Some z => [z] | None => [] end
       else [])
      ++ returned_ids P (catchup P db a) l'
  end.

Definition max_of (c : Z) (l : list Z) : Z := fold_left Z.max l c.

End CatchupVocabulary.

(** ** Concrete inputs used by the examples below *)

Module Examples.
Import Js JsDate Cache Sync Loader.

(** A host in a zone eight hours ahead of UTC without daylight saving. *)
Definition utc8 : Platform :=
  {| LocalTZA := λ _, 28800000;
     DateParseLegacy := λ _, NaN;
     NumberLiteralExt := λ _, NaN |}.

Definition emptyDB : DB := mkDB ∅ None ∅ ∅.

(** A database whose metadata carries the cursor [c]. *)
Definition dbWithCursor (c : Z) : DB :=
  mkDB ∅ (Some (mkMeta 0 1000 (Some 1000) (JNumber (Num c)) ∅)) ∅ ∅.

Definition plan (id : string) (start : string) : gmap string jsval :=
  {[ "plan_id" := JString id; "start_time" := JString start ]}.

(** A pushed record as the server serialises a date: ISO time with [Z]. *)
Definition pushedIso : gmap string jsval :=
  {[ "id" := JString "p1"; "plan_id" := JString "p1";
     "start_time" := JString "2025-10-01T08:00:00.000Z" ]}.

(** A pushed record that already carries a [timestamp]. *)
Definition pushedStale : gmap string jsval :=
  {[ "id" := JString "p1"; "start_time" := JString "2025-10-01 08:00:00";
     "timestamp" := JNumber (Num 1) ]}.

(** A database holding one precomputed statistic and one bucket cache,
    both written at time 10. *)
Definition cachedDB : DB :=
  saveDataStoreBuckets 10 "day" "buckets-v1" 1
    (saveStatistics 10 "bucket" "stats-v1" emptyDB).

(** A response with the given records and watermark. *)
Definition answer (rs : list (gmap string jsval)) (maxId : Z) : response :=
  Body true (Some (mkData (Some rs) (JNumber (Num maxId)) (JNumber (Num 0)))).

Definition onePlan : list (gmap string jsval) := [plan "p1" "2025-10-01 08:00:00"].

Definition fivePlans : list (gmap string jsval) :=
  [plan "p1" "2025-10-01 08:00:00"; plan "p2" "2025-10-01 09:00:00";
   plan "p3" "2025-10-02 08:00:00"; plan "p4" "2025-10-03 08:00:00";
   plan "p5" "2025-10-04 08:00:00"].

(** One partition, one routed shard, and worker 1 woken up. *)
Definition claimed : Pool :=
  next_task 1 (route "2025_Q1" onePlan (initial ["2025_Q1"])).

End Examples.

(** ** CacheManager: clearing and inspecting the cache *)

Module CacheMore.
Import Js JsDate Cache.

(** [clearAllDataCache()]: the record store is cleared and the metadata
    singleton deleted; the aggregate stores are not part of the transaction. *)
Definition clearAllDataCache (db : DB) : DB :=
  mkDB ∅ None (statisticsCache db) (dataStoreCache db).

(** [checkAllDataCache()]: the metadata, or [null]. *)
Definition checkAllDataCache (db : DB) : option Meta := metaData db.

End CacheMore.

(** ** WebSocketSyncManager: messages, connecting and disconnecting *)

Module SyncMore.
Import Js JsDate Cache Sync.

(** [JSON.parse(event.data)] as far as [handleMessage] looks at it.
    [MsgInvalid]: the text is not JSON, or not an object, so that parsing or
    reading [message.type] throws.  In [MsgBatchUpdate] the outer [None] is a
    missing [data], the inner one a missing [records]. *)
Inductive message : Type :=
| MsgInvalid
| MsgHeartbeat
| MsgDataChange (data : option ChangeData)
| MsgBatchUpdate (data : option (option (list (gmap string jsval))))
| MsgOther.

(** What [onSyncUpdate] is called with by the two handlers. *)
Inductive notice : Type :=
| NoticeChange (u : SyncUpdate)
| NoticeBatch (count : Z).

Section Messages.
Context (P : Platform).

(** [handleBatchUpdate(batchData)]: destructuring a missing [batchData]
    throws before the [try]; [batchUpdateRecords] answers 0 for missing
    [records]; a rejected batch is caught and logged. *)
Definition handleBatchUpdate (now : Z)
    (batchData : option (option (list (gmap string jsval)))) (db : DB)
  : DB * outcome unit * list notice :=
  match batchData with
  | None => (db, Rejected TypeError, [])
  | Some records =>
      match batchUpdateRecords P now (default [] records) db with
      | (db', Resolved n) => (db', Resolved (), [NoticeBatch n])
      | (db', Rejected _) => (db', Resolved (), [])
      end
  end.

(** [handleMessage(event)]: everything is inside one [try]. *)
Definition handleMessage (now : Z) (m : message) (c : Conn) (db : DB)
  : Conn * DB * list notice :=
  match m with
  | MsgInvalid | MsgOther => (c, db, [])
  | MsgHeartbeat => (heartbeatReceived c, db, [])
  | MsgDataChange d =>
      let '(db', _, us) := handleDataChange P now d db in (c, db', NoticeChange <$> us)
  | MsgBatchUpdate d =>
      let '(db', _, ns) := handleBatchUpdate now d db in (c, db', ns)
  end.

(** What happens to a manager between the [open] and the [close] event of
    its socket: the heartbeat interval fires, or a message arrives. *)
Inductive event : Type :=
| Interval
| Received (now : Z) (m : message).

Definition on_event (s : Conn * DB) (e : event) : Conn * DB :=
  match e with
  | Interval => (heartbeatTick s.1, s.2)
  | Received now m => (handleMessage now m s.1 s.2).1
  end.

Definition run_events (es : list event) (s : Conn * DB) : Conn * DB :=
  fold_left on_event es s.

End Messages.

(** The intervals and the heartbeat messages among the events. *)
Inductive pulse : Type := Tick | Beat.

Definition pulses_of (es : list event) : list pulse :=
  omap (λ e, match e with
             | Interval => Some Tick
             | Received _ MsgHeartbeat => Some Beat
             | Received _ _ => None
             end) es.

Definition on_pulse (c : Conn) (p : pulse) : Conn :=
  match p with
  | Tick => heartbeatTick c
  | Beat => heartbeatReceived c
  end.

(** Three intervals with no heartbeat message between them. *)
Fixpoint three_in_a_row (ps : list pulse) : bool :=
  match ps with
  | Tick :: Tick :: Tick :: _ => true
  | _ :: rest => three_in_a_row rest
  | [] => false
  end.

(** *** Connecting *)

(** The manager with the rest of what [connect], [scheduleReconnect] and
    [disconnect] use: whether a URL is configured, the timer id kept in
    [reconnectTimer], the timers set and neither fired nor cleared, and the
    number of sockets constructed. *)
Record Link : Type := mkLink {
  conn : Conn;
  wsUrl : bool;
  reconnectTimer : option nat;
  pendingTimers : gset nat;
  socketsConstructed : nat
}.

(** [scheduleReconnect()] with its [setTimeout]; the timer is named by the
    number of timers set before it. *)
Definition link_scheduleReconnect (l : Link) : Link :=
  if isReconnecting (conn l) then l else
  let id := reconnectsScheduled (conn l) in
  mkLink (scheduleReconnect (conn l)) (wsUrl l) (Some id)
    ({[id]} ∪ pendingTimers l) (socketsConstructed l).

(** [connect()]; [throws]: the [WebSocket] constructor throws. *)
Definition connect (throws : bool) (l : Link) : Link :=
  if negb (wsUrl l) then l else
  match ws (conn l) with
  | Some CONNECTING | Some OPEN => l
  | _ =>
      if throws then link_scheduleReconnect l
      else mkLink (set_readyState CONNECTING (conn l)) (wsUrl l) (reconnectTimer l)
             (pendingTimers l) (S (socketsConstructed l))
  end.

(** The callback of a reconnect timer. *)
Definition timerFires (id : nat) (throws : bool) (l : Link) : Link :=
  if bool_decide (id ∈ pendingTimers l)
  then connect throws
         (mkLink (conn l) (wsUrl l) (reconnectTimer l) (pendingTimers l ∖ {[id]})
            (socketsConstructed l))
  else l.

(** [handleClose(event)] with the timer bookkeeping of [scheduleReconnect]. *)
Definition link_handleClose (wasClean : bool) (l : Link) : Link :=
  let c := conn l in
  let c1 := stopHeartbeat
              (mkConn (ws c) false (isReconnecting c) (heartbeatInterval c)
                 (missedHeartbeats c) (closeCalls c) (reconnectsScheduled c)
                 (heartbeatsSent c)) in
  let l1 := mkLink c1 (wsUrl l) (reconnectTimer l) (pendingTimers l)
              (socketsConstructed l) in
  if negb wasClean && negb (isReconnecting c1) then link_scheduleReconnect l1 else l1.

(** The [close] event of the socket the manager holds. *)
Definition link_closeEvent (wasClean : bool) (l : Link) : Link :=
  link_handleClose wasClean
    (mkLink (set_readyState CLOSED (conn l)) (wsUrl l) (reconnectTimer l)
       (pendingTimers l) (socketsConstructed l)).

(** [disconnect()]: [clearTimeout] on the kept id, [ws.close()] if there is
    a socket, and the socket is let go of. *)
Definition disconnect (l : Link) : Link :=
  let c := conn l in
  let pending :=
    match reconnectTimer l with
    | Some id => pendingTimers l ∖ {[id]}
    | None => pendingTimers l
    end in
  mkLink (mkConn None false false false (missedHeartbeats c)
            (match ws c with Some _ => S (closeCalls c) | None => closeCalls c end)
            (reconnectsScheduled c) (heartbeatsSent c))
    (wsUrl l) None pending (socketsConstructed l).

(** What can happen while the manager waits to be connected again. *)
Inductive waiting_event : Type :=
| WTimer (id : nat) (throws : bool)
| WConnect (throws : bool)
| WClose (wasClean : bool)
| WInterval.

Definition on_waiting (l : Link) (e : waiting_event) : Link :=
  match e with
  | WTimer id throws => timerFires id throws l
  | WConnect throws => connect throws l
  | WClose wasClean => link_closeEvent wasClean l
  | WInterval =>
      mkLink (heartbeatTick (conn l)) (wsUrl l) (reconnectTimer l) (pendingTimers l)
        (socketsConstructed l)
  end.

End SyncMore.

(** ** DataPreloader: accounting of the storage workers, and the download workers *)

Module LoaderMore.
Import Js JsDate Cache Loader.

(** The sum of [f] over the values of a finite map. *)
Definition msum {K : Type} `{Countable K} {A : Type} (f : A → Z) (m : gmap K A) : Z :=
  map_fold (λ _ x acc, f x + acc) 0 m.

Definition batch_len (st : wstatus) : Z :=
  match st with
  | Storing _ batch => Z.of_nat (List.length batch)
  | _ => 0
  end.

(** Records handed to [storePartitionedBatch] and not yet settled. *)
Definition inflight (s : Pool) : Z := msum batch_len (workers s).

(** Records waiting in the task queues. *)
Definition queued (s : Pool) : Z :=
  msum (λ q : list (gmap string jsval), Z.of_nat (List.length q)) (taskQueues s).

(** The records that are neither written nor lost. *)
Definition pending (s : Pool) : Z := inflight s + queued s.

(** The size of the batch worker [w] is writing, if it is writing. *)
Definition held (s : Pool) (w : nat) : Z := from_option batch_len 0 (workers s !! w).

(** The states [parallelShardedLoad] goes through, together with the number
    of records routed into the queues so far and the number of records in
    batches whose write was rejected.  These are states of [Loader.step];
    the download workers, the only ones to route, are all awaited before
    [downloadComplete = true], so that nothing is routed after it. *)
Inductive counted (partitions : list string) : Pool → Z → Z → Prop :=
| counted_initial :
    counted partitions (initial partitions) 0 0
| counted_wake s routed dropped w :
    counted partitions s routed dropped →
    workers s !! w = Some Sleeping →
    counted partitions (next_task w s) routed dropped
| counted_stored s routed dropped w pid batch :
    counted partitions s routed dropped →
    workers s !! w = Some (Storing pid batch) →
    counted partitions (store_settled true w pid batch s) routed dropped
| counted_rejected s routed dropped w pid batch :
    counted partitions s routed dropped →
    workers s !! w = Some (Storing pid batch) →
    counted partitions (store_settled false w pid batch s) routed
      (dropped + Z.of_nat (List.length batch))
| counted_route s routed dropped pid rs :
    counted partitions s routed dropped →
    pid ∈ order s →
    downloadComplete s = false →
    counted partitions (route pid rs s) (routed + Z.of_nat (List.length rs)) dropped
| counted_finish s routed dropped :
    counted partitions s routed dropped →
    counted partitions (finish_download s) routed dropped.

Definition is_exited (st : wstatus) : bool :=
  match st with Exited => true | _ => false end.

(** [await Promise.all(storageWorkers)] has returned. *)
Definition all_exited (s : Pool) : Prop :=
  map_Forall (λ _ st, is_exited st = true) (workers s).

(** A queue that holds records belongs to a registered partition. *)
Definition queues_registered (s : Pool) : Prop :=
  ∀ pid, queue_of s pid ≠ [] → pid ∈ order s.

(** Once a worker has left its loop, the downloads are over and no queue
    holds a record. *)
Definition drained (s : Pool) : Prop :=
  (∃ w, workers s !! w = Some Exited) →
  downloadComplete s = true ∧ ∀ pid, queue_of s pid = [].

(** Every write in flight carries at least one record and at most
    [MIN_BATCH_SIZE]. *)
Definition well_sized (s : Pool) : Prop :=
  ∀ w pid batch, workers s !! w = Some (Storing pid batch) →
    batch ≠ [] ∧ Z.of_nat (List.length batch) ≤ MIN_BATCH_SIZE.

(** *** Download workers *)

(** Where a download worker is suspended: before the test of its [while]
    (not yet started, or in the [setTimeout(0)] at the end of the body), in
    [await this.fetchShardData(shard)] for the shard it claimed, or past the
    loop. *)
Inductive dstatus : Type :=
| Ready
| Fetching (shard : nat)
| Finished.

(** The shared [index], the number of shards, the workers, and the shards
    claimed so far, latest first. *)
Record Fetch : Type := mkFetch {
  index : nat;
  shardCount : nat;
  downloaders : gmap nat dstatus;
  claimed : list nat
}.

(** [while (index < shards.length) { const currentIndex = index++; ...
    await this.fetchShardData(shard)] *)
Definition resume_download (w : nat) (f : Fetch) : Fetch :=
  if (index f <? shardCount f)%nat
  then mkFetch (S (index f)) (shardCount f)
         (<[w := Fetching (index f)]> (downloaders f)) (index f :: claimed f)
  else mkFetch (index f) (shardCount f) (<[w := Finished]> (downloaders f)) (claimed f).

(** The fetch settles; whatever it brought is pushed to a queue or logged,
    and the worker yields in [setTimeout(0)]. *)
Definition fetch_settled (w : nat) (f : Fetch) : Fetch :=
  mkFetch (index f) (shardCount f) (<[w := Ready]> (downloaders f)) (claimed f).

Inductive fetch_step : Fetch → Fetch → Prop :=
| fetch_resume f w :
    downloaders f !! w = Some Ready → fetch_step f (resume_download w f)
| fetch_done f w shard :
    downloaders f !! w = Some (Fetching shard) → fetch_step f (fetch_settled w f).

(** [shards] shards and [concurrency] download workers about to start. *)
Definition fetch_initial (shards concurrency : nat) : Fetch :=
  mkFetch 0 shards (list_to_map (map (λ w, (w, Ready)) (seq 1 concurrency))) [].

(** What the download workers keep true of the shared [index]. *)
Definition claims_in_order (shards : nat) (f : Fetch) : Prop :=
  shardCount f = shards
  ∧ claimed f = reverse (seq 0 (index f))
  ∧ (index f ≤ shards)%nat
  ∧ (∀ w i, downloaders f !! w = Some (Fetching i) → (i < index f)%nat)
  ∧ (∀ w1 w2 i, downloaders f !! w1 = Some (Fetching i) →
       downloaders f !! w2 = Some (Fetching i) → w1 = w2)
  ∧ (∀ w, downloaders f !! w = Some Finished → index f = shards).

End LoaderMore.

(** A run of the pipeline over one partition: two records are routed, the
    first worker writes them, the downloads end, the workers leave. *)
Module LoaderExamples.
Import Js JsDate Cache Loader LoaderMore.

Definition quarter : string := "2025_Q1".
Definition downloaded : list (gmap string jsval) :=
  [ {[ "plan_id" := JString "P-1" ]}; {[ "plan_id" := JString "P-2" ]} ].

Definition routed_state : Pool := route quarter downloaded (initial [quarter]).
Definition writing_state : Pool := next_task 1 routed_state.
Definition written_state : Pool := store_settled true 1 quarter downloaded writing_state.
Definition returned_state : Pool :=
  next_task 3 (next_task 2 (next_task 1 (finish_download written_state))).

End LoaderExamples.

(** ** CacheManager: reading a time window *)

Module Query.
Import Js JsDate Cache.

(** *** [parseInt] without a radix *)

Definition hex_value (c : ascii) : option Z :=
  let n := code c in
  if is_digit c then Some (n - 48)
  else if (97 <=? n) && (n <=? 102) then Some (n - 87)
  else if (65 <=? n) && (n <=? 70) then Some (n - 55)
  else None.

(** The longest prefix of hexadecimal digits, as digit values. *)
Fixpoint take_hex (s : string) : list Z :=
  match s with
  | String c r =>
      match hex_value c with
      | Some v => v :: take_hex r
      | None => []
      end
  | EmptyString => []
  end.

(** The longest prefix of decimal digits. *)
Definition decimal_prefix (s : string) : string := (take_digits (String.length s) s).1.

(** [parseInt(s)]: leading white space and one sign are skipped; after
    [0x] or [0X] the digits are hexadecimal, otherwise decimal; the digits
    end at the first character that is not one; no digit at all is [NaN]. *)
Definition parseInt (s : string) : jsnum :=
  let t := trim_start s in
  let '(sign, t) :=
    match t with
    | String c r =>
        if code c =? 45 then (-1, r)
        else if code c =? 43 then (1, r)
        else (1, t)
    | EmptyString => (1, t)
    end in
  let decimal :=
    let ds := decimal_prefix t in
    if String.eqb ds "" then NaN else Num (round_double (sign * parseInt_digits ds)) in
  match t with
  | String z (String x r) =>
      if (code z =? 48) && ((code x =? 120) || (code x =? 88)) then
        match take_hex r with
        | [] => NaN
        | ds => Num (round_double (sign * fold_left (λ acc d, 16 * acc + d) ds 0))
        end
      else decimal
  | _ => decimal
  end.

(** [new Date(year, month, date, hours, minutes, seconds, ms).getTime()] *)
Definition Date_fields (P : Platform) (y mo d h mi s ms : jsnum) : jsnum :=
  match y, mo, d, h, mi, s, ms with
  | Num y, Num mo, Num d, Num h, Num mi, Num s, Num ms =>
      let yr := if (0 <=? y) && (y <=? 99) then 1900 + y else y in
      TimeClip (UTC P (MakeDate (MakeDay yr mo d) (MakeTime h mi s ms)))
  | _, _, _, _, _, _, _ => NaN
  end.

(** ToNumber. *)
Definition ToNumber (P : Platform) (v : jsval) : jsnum :=
  match v with
  | JUndefined => NaN
  | JNull => Num 0
  | JBool b => Num (if b then 1 else 0)
  | JNumber n => n
  | JString s => Number_of_string P s
  | JDate t => t
  end.

(** [a < b] on numbers: false as soon as one is [NaN]. *)
Definition js_lt (a b : jsnum) : bool :=
  match a, b with
  | Num x, Num y => x <? y
  | _, _ => false
  end.

(** *** [store.getAll()] *)

(** The order of IndexedDB keys: numbers before dates before strings. *)
Definition key_leb (a b : idbkey) : bool :=
  match a, b with
  | KNum x, KNum y => x <=? y
  | KNum _, _ => true
  | KDate _, KNum _ => false
  | KDate x, KDate y => x <=? y
  | KDate _, KStr _ => true
  | KStr x, KStr y => String.leb x y
  | KStr _, _ => false
  end.

(** The records in ascending order of their keys. *)
Definition getAll (db : DB) : list record :=
  map snd (merge_sort (λ a b : idbkey * record, key_leb a.1 b.1)
             (map_to_list (allDataCache db))).

(** *** [queryAllData] *)

(** The [filters] argument; an absent property is [undefined]. *)
Record Filters : Type := mkFilters {
  startDate : jsval;
  endDate : jsval
}.

Section Window.
Context (P : Platform).

(** [parseLocalDateToTimestamp(dateStr, hours, minutes, seconds, ms)]; a
    value without a [split] method raises a [TypeError] inside the [try],
    and the function answers 0 as for a string that has not three parts. *)
Definition parseLocalDateToTimestamp (dateStr : jsval) (hours minutes seconds ms : Z)
  : jsnum :=
  if negb (truthy dateStr) then Num 0 else
  match dateStr with
  | JString str =>
      match split_on "-" str with
      | [p0; p1; p2] =>
          Date_fields P (parseInt p0) (num_sub (parseInt p1) 1) (parseInt p2)
            (Num hours) (Num minutes) (Num seconds) (Num ms)
      | _ => Num 0
      end
  | _ => Num 0
  end.

(** [record.timestamp || this.parseTimeToTimestamp(record.start_time)] *)
Definition recordTime (r : record) : jsval :=
  js_or (get r "timestamp") (JNumber (parseTimeToTimestamp P (get r "start_time"))).

(** The callback of [results.filter]. *)
Definition in_window (f : Filters) (r : record) : bool :=
  let startTime := parseLocalDateToTimestamp (startDate f) 0 0 0 0 in
  let endTime := parseLocalDateToTimestamp (endDate f) 23 59 59 999 in
  let t := ToNumber P (recordTime r) in
  if truthy (startDate f) && js_lt t startTime then false
  else if truthy (endDate f) && js_lt endTime t then false
  else true.

(** [queryAllData(filters)]: the array the promise resolves with. *)
Definition queryAllData (f : Filters) (db : DB) : list record :=
  let results := getAll db in
  if truthy (startDate f) || truthy (endDate f)
  then List.filter (in_window f) results
  else results.

End Window.

(** *** Calendar days *)

(** The day number [new Date(y, m - 1, d)] stands for. *)
Definition day_number (y m d : Z) : Z :=
  MakeDay (if (0 <=? y) && (y <=? 99) then 1900 + y else y) (m - 1) d.

(** A date of the filter read as year, month and day. *)
Definition filter_date (s : string) : option (Z * Z * Z) :=
  match split_on "-" s with
  | [p0; p1; p2] =>
      match parseInt p0, parseInt p1, parseInt p2 with
      | Num y, Num m, Num d => Some (y, m, d)
      | _, _, _ => None
      end
  | _ => None
  end.

(** A [start_time] read as the day and the milliseconds into the day that
    [parseLocalTime] takes from its digits. *)
Definition wall_clock (s : string) : option (Z * Z) :=
  '(y, m, d, rest) ← match_date (clean s);
  let '(h, mi, se) :=
    match match_time rest with
    | Some (h, mi, se) => (parseInt_digits h, parseInt_digits mi, parseInt_digits se)
    | None => (0, 0, 0)
    end in
  Some (day_number (parseInt_digits y) (parseInt_digits m) (parseInt_digits d),
        MakeTime h mi se 0).

End Query.

(** ** CacheManager: reading everything in batches *)

Module Batches.
Import Js JsDate Cache Query.

(** [l.slice(i, j)]: a negative index counts from the end. *)
Definition slice {A} (l : list A) (i j : Z) : list A :=
  let len := Z.of_nat (List.length l) in
  let k := if i <? 0 then Z.max (len + i) 0 else Z.min i len in
  let e := if j <? 0 then Z.max (len + j) 0 else Z.min j len in
  take (Z.to_nat (e - k)) (drop (Z.to_nat k) l).

(** A call [onBatch(batch, loaded)]. *)
Definition call : Type := list record * Z.

(** [for (let i = 0; i < allData.length; i += batchSize)] from the value
    [i] on; [None]: the loop is still running after [fuel] turns. *)
Fixpoint fast_calls (fuel : nat) (allData : list record) (batchSize i : Z)
  : option (list call) :=
  if i <? Z.of_nat (List.length allData) then
    match fuel with
    | O => None
    | S fuel' =>
        let batch := slice allData i (i + batchSize) in
        let loaded := Z.min (i + batchSize) (Z.of_nat (List.length allData)) in
        calls ← fast_calls fuel' allData batchSize (i + batchSize);
        Some ((batch, loaded) :: calls)
    end
  else Some [].

(** [queryAllDataFast(onBatch, batchSize)]: the calls of [onBatch] and the
    value the promise resolves with. *)
Definition queryAllDataFast (fuel : nat) (onBatch : bool) (batchSize : Z) (db : DB)
  : option (list call * Z) :=
  let allData := getAll db in
  let totalLoaded := Z.of_nat (List.length allData) in
  if onBatch then
    calls ← fast_calls fuel allData batchSize 0;
    Some (calls, totalLoaded)
  else Some ([], totalLoaded).

(** The variables of [queryAllDataProgressive] between two cursor events. *)
Record Progress : Type := mkProgress {
  batch : list record;
  totalLoaded : Z;
  calls : list call
}.

(** [request.onsuccess] with the cursor on a record. *)
Definition cursor_value (onBatch : bool) (batchSize : Z) (st : Progress) (v : record)
  : Progress :=
  let batch := batch st ++ [v] in
  let totalLoaded := totalLoaded st + 1 in
  if Z.of_nat (List.length batch) >=? batchSize
  then mkProgress [] totalLoaded
         (if onBatch then calls st ++ [(batch, totalLoaded)] else calls st)
  else mkProgress batch totalLoaded (calls st).

(** [request.onsuccess] at the end of the cursor. *)
Definition cursor_end (onBatch : bool) (st : Progress) : list call * Z :=
  (if Loader.nonempty (batch st) && onBatch
   then calls st ++ [(batch st, totalLoaded st)]
   else calls st,
   totalLoaded st).

(** [queryAllDataProgressive(onBatch, batchSize)] *)
Definition queryAllDataProgressive (onBatch : bool) (batchSize : Z) (db : DB)
  : list call * Z :=
  cursor_end onBatch
    (fold_left (cursor_value onBatch batchSize) (getAll db) (mkProgress [] 0 [])).

End Batches.

(** ** Method calls and the exceptions they can raise *)

Module Dispatch.
Import Js JsDate Cache Query.

(** [typeof v] *)
Definition typeof (v : jsval) : string :=
  match v with
  | JUndefined => "undefined"
  | JNull => "object"
  | JBool _ => "boolean"
  | JNumber _ => "number"
  | JString _ => "string"
  | JDate _ => "object"
  end.

(** [v instanceof Date] *)
Definition instanceofDate (v : jsval) : bool :=
  match v with JDate _ => true | _ => false end.

(** [v.replace(/[TZ]/g, ' ').replace(/[+-]\d{2}:\d{2}$/, '').trim()]: on a
    value that has no [replace] method the call raises a [TypeError]. *)
Definition invoke_clean (v : jsval) : outcome string :=
  match v with
  | JString s => Resolved (clean s)
  | _ => Rejected TypeError
  end.

(** [v.getTime()] *)
Definition invoke_getTime (v : jsval) : outcome jsnum :=
  match v with
  | JDate t => Resolved t
  | _ => Rejected TypeError
  end.

(** [n * 1000] *)
Definition times_1000 (n : jsnum) : jsnum :=
  match n with
  | Num z => Num (round_double (z * 1000))
  | NaN => NaN
  end.

Section Guards.
Context (P : Platform).

(** [parseLocalTime(timeStr)] on any value: what [timeStr.match] raises on
    a value that is not a string ends in the [catch]. *)
Definition parseLocalTime_value (timeStr : jsval) : jsnum :=
  if negb (truthy timeStr) then NaN else
  match timeStr with
  | JString s => parseLocalTime P s
  | _ => NaN
  end.

(** [parseTimeToTimestamp(timeValue)] statement by statement, with the
    method calls as they are dispatched: [Rejected] is an exception leaving
    the function. *)
Definition parseTimeToTimestamp_outcome (timeValue : jsval) : outcome jsnum :=
  if String.eqb (typeof timeValue) "number" then
    let n := ToNumber P timeValue in
    Resolved (if js_lt (Num 1000000000000) n then n else times_1000 n)
  else if String.eqb (typeof timeValue) "string" then
    match invoke_clean timeValue with
    | Rejected e => Rejected e
    | Resolved cleanTimeStr =>
        let date := parseLocalTime_value (JString cleanTimeStr) in
        Resolved (if isNaN date then Num 0 else date)
    end
  else if instanceofDate timeValue then invoke_getTime timeValue
  else Resolved (Num 0).

End Guards.
End Dispatch.

(** ** Time parsing: results *)

Module ParsingFacts.
Import Js JsDate Cache Query Dispatch Vocabulary Examples.

Lemma get_insert_eq (r : gmap string jsval) f v : get (<[f := v]> r) f = v.
Proof. unfold get. by rewrite lookup_insert_eq. Qed.

Lemma get_insert_ne (r : gmap string jsval) f g v :
  f ≠ g → get (<[f := v]> r) g = get r g.
Proof. intros. unfold get. by rewrite lookup_insert_ne. Qed.

Lemma get_own (r : gmap string jsval) f v : r !! f = Some v → get r f = v.
Proof. unfold get. by intros ->. Qed.

(** A property of the record itself wins over the default of the literal. *)
Lemma get_standardRecord_own g (r : gmap string jsval) f v :
  r !! f = Some v → get (standardRecord g r) f = v.
Proof.
  intros H. unfold get, standardRecord.
  by rewrite (lookup_union_Some_l _ _ _ _ H).
Qed.

Lemma parseLocalTime_unrecognised P s :
  recognised s = false → parseLocalTime P s = NaN.
Proof.
  unfold recognised, parseLocalTime, parseLocalTime_fallback.
  rewrite !orb_false_iff. intros [[H1 H2] H3].
  apply bool_decide_eq_false in H1, H2. apply Z.leb_gt in H3.
  destruct (String.eqb s ""); [done|].
  destruct (match_date s) as [[[[??]?]?]|]; [by destruct H1; eauto|].
  destruct (match_date (clean s)) as [[[[??]?]?]|]; [by destruct H2; eauto|].
  destruct (split_on "-" _) as [|? [|? [|? ?]]]; simpl in *; try done; lia.
Qed.

Lemma parseTimeToTimestamp_string P s :
  parseTimeToTimestamp P (JString s) =
    match parseLocalTime P (clean s) with Num t => Num t | NaN => Num 0 end.
Proof. simpl. by destruct (parseLocalTime P (clean s)). Qed.

Lemma round_double_exact x : Z.abs x < 2 ^ 53 → round_double x = x.
Proof. intros Hx. unfold round_double. cbv zeta. by rewrite (proj2 (Z.ltb_lt _ _) Hx). Qed.

Lemma parseLocalTime_value_string P s :
  parseLocalTime_value P (JString s) = parseLocalTime P s.
Proof. by destruct s. Qed.

(** Where neither pattern of [parseLocalTime] finds a date, the text before
    the first blank is split at [-] and its first three parts are taken as
    year, month and day, whatever they are. *)
Lemma parseLocalTime_parts P cs p0 p1 p2 rest a b c :
  match_date cs = None → match_date (clean cs) = None →
  split_on "-" (List.hd EmptyString (split_on " " cs)) = p0 :: p1 :: p2 :: rest →
  Number_of_string P p0 = Num a → Number_of_string P p1 = Num b →
  Number_of_string P p2 = Num c →
  parseLocalTime P cs = Date_local P (Num a) (Num (b - 1)) (Num c) (Num 0) (Num 0) (Num 0).
Proof.
  intros H1 H2 Hs Ha Hb Hc. unfold parseLocalTime.
  destruct (String.eqb cs "") eqn:He.
  { apply String.eqb_eq in He. subst cs. cbn in Hs. discriminate Hs. }
  rewrite H1, H2. unfold parseLocalTime_fallback. cbv zeta.
  rewrite Hs. cbn [map]. by rewrite Ha, Hb, Hc.
Qed.

(** What [appendData] stores for a record that names its id and carries a
    non-empty string as [start_time]. *)
Lemma appendData_timestamp P now (r : gmap string jsval) db s idv k :
  r !! "start_time" = Some (JString s) → s ≠ "" →
  r !! "id" = Some idv → to_key idv = Some k →
  ∃ db' stored,
    appendData P now [r] db = (db', Resolved 1)
    ∧ allDataCache db' !! k = Some stored
    ∧ get stored "timestamp" = JNumber (parseTimeToTimestamp P (JString s)).
Proof.
  intros Hst Hne Hid Hk.
  set (sr := standardRecord (generated_id now) r).
  assert (Hs : get sr "start_time" = JString s)
    by by apply get_standardRecord_own.
  assert (Hd : derive_timestamp P sr
               = <["timestamp" := JNumber (parseTimeToTimestamp P (JString s))]> sr).
  { unfold derive_timestamp. rewrite Hs. cbn [truthy].
    by destruct (String.eqb_spec s ""). }
  assert (Hi : get (derive_timestamp P sr) "id" = idv).
  { rewrite Hd, get_insert_ne by done. by apply get_standardRecord_own. }
  unfold appendData, append_puts, put. fold sr. rewrite Hi, Hk. simpl.
  eexists _, _. split; [reflexivity|]. simpl.
  rewrite lookup_insert_eq. split; [reflexivity|].
  by rewrite Hd, get_insert_eq.
Qed.

(** C10, against the claim as stated: on a host eight hours ahead of UTC,
    the strings [10-01-2025] and [--], which are dates in no format (they
    have no leading [YYYY-M-D]) but have three parts separated by [-], are
    not given 0: their parts are read as year, month and day
    ([new Date(10, 0, 2025)], [new Date(0, -1, 0)]); [NaN] and an invalid
    [Date] give [NaN]; a number of seconds beyond 2^53 / 1000 is not
    multiplied exactly; and [appendData] stores a record whose [start_time]
    is [10-01-2025] with that timestamp of the year 1915. *)
Lemma malformed_start_time_is_dated :
  recognised (clean "10-01-2025") = true
  ∧ match_date (clean "10-01-2025") = None
  ∧ parseTimeToTimestamp utc8 (JString "10-01-2025") = Num (-1718611200000)
  ∧ parseTimeToTimestamp utc8 (JString "--") = Num (-2211782400000)
  ∧ parseTimeToTimestamp utc8 (JNumber NaN) = NaN
  ∧ parseTimeToTimestamp utc8 (JDate NaN) = NaN
  ∧ parseTimeToTimestamp utc8 (JNumber (Num (-9007199254740991)))
    = Num (-9007199254740990976)
  ∧ ∃ db' stored,
      appendData utc8 7
        [{[ "id" := JString "p9"; "start_time" := JString "10-01-2025" ]}] emptyDB
      = (db', Resolved 1)
      ∧ allDataCache db' !! KStr "p9" = Some stored
      ∧ get stored "timestamp" = JNumber (Num (-1718611200000)).
Proof.
  do 7 (split; [vm_compute; reflexivity|]).
  destruct (appendData_timestamp utc8 7
              {[ "id" := JString "p9"; "start_time" := JString "10-01-2025" ]}
              emptyDB "10-01-2025" (JString "p9") (KStr "p9"))
    as (db' & stored & H1 & H2 & H3); try done.
  exists db', stored. split; [done|]. split; [done|]. rewrite H3. by vm_compute.
Qed.

(** C10, amended.  [parseTimeToTimestamp] raises no exception: each method
    call in it is made on a value that has the method.  A number of seconds
    (at most 10^12, and in magnitude at most 2^53 / 1000) is multiplied by
    1000, a larger number is returned unchanged, [NaN] gives [NaN]; a [Date]
    gives its time value; [undefined], [null] and the booleans give 0.  A
    string gives 0 when [parseLocalTime] makes no valid date of it: always
    when it has no leading [YYYY-M-D] and fewer than three parts separated
    by [-] before its first blank.  A string without a leading [YYYY-M-D]
    but with three such parts that [Number] reads is given the time value of
    [new Date(p0, p1 - 1, p2)], which need not be 0.  [appendData] stores a
    record whatever string its [start_time] is, with [timestamp] set to what
    [parseTimeToTimestamp] gives for it. *)
Theorem parseTimeToTimestamp_total (P : Platform) :
  (∀ v, parseTimeToTimestamp_outcome P v = Resolved (parseTimeToTimestamp P v)) ∧
  (∀ z, -9007199254740 ≤ z ≤ 1000000000000 →
     parseTimeToTimestamp P (JNumber (Num z)) = Num (z * 1000)) ∧
  (∀ z, 1000000000000 < z → parseTimeToTimestamp P (JNumber (Num z)) = Num z) ∧
  parseTimeToTimestamp P (JNumber NaN) = NaN ∧
  (∀ t, parseTimeToTimestamp P (JDate t) = t) ∧
  (∀ b, parseTimeToTimestamp P JUndefined = Num 0
        ∧ parseTimeToTimestamp P JNull = Num 0
        ∧ parseTimeToTimestamp P (JBool b) = Num 0) ∧
  (∀ s, parseLocalTime P (clean s) = NaN →
     parseTimeToTimestamp P (JString s) = Num 0) ∧
  (∀ s, recognised (clean s) = false →
     parseTimeToTimestamp P (JString s) = Num 0) ∧
  (∀ s p0 p1 p2 rest a b c,
     match_date (clean s) = None → match_date (clean (clean s)) = None →
     split_on "-" (List.hd EmptyString (split_on " " (clean s))) = p0 :: p1 :: p2 :: rest →
     Number_of_string P p0 = Num a → Number_of_string P p1 = Num b →
     Number_of_string P p2 = Num c →
     parseTimeToTimestamp P (JString s)
     = match Date_local P (Num a) (Num (b - 1)) (Num c) (Num 0) (Num 0) (Num 0) with
       | Num t => Num t
       | NaN => Num 0
       end) ∧
  (∀ now (r : gmap string jsval) db s idv k,
     r !! "start_time" = Some (JString s) → s ≠ "" →
     r !! "id" = Some idv → to_key idv = Some k →
     ∃ db' stored,
       appendData P now [r] db = (db', Resolved 1)
       ∧ allDataCache db' !! k = Some stored
       ∧ get stored "timestamp" = JNumber (parseTimeToTimestamp P (JString s))).
Proof.
  split; [|split; [|split; [|split; [|split; [|split; [|split; [|split; [|split]]]]]]]].
  - intros [| |b|[z|]|s|t]; try done.
    + cbn. rewrite Z.gtb_ltb. by destruct (1000000000000 <? z).
    + cbn. by rewrite parseLocalTime_value_string.
  - intros z Hz. cbn. destruct (Z.gtb_spec z 1000000000000); [lia|].
    rewrite round_double_exact; [done|]. lia.
  - intros z Hz. cbn. destruct (Z.gtb_spec z 1000000000000); [done|lia].
  - done.
  - done.
  - done.
  - intros s Hs. by rewrite parseTimeToTimestamp_string, Hs.
  - intros s Hs.
    by rewrite parseTimeToTimestamp_string, parseLocalTime_unrecognised.
  - intros s p0 p1 p2 rest a b c H1 H2 Hs Ha Hb Hc.
    by rewrite parseTimeToTimestamp_string,
      (parseLocalTime_parts P (clean s) p0 p1 p2 rest a b c).
  - apply appendData_timestamp.
Qed.

(** Evaluation on a host eight hours ahead of UTC: seconds are scaled,
    milliseconds are kept, text without digits gives 0, and digits in the
    wrong order are read as a date of 1915. *)
Lemma parseTimeToTimestamp_total_witness :
  parseTimeToTimestamp utc8 (JNumber (Num 1700000000)) = Num 1700000000000
  ∧ parseTimeToTimestamp utc8 (JNumber (Num 1700000000000)) = Num 1700000000000
  ∧ parseTimeToTimestamp utc8 (JString "not a date") = Num 0
  ∧ parseTimeToTimestamp utc8 (JString "10-01-2025")
    = match Date_local utc8 (Num 10) (Num (1 - 1)) (Num 2025) (Num 0) (Num 0) (Num 0) with
      | Num t => Num t
      | NaN => Num 0
      end
  ∧ ∃ db' stored,
      appendData utc8 7 [{[ "id" := JString "p9"; "start_time" := JString "soon" ]}]
        emptyDB = (db', Resolved 1)
      ∧ allDataCache db' !! KStr "p9" = Some stored
      ∧ get stored "timestamp" = JNumber (parseTimeToTimestamp utc8 (JString "soon")).
Proof.
  destruct (parseTimeToTimestamp_total utc8)
    as (_ & Hsec & Hms & _ & _ & _ & _ & Hbad & Hparts & Hstore).
  split; [apply (Hsec 1700000000); lia|].
  split; [apply (Hms 1700000000000); lia|].
  split; [apply (Hbad "not a date"); reflexivity|].
  split; [apply (Hparts "10-01-2025" "10" "01" "2025" []); reflexivity|].
  apply (Hstore 7 _ emptyDB "soon" (JString "p9") (KStr "p9"));
    first [reflexivity | done].
Defined.

End ParsingFacts.

(** ** CacheManager: results *)

Module CacheFacts.
Import Js JsDate Cache Vocabulary Batch Examples ParsingFacts.

Lemma set_allData_twice a b db : set_allData a (set_allData b db) = set_allData a db.
Proof. done. Qed.

Lemma set_allData_same db : set_allData (allDataCache db) db = db.
Proof. by destruct db. Qed.

Lemma ins_union l m : ins l m = list_to_map (rev l) ∪ m.
Proof.
  revert m. induction l as [|[k v] l IH]; intros m; simpl.
  - by rewrite (left_id_L ∅ (∪)).
  - unfold ins in *. simpl. rewrite IH, list_to_map_app. simpl.
    rewrite <- (assoc_L (∪)). f_equal.
    by rewrite insert_union_singleton_l.
Qed.

(** Issuing the same puts a second time changes nothing. *)
Lemma ins_idemp l m : ins l (ins l m) = ins l m.
Proof.
  rewrite !ins_union, (assoc_L (∪)). f_equal. apply (idemp_L (∪)).
Qed.

Lemma ins_lookup_issued l m k v : (k, v) ∈ l → is_Some (ins l m !! k).
Proof.
  revert m. induction l as [|[k' v'] l IH]; intros m Hin.
  - by apply elem_of_nil in Hin.
  - apply elem_of_cons in Hin as [Heq|Hin]; [|by apply IH].
    injection Heq as -> ->. unfold ins. simpl. fold (ins l (<[k':=v']> m)).
    rewrite ins_union. apply lookup_union_is_Some. right.
    rewrite lookup_insert_eq. by eexists.
Qed.

Section Puts.
Context (P : Platform).

Lemma batch_puts_spec rs db :
  batch_puts P rs db =
    (set_allData (ins (issued (ensure_timestamp P) rs) (allDataCache db)) db,
     if all_keyed (ensure_timestamp P) rs then Resolved () else Rejected DataError).
Proof.
  revert db. induction rs as [|r rs IH]; intros db; simpl.
  - by rewrite set_allData_same.
  - unfold put, all_keyed. simpl.
    destruct (to_key (get (ensure_timestamp P r) "id")) as [k|] eqn:Hk; simpl.
    + by rewrite IH.
    + by rewrite set_allData_same.
Qed.

Lemma append_puts_spec now rs db :
  let f := λ r, derive_timestamp P (standardRecord (generated_id now) r) in
  append_puts P now rs db =
    (set_allData (ins (issued f rs) (allDataCache db)) db,
     if all_keyed f rs then Resolved () else Rejected DataError).
Proof.
  revert db. induction rs as [|r rs IH]; intros db; simpl.
  - by rewrite set_allData_same.
  - unfold put, all_keyed. simpl.
    destruct (to_key (get (derive_timestamp P (standardRecord (generated_id now) r)) "id"))
      as [k|] eqn:Hk; simpl.
    + simpl in IH. by rewrite IH.
    + by rewrite set_allData_same.
Qed.

(** [batchUpdateRecords] in closed form. *)
Lemma batchUpdateRecords_spec now rs db :
  rs ≠ [] →
  batchUpdateRecords P now rs db =
    let db' := set_allData (ins (issued (ensure_timestamp P) rs) (allDataCache db)) db in
    if all_keyed (ensure_timestamp P) rs
    then (set_meta (Some (touch_sync now (metaData db))) db',
          Resolved (Z.of_nat (List.length rs)))
    else (db', Rejected DataError).
Proof.
  intros Hne. unfold batchUpdateRecords. destruct rs as [|r rs]; [done|].
  rewrite batch_puts_spec. by destruct (all_keyed _ _).
Qed.

(** [appendData] in closed form. *)
Lemma appendData_spec now rs db :
  rs ≠ [] →
  appendData P now rs db =
    let f := λ r, derive_timestamp P (standardRecord (generated_id now) r) in
    let db' := set_allData (ins (issued f rs) (allDataCache db)) db in
    let n := Z.of_nat (List.length rs) in
    if all_keyed f rs
    then (set_meta (Some match metaData db with
                         | Some m => mkMeta (totalCount m + n) now (lastSyncTime m)
                                       (lastChangeLogId m) (extra m)
                         | None => mkMeta (0 + n) now None JUndefined ∅
                         end) db',
          Resolved n)
    else (db', Rejected DataError).
Proof.
  intros Hne. unfold appendData. destruct rs as [|r rs]; [done|].
  rewrite append_puts_spec. by destruct (all_keyed _ _).
Qed.

End Puts.

(** *** The two rules for [timestamp] *)

Lemma derive_timestamp_spec P (r : gmap string jsval) :
  truthy (get r "start_time") = true →
  get (derive_timestamp P r) "timestamp"
  = JNumber (parseTimeToTimestamp P (get r "start_time")).
Proof. intros H. unfold derive_timestamp. rewrite H. apply get_insert_eq. Qed.

Lemma ensure_timestamp_spec P (r : gmap string jsval) :
  get (ensure_timestamp P r) "timestamp"
  = if truthy (get r "timestamp") then get r "timestamp"
    else JNumber (Date_of_value P (get r "start_time")).
Proof.
  unfold ensure_timestamp. destruct (truthy (get r "timestamp")); [done|].
  apply get_insert_eq.
Qed.

(** C4 (the code departs from the claim).  On a host eight hours ahead of
    UTC, the pushed record with [start_time] "2025-10-01T08:00:00.000Z" gets the
    UTC-based timestamp 1759305600000 from [updateRecord] and from
    [batchUpdateRecords], which go through [new Date(start_time)], but
    1759276800000 from [appendData], which uses [parseTimeToTimestamp]; and
    a record that arrives with a [timestamp] keeps it on the live paths
    whatever its [start_time] says. *)
Theorem live_update_timestamp_differs :
  stored_timestamp (updateRecord utc8 5 pushedIso emptyDB).1
    = Some (JNumber (Num 1759305600000))
  ∧ stored_timestamp (batchUpdateRecords utc8 5 [pushedIso] emptyDB).1
    = Some (JNumber (Num 1759305600000))
  ∧ stored_timestamp (appendData utc8 5 [pushedIso] emptyDB).1
    = Some (JNumber (Num 1759276800000))
  ∧ stored_timestamp (updateRecord utc8 5 pushedStale emptyDB).1
    = Some (JNumber (Num 1))
  ∧ stored_timestamp (appendData utc8 5 [pushedStale] emptyDB).1
    = Some (JNumber (Num 1759276800000)).
Proof. repeat split; vm_compute; reflexivity. Qed.

(** *** Writes and the aggregate caches *)

Lemma updateRecord_caches P now r db :
  statisticsCache (updateRecord P now r db).1 = statisticsCache db
  ∧ dataStoreCache (updateRecord P now r db).1 = dataStoreCache db.
Proof. unfold updateRecord, put. by destruct (to_key _). Qed.

Lemma batchUpdateRecords_caches P now rs db :
  statisticsCache (batchUpdateRecords P now rs db).1 = statisticsCache db
  ∧ dataStoreCache (batchUpdateRecords P now rs db).1 = dataStoreCache db.
Proof.
  destruct rs as [|r rs]; [done|].
  rewrite batchUpdateRecords_spec by done. cbv zeta. by destruct (all_keyed _ _).
Qed.

Lemma appendData_caches P now rs db :
  statisticsCache (appendData P now rs db).1 = statisticsCache db
  ∧ dataStoreCache (appendData P now rs db).1 = dataStoreCache db.
Proof.
  destruct rs as [|r rs]; [done|].
  rewrite appendData_spec by done. cbv zeta. by destruct (all_keyed _ _).
Qed.

Lemma deleteRecord_caches now id db :
  statisticsCache (deleteRecord now id db).1 = statisticsCache db
  ∧ dataStoreCache (deleteRecord now id db).1 = dataStoreCache db.
Proof. unfold deleteRecord. destruct (to_key id); [|done]. by destruct (metaData _). Qed.

(** C2, against the claim as stated: [updateRecord] is accepted, and the
    statistic and the bucket cache written before it are still served. *)
Lemma stale_aggregate_served_after_write :
  (updateRecord utc8 20 pushedIso cachedDB).2
    = Resolved (ensure_timestamp utc8 pushedIso)
  ∧ getStatistics "bucket" (updateRecord utc8 20 pushedIso cachedDB).1
    = Some "stats-v1"
  ∧ loadDataStoreBuckets 30 "day" None (updateRecord utc8 20 pushedIso cachedDB).1
    = Some (mkBucket "day" "buckets-v1" 1 10).
Proof. repeat split; vm_compute; reflexivity. Qed.

(** C2, amended.  [updateRecord], [batchUpdateRecords], [appendData] and
    [deleteRecord] leave both aggregate caches as they are, so [getStatistics]
    answers after the write what it answered before.  An entry is gone only
    after [clearStatisticsCache] or [clearDataStoreBucketsCache]; and
    [loadDataStoreBuckets] refuses an entry older than the [lastSyncTime] the
    caller passes. *)
Theorem writes_keep_aggregate_caches (P : Platform) (now : Z) (db : DB) :
  (∀ r type, getStatistics type (updateRecord P now r db).1 = getStatistics type db
             ∧ dataStoreCache (updateRecord P now r db).1 = dataStoreCache db) ∧
  (∀ rs type, getStatistics type (batchUpdateRecords P now rs db).1 = getStatistics type db
              ∧ dataStoreCache (batchUpdateRecords P now rs db).1 = dataStoreCache db) ∧
  (∀ rs type, getStatistics type (appendData P now rs db).1 = getStatistics type db
              ∧ dataStoreCache (appendData P now rs db).1 = dataStoreCache db) ∧
  (∀ id type, getStatistics type (deleteRecord now id db).1 = getStatistics type db
              ∧ dataStoreCache (deleteRecord now id db).1 = dataStoreCache db) ∧
  (∀ type, getStatistics type (clearStatisticsCache db) = None) ∧
  (∀ t groupType since,
     loadDataStoreBuckets t groupType since (clearDataStoreBucketsCache db) = None) ∧
  (∀ t groupType since e,
     dataStoreCache db !! ("datastore_" +:+ groupType) = Some e →
     since ≠ 0 → bucket_timestamp e < since →
     loadDataStoreBuckets t groupType (Some since) db = None).
Proof.
  unfold getStatistics. repeat split.
  - by rewrite (proj1 (updateRecord_caches P now r db)).
  - apply updateRecord_caches.
  - by rewrite (proj1 (batchUpdateRecords_caches P now rs db)).
  - apply batchUpdateRecords_caches.
  - by rewrite (proj1 (appendData_caches P now rs db)).
  - apply appendData_caches.
  - by rewrite (proj1 (deleteRecord_caches now id db)).
  - apply deleteRecord_caches.
  - intros t g since e He Hne Hlt. unfold loadDataStoreBuckets. rewrite He.
    destruct (Z.eqb_spec since 0); [done|].
    destruct (Z.ltb_spec (bucket_timestamp e) since); [done|lia].
Qed.

(** On the cached database: a write keeps the statistic, clearing removes
    it, and a bucket entry written at 10 is refused for [lastSyncTime] 20. *)
Lemma writes_keep_aggregate_caches_witness :
  getStatistics "bucket" (deleteRecord 20 (JString "p1") cachedDB).1 = Some "stats-v1"
  ∧ getStatistics "bucket" (clearStatisticsCache cachedDB) = None
  ∧ loadDataStoreBuckets 30 "day" (Some 20) cachedDB = None.
Proof.
  destruct (writes_keep_aggregate_caches utc8 20 cachedDB)
    as (_ & _ & _ & Hdel & Hclear & _ & Hstale).
  split; [by rewrite (proj1 (Hdel (JString "p1") "bucket"))|].
  split; [apply Hclear|].
  apply (Hstale 30 "day" 20 (mkBucket "day" "buckets-v1" 1 10)); [reflexivity|lia|simpl; lia].
Defined.

(** *** Applying an upsert twice *)

Lemma updateRecord_twice P now1 now2 r db :
  same_contents (updateRecord P now1 r db).1
    (updateRecord P now2 r (updateRecord P now1 r db).1).1.
Proof.
  unfold same_contents, updateRecord, put.
  destruct (to_key (get (ensure_timestamp P r) "id")) as [k|] eqn:Hk; simpl;
    rewrite ?Hk; simpl; [|done].
  split; [apply insert_insert_eq|]. by destruct (metaData db).
Qed.

Lemma batchUpdateRecords_twice P now1 now2 rs db :
  same_contents (batchUpdateRecords P now1 rs db).1
    (batchUpdateRecords P now2 rs (batchUpdateRecords P now1 rs db).1).1.
Proof.
  destruct rs as [|r rs]; [done|].
  rewrite !batchUpdateRecords_spec by done. cbv zeta.
  destruct (all_keyed _ _); unfold same_contents; simpl;
    (split; [apply ins_idemp|]); [by destruct (metaData db)|done].
Qed.

Lemma standardRecord_identity g1 g2 r :
  has_identity r → standardRecord g1 r = standardRecord g2 r.
Proof.
  intros [[v Hv]|Ht]; unfold standardRecord.
  - apply map_eq. intros i. destruct (r !! i) as [x|] eqn:Hi.
    + by rewrite !(lookup_union_Some_l _ _ _ _ Hi).
    + rewrite !lookup_union_r by done. rewrite !list_to_map_cons.
      assert ("id" ≠ i) by congruence.
      by rewrite !(lookup_insert_ne _ "id" i) by done.
  - set (x := js_or (js_or _ _) _) in *.
    assert (E : ∀ g, js_or x (JString g) = x)
      by (intros g; unfold js_or; by rewrite Ht).
    by rewrite !E.
Qed.

Lemma issued_ext (f g : gmap string jsval → gmap string jsval) rs :
  Forall (λ r, f r = g r) rs →
  issued f rs = issued g rs ∧ all_keyed f rs = all_keyed g rs.
Proof.
  induction 1 as [|r rs Hr _ [IH1 IH2]]; [done|].
  unfold all_keyed in *. simpl. by rewrite Hr, IH1, IH2.
Qed.

Lemma appendData_twice P now1 now2 rs db :
  Forall has_identity rs →
  let db1 := (appendData P now1 rs db).1 in
  let db2 := (appendData P now2 rs db1).1 in
  allDataCache db2 = allDataCache db1
  ∧ statisticsCache db2 = statisticsCache db1
  ∧ dataStoreCache db2 = dataStoreCache db1
  ∧ ∀ n, (appendData P now1 rs db).2 = Resolved n →
         stored_count db2 = stored_count db1 + n.
Proof.
  intros Hid. destruct rs as [|r rs].
  { simpl. repeat split. intros n [= <-]. lia. }
  assert (Hext : Forall (λ r, derive_timestamp P (standardRecord (generated_id now2) r)
                           = derive_timestamp P (standardRecord (generated_id now1) r))
                   (r :: rs)).
  { eapply Forall_impl; [exact Hid|]. intros x Hx. simpl.
    by rewrite (standardRecord_identity _ (generated_id now1) x Hx). }
  apply issued_ext in Hext as [Hissued Hkeyed].
  cbv zeta. rewrite (appendData_spec P now1 (r :: rs) db) by done. cbv zeta.
  set (f1 := λ r, derive_timestamp P (standardRecord (generated_id now1) r)) in *.
  destruct (all_keyed f1 (r :: rs)) eqn:Hk1; cbn [fst snd];
    rewrite (appendData_spec P now2 (r :: rs)) by done; cbv zeta;
    rewrite Hissued, Hkeyed; cbn [allDataCache set_allData set_meta fst snd
      statisticsCache dataStoreCache metaData];
    (split; [apply ins_idemp|]); repeat split; try done.
  intros n [= <-]. unfold stored_count. destruct (metaData db); simpl; lia.
Qed.

(** C3, against the claim as stated: one [appendData] of a record leaves the
    total count at 1, the same [appendData] once more raises it to 2. *)
Lemma appendData_twice_counts_twice :
  stored_count (appendData utc8 5 [pushedIso] emptyDB).1 = 1
  ∧ stored_count
      (appendData utc8 6 [pushedIso] (appendData utc8 5 [pushedIso] emptyDB).1).1 = 2.
Proof. split; vm_compute; reflexivity. Qed.

(** C3, amended.  Applying the same record a second time through
    [updateRecord] or [batchUpdateRecords] leaves the records, the total
    count and the cached aggregates as the first application left them.
    For [appendData] on records that carry an identity the records and the
    cached aggregates are likewise unchanged, while every successful
    application adds the number of records to the total count. *)
Theorem upsert_twice (P : Platform) (now1 now2 : Z) (db : DB) :
  (∀ r, same_contents (updateRecord P now1 r db).1
          (updateRecord P now2 r (updateRecord P now1 r db).1).1) ∧
  (∀ rs, same_contents (batchUpdateRecords P now1 rs db).1
           (batchUpdateRecords P now2 rs (batchUpdateRecords P now1 rs db).1).1) ∧
  (∀ rs, Forall has_identity rs →
     let db1 := (appendData P now1 rs db).1 in
     let db2 := (appendData P now2 rs db1).1 in
     allDataCache db2 = allDataCache db1
     ∧ statisticsCache db2 = statisticsCache db1
     ∧ dataStoreCache db2 = dataStoreCache db1
     ∧ ∀ n, (appendData P now1 rs db).2 = Resolved n →
            stored_count db2 = stored_count db1 + n).
Proof.
  split; [intros; apply updateRecord_twice|].
  split; [intros; apply batchUpdateRecords_twice|].
  intros rs Hid. by apply appendData_twice.
Qed.

(** The pushed record applied twice through each path. *)
Lemma upsert_twice_witness :
  same_contents (updateRecord utc8 5 pushedIso cachedDB).1
    (updateRecord utc8 6 pushedIso (updateRecord utc8 5 pushedIso cachedDB).1).1
  ∧ allDataCache (appendData utc8 6 [pushedIso] (appendData utc8 5 [pushedIso] cachedDB).1).1
    = allDataCache (appendData utc8 5 [pushedIso] cachedDB).1.
Proof.
  destruct (upsert_twice utc8 5 6 cachedDB) as (Hupd & _ & Happ).
  split; [apply Hupd|].
  apply (Happ [pushedIso]). constructor; [|constructor].
  left. by eexists.
Defined.

(** *** What [deleteRecord] touches *)

Lemma deleteRecord_frame now id db :
  let db' := (deleteRecord now id db).1 in
  totalCount <$> metaData db' = totalCount <$> metaData db
  ∧ lastChangeLogId <$> metaData db' = lastChangeLogId <$> metaData db
  ∧ extra <$> metaData db' = extra <$> metaData db
  ∧ (∀ k, to_key id ≠ Some k → allDataCache db' !! k = allDataCache db !! k)
  ∧ statisticsCache db' = statisticsCache db
  ∧ dataStoreCache db' = dataStoreCache db.
Proof.
  unfold deleteRecord. destruct (to_key id) as [k0|]; [|done].
  destruct db as [d [m|] sc dc]; simpl; repeat split; try done;
    intros k Hk; apply lookup_delete_ne; congruence.
Qed.

End CacheFacts.

(** ** Catch-up reconciliation: results *)

Module CatchupFacts.
Import Js JsDate Cache Sync Batch CatchupVocabulary Examples ParsingFacts CacheFacts.

Lemma getLastChangeLogId_saved now v db :
  getLastChangeLogId (saveLastChangeLogId now v db) = js_or v (JNumber (Num 0)).
Proof. unfold getLastChangeLogId, saveLastChangeLogId. by destruct (metaData db). Qed.

Lemma getLastChangeLogId_saved_num now z db :
  getLastChangeLogId (saveLastChangeLogId now (JNumber (Num z)) db) = JNumber (Num z).
Proof.
  rewrite getLastChangeLogId_saved. unfold js_or. simpl.
  by destruct (Z.eqb_spec z 0) as [->|].
Qed.

(** A batch that is rejected has not touched the metadata. *)
Lemma batchUpdateRecords_rejected P now rs db db' e :
  batchUpdateRecords P now rs db = (db', Rejected e) → metaData db' = metaData db.
Proof.
  destruct rs as [|r rs]; [done|].
  rewrite batchUpdateRecords_spec by done. cbv zeta.
  destruct (all_keyed _ _); [done|]. by intros [= <- _].
Qed.

(** A batch that is accepted has stored every record and kept the cursor. *)
Lemma batchUpdateRecords_resolved P now rs db db' n :
  batchUpdateRecords P now rs db = (db', Resolved n) →
  n = Z.of_nat (List.length rs)
  ∧ ∀ r, r ∈ rs → ∃ k, to_key (get (ensure_timestamp P r) "id") = Some k
                       ∧ is_Some (allDataCache db' !! k).
Proof.
  destruct rs as [|r0 rs]; [intros [= <- <-]; split; [done|]; by intros ? ?%elem_of_nil|].
  rewrite batchUpdateRecords_spec by done. cbv zeta.
  destruct (all_keyed _ _) eqn:Hall; [|done]. intros [= <- <-].
  split; [done|]. intros r Hr. simpl.
  assert (Hin : ∃ k, to_key (get (ensure_timestamp P r) "id") = Some k
                     ∧ (k, ensure_timestamp P r) ∈ issued (ensure_timestamp P) (r0 :: rs)).
  { clear -Hall Hr. induction (r0 :: rs) as [|x l IH]; [by apply elem_of_nil in Hr|].
    unfold all_keyed in Hall. simpl in Hall. apply andb_true_iff in Hall as [Hx Hl].
    apply bool_decide_eq_true in Hx as [kx Hkx]. simpl. rewrite Hkx.
    apply elem_of_cons in Hr as [->|Hr].
    - exists kx. split; [done|]. apply elem_of_cons. by left.
    - destruct (IH Hl Hr) as (k & Hk & Hin). exists k. split; [done|].
      apply elem_of_cons. by right. }
  destruct Hin as (k & Hk & Hin). exists k. split; [done|].
  by eapply ins_lookup_issued.
Qed.

Lemma id_of_converted P r :
  get (ensure_timestamp P (convertRecord r)) "id" = get r "plan_id".
Proof.
  unfold ensure_timestamp, convertRecord.
  destruct (truthy _); [|rewrite get_insert_ne by done]; apply get_insert_eq.
Qed.

Section Attempts.
Context (P : Platform).

(** What one call of [performCatchupSyncByChangeLogId] does to the cursor. *)
Lemma perform_cursor now c resp db :
  let out := performCatchupSyncByChangeLogId P now c resp db in
  if hasNewData out.1.2
  then failed_or_empty resp = false
       ∧ ∀ z, returned_id resp = Some z → getLastChangeLogId out.1.1 = JNumber (Num z)
  else getLastChangeLogId out.1.1 = getLastChangeLogId db.
Proof.
  unfold performCatchupSyncByChangeLogId.
  destruct resp as [| | | |[] [d|]]; try done.
  destruct d as [[[|r rs]|] m f]; try done. cbn [records maxChangeLogId].
  destruct (batchUpdateRecords P now _ db) as [db1 [n|e]] eqn:Hb; cbn.
  - split; [done|]. destruct m as [| | |[z|]| |]; try done.
    intros ? [= <-]. apply getLastChangeLogId_saved_num.
  - unfold getLastChangeLogId. by rewrite (batchUpdateRecords_rejected _ _ _ _ _ _ Hb).
Qed.

Lemma catchup_cursor db a :
  if succeeded P db a
  then failed_or_empty a.2 = false
       ∧ ∀ z, returned_id a.2 = Some z → cursor (catchup P db a) = z
  else getLastChangeLogId (catchup P db a) = getLastChangeLogId db.
Proof.
  unfold succeeded, catchup, checkAndPerformCatchup.
  destruct (decide _); [done|].
  pose proof (perform_cursor a.1 (getLastChangeLogId db) a.2 db) as H.
  cbv zeta in H. destruct (hasNewData _); [|done].
  destruct H as [Hf Hz]. split; [done|]. intros z Hr. unfold cursor. by rewrite (Hz z Hr).
Qed.

Lemma answers_returned c resp :
  answers_from c resp → failed_or_empty resp = false →
  ∃ z, returned_id resp = Some z ∧ c ≤ z.
Proof.
  unfold answers_from, failed_or_empty, returned_id.
  destruct resp as [| | | |[] [d|]]; try done.
  destruct (records d) as [[|r rs]|]; try done.
  intros (z & -> & Hz) _. eauto.
Qed.

Lemma catchup_step_contract db a :
  answers_from (cursor db) a.2 →
  cursor db ≤ cursor (catchup P db a)
  ∧ max_of (cursor db) (if succeeded P db a
                         then match returned_id a.2 with Some z => [z] | None => [] end
                         else [])
    = cursor (catchup P db a).
Proof.
  intros Hc. pose proof (catchup_cursor db a) as H.
  destruct (succeeded P db a).
  - destruct H as [Hf Hz]. destruct (answers_returned _ _ Hc Hf) as (z & Hr & Hle).
    rewrite Hr, (Hz z Hr). unfold max_of. simpl. lia.
  - unfold cursor. rewrite H. unfold max_of. simpl. lia.
Qed.

Lemma max_of_app c l1 l2 : max_of c (l1 ++ l2) = max_of (max_of c l1) l2.
Proof. unfold max_of. by rewrite fold_left_app. Qed.

Lemma run_contract db l :
  contract P db l →
  cursor db ≤ cursor (run_catchups P db l)
  ∧ cursor (run_catchups P db l) = max_of (cursor db) (returned_ids P db l).
Proof.
  revert db. induction l as [|a l IH]; intros db; simpl.
  - intros _. unfold max_of. simpl. lia.
  - intros [Ha Hl]. destruct (catchup_step_contract db a Ha) as [Hle Hmax].
    destruct (IH _ Hl) as [IHle IHmax]. unfold run_catchups in *. simpl.
    split; [lia|]. by rewrite max_of_app, Hmax.
Qed.

End Attempts.

(** C1, against the claim as stated: with the cursor at 100 a successful
    catch-up whose response carries [maxChangeLogId] 50 stores 50; and after
    the successful responses 105 and 103 the cursor is 103, not 105. *)
Lemma cursor_regresses :
  cursor (dbWithCursor 100) = 100
  ∧ succeeded utc8 (dbWithCursor 100) (5, answer onePlan 50) = true
  ∧ cursor (catchup utc8 (dbWithCursor 100) (5, answer onePlan 50)) = 50
  ∧ cursor (run_catchups utc8 (dbWithCursor 100)
              [(5, answer onePlan 105); (6, FetchRejected); (7, answer onePlan 103)])
    = 103.
Proof. repeat split; vm_compute; reflexivity. Qed.

(** C1, amended.  A successful catch-up stores the [maxChangeLogId] of its
    response as the cursor, without comparing it with the cursor it had; an
    attempt that does not succeed leaves the cursor as it was.  So, provided
    every response with records carries a [maxChangeLogId] not below the
    cursor the request was made with, the cursor never decreases along a run
    of catch-ups and ends as the maximum of its initial value and the
    [maxChangeLogId]s returned to the successful attempts. *)
Theorem cursor_follows_server (P : Platform) :
  (∀ db a,
     if succeeded P db a
     then ∀ z, returned_id a.2 = Some z → cursor (catchup P db a) = z
     else getLastChangeLogId (catchup P db a) = getLastChangeLogId db) ∧
  (∀ db a, answers_from (cursor db) a.2 → cursor db ≤ cursor (catchup P db a)) ∧
  (∀ db l, contract P db l →
     cursor db ≤ cursor (run_catchups P db l)
     ∧ cursor (run_catchups P db l) = max_of (cursor db) (returned_ids P db l)).
Proof.
  repeat split.
  - intros db a. pose proof (catchup_cursor P db a) as H.
    destruct (succeeded P db a); [apply H|done].
  - intros db a Ha. by apply catchup_step_contract.
  - by apply run_contract.
  - by apply run_contract.
Qed.

(** Cursor 100; the server answers 105, then the network fails, then the
    server answers 107: the cursor ends at 107, the maximum returned. *)
Lemma cursor_follows_server_witness :
  cursor (run_catchups utc8 (dbWithCursor 100)
            [(5, answer onePlan 105); (6, FetchRejected); (7, answer fivePlans 107)])
  = max_of 100 [105; 107].
Proof.
  destruct (cursor_follows_server utc8) as (_ & _ & Hrun).
  refine (proj2 (Hrun (dbWithCursor 100)
            [(5, answer onePlan 105); (6, FetchRejected); (7, answer fivePlans 107)] _)).
  simpl. repeat split; eexists; (split; [reflexivity|]); vm_compute; discriminate.
Defined.

End CatchupFacts.

(** ** Sync controller: results *)

Module SyncFacts.
Import Js JsDate Cache Sync Batch CatchupVocabulary Examples.
Import ParsingFacts CacheFacts CatchupFacts.

Lemma issued_members (f : gmap string jsval → gmap string jsval) rs k v :
  (k, v) ∈ issued f rs → ∃ x, x ∈ rs ∧ to_key (get (f x) "id") = Some k.
Proof.
  induction rs as [|x rs IH]; [by intros ?%elem_of_nil|]. cbn.
  destruct (to_key (get (f x) "id")) as [kx|] eqn:Hx; [|by intros ?%elem_of_nil].
  intros [[= -> ->]|Hin]%elem_of_cons.
  - exists x. split; [apply list_elem_of_here|done].
  - destruct (IH Hin) as (y & Hy & Hk). exists y. split; [by apply list_elem_of_further|done].
Qed.

Lemma issued_prefix (f : gmap string jsval → gmap string jsval) rs1 r rs2 :
  Forall (λ x, is_Some (to_key (get (f x) "id"))) rs1 →
  to_key (get (f r) "id") = None →
  issued f (rs1 ++ r :: rs2) = issued f rs1
  ∧ all_keyed f (rs1 ++ r :: rs2) = false
  ∧ ∀ x, x ∈ rs1 → ∃ k, to_key (get (f x) "id") = Some k ∧ (k, f x) ∈ issued f rs1.
Proof.
  intros Hall Hr. induction Hall as [|y rs1 [ky Hy] _ (IH1 & IH2 & IH3)].
  - cbn. rewrite Hr. split; [done|]. split; [done|]. by intros x ?%elem_of_nil.
  - cbn. rewrite Hy, IH1. split; [done|]. split.
    + unfold all_keyed in *. cbn [app forallb]. by rewrite IH2, andb_false_r.
    + intros x [->|Hx]%elem_of_cons.
      * exists ky. split; [done|]. apply list_elem_of_here.
      * destruct (IH3 x Hx) as (k & Hk & Hin). exists k. split; [done|].
        by apply list_elem_of_further.
Qed.

Lemma ins_lookup_other l (m : gmap idbkey (gmap string jsval)) k :
  (∀ kv, kv ∈ l → kv.1 ≠ k) → ins l m !! k = m !! k.
Proof.
  unfold ins. revert m. induction l as [|kv l IH]; intros m Hl; [done|]. cbn.
  rewrite IH.
  - apply lookup_insert_ne, Hl, list_elem_of_here.
  - intros kv' Hin. by apply Hl, list_elem_of_further.
Qed.

Lemma issued_converted P rs :
  issued (ensure_timestamp P) (map convertRecord rs)
  = issued (λ x, ensure_timestamp P (convertRecord x)) rs.
Proof.
  induction rs as [|x rs IH]; [done|]. cbn.
  destruct (to_key _); [by rewrite IH|done].
Qed.

Lemma all_keyed_converted P rs :
  all_keyed (ensure_timestamp P) (map convertRecord rs)
  = all_keyed (λ x, ensure_timestamp P (convertRecord x)) rs.
Proof. unfold all_keyed. induction rs as [|x rs IH]; [done|]. cbn. by rewrite IH. Qed.

(** A response whose records are usable up to [r], which has no usable
    [plan_id]: the puts of the records before [r] are issued and stay, the
    metadata is not reached. *)
Lemma perform_partial P now c rs1 r rs2 m f db :
  Forall (λ x, is_Some (to_key (get x "plan_id"))) rs1 →
  to_key (get r "plan_id") = None →
  performCatchupSyncByChangeLogId P now c
    (Body true (Some (mkData (Some (rs1 ++ r :: rs2)) m f))) db
  = (set_allData
       (ins (issued (λ x, ensure_timestamp P (convertRecord x)) rs1) (allDataCache db)) db,
     noNewData, [mkRequest c 30 10000]).
Proof.
  intros Hall Hr. unfold performCatchupSyncByChangeLogId. cbn [records].
  destruct (issued_prefix (λ x, ensure_timestamp P (convertRecord x)) rs1 r rs2)
    as (Hi & Hk & _).
  { eapply Forall_impl; [exact Hall|]. intros x Hx. by rewrite id_of_converted. }
  { by rewrite id_of_converted. }
  destruct (rs1 ++ r :: rs2) as [|r0 l] eqn:Hl; [by destruct rs1|].
  rewrite batchUpdateRecords_spec by done. cbv zeta.
  by rewrite all_keyed_converted, Hk, issued_converted, Hi.
Qed.

(** C5, against the claim as stated: with the cursor at 100, a response of
    two records of which the second has no [plan_id] makes
    [batchUpdateRecords] throw at the second record.  The call resolves to
    [{hasNewData: false, count: 0}] and the cursor stays at 100, but the
    first record, which was not in the store, now is: the failure has been
    applied in part. *)
Lemma catchup_partially_applied :
  let resp := answer [plan "p1" "2025-10-01 08:00:00";
                      {[ "start_time" := JString "2025-10-01 09:00:00" ]}] 105 in
  let out := checkAndPerformCatchup utc8 5 resp (dbWithCursor 100) in
  out.1.2 = noNewData
  ∧ cursor out.1.1 = 100
  ∧ metaData out.1.1 = metaData (dbWithCursor 100)
  ∧ allDataCache (dbWithCursor 100) !! KStr "p1" = None
  ∧ is_Some (allDataCache out.1.1 !! KStr "p1").
Proof.
  cbv zeta. split; [by vm_compute|]. split; [by vm_compute|].
  split; [by vm_compute|]. split; [by vm_compute|].
  vm_compute. by eexists.
Qed.

(** C5, amended.  With the cursor at its initial value 0,
    [checkAndPerformCatchup] sends no request and changes nothing.  When the
    incremental request fails (network error, non-OK status, body that is
    not JSON or lacks [success], [data] or [records]) or brings an empty
    list of records, the database -- records, metadata, cursor -- is left as
    it was.  Every call that does not succeed resolves to
    [{hasNewData: false, count: 0}] and leaves the metadata, hence the
    cursor, and the aggregate caches as they were.  But the records are not
    applied atomically: when a record of the response has no usable
    [plan_id], the records before it are stored and stay stored, and only
    the keys of those records change. *)
Theorem catchup_failure_is_silent (P : Platform) (now : Z) (resp : response) (db : DB) :
  (getLastChangeLogId db = JNumber (Num 0) →
     checkAndPerformCatchup P now resp db = (db, noNewData, [])) ∧
  (failed_or_empty resp = true →
     (∀ c, performCatchupSyncByChangeLogId P now c resp db
           = (db, noNewData, [mkRequest c 30 10000]))
     ∧ (checkAndPerformCatchup P now resp db).1 = (db, noNewData)) ∧
  (∀ c, let out := performCatchupSyncByChangeLogId P now c resp db in
     hasNewData out.1.2 = false →
     out.1.2 = noNewData
     ∧ metaData out.1.1 = metaData db
     ∧ getLastChangeLogId out.1.1 = getLastChangeLogId db
     ∧ statisticsCache out.1.1 = statisticsCache db
     ∧ dataStoreCache out.1.1 = dataStoreCache db) ∧
  (∀ c rs1 r rs2 m f,
     resp = Body true (Some (mkData (Some (rs1 ++ r :: rs2)) m f)) →
     Forall (λ x, is_Some (to_key (get x "plan_id"))) rs1 →
     to_key (get r "plan_id") = None →
     let out := performCatchupSyncByChangeLogId P now c resp db in
     out.1.2 = noNewData
     ∧ metaData out.1.1 = metaData db
     ∧ (∀ x, x ∈ rs1 →
          ∃ k, to_key (get x "plan_id") = Some k ∧ is_Some (allDataCache out.1.1 !! k))
     ∧ (∀ k, (∀ x, x ∈ rs1 → to_key (get x "plan_id") ≠ Some k) →
          allDataCache out.1.1 !! k = allDataCache db !! k)).
Proof.
  split; [|split; [|split]].
  - intros H. unfold checkAndPerformCatchup. by rewrite decide_True.
  - intros Hf.
    assert (Hp : ∀ c, performCatchupSyncByChangeLogId P now c resp db
                      = (db, noNewData, [mkRequest c 30 10000])).
    { intros c. unfold performCatchupSyncByChangeLogId.
      destruct resp as [| | | |[] [d|]]; try done.
      simpl in Hf. by destruct (records d) as [[|r rs]|]. }
    split; [done|]. unfold checkAndPerformCatchup.
    destruct (decide _); [done|]. by rewrite Hp.
  - intros c. cbv zeta. unfold performCatchupSyncByChangeLogId.
    destruct resp as [| | | |[] [d|]]; try done.
    destruct (records d) as [[|r rs]|]; try done.
    pose proof (batchUpdateRecords_caches P now (map convertRecord (r :: rs)) db)
      as [Hst Hds].
    destruct (batchUpdateRecords P now _ db) as [db1 [n|e]] eqn:Hb;
      cbn [fst snd hasNewData noNewData]; [done|].
    intros _. pose proof (batchUpdateRecords_rejected _ _ _ _ _ _ Hb) as Hm.
    unfold getLastChangeLogId. by rewrite Hm.
  - intros c rs1 r rs2 m f -> Hall Hr. cbv zeta.
    rewrite perform_partial by done. cbn [fst snd].
    split; [done|]. split; [done|]. cbn [allDataCache set_allData].
    destruct (issued_prefix (λ x, ensure_timestamp P (convertRecord x)) rs1 r rs2)
      as (_ & _ & Hin).
    { eapply Forall_impl; [exact Hall|]. intros x Hx. by rewrite id_of_converted. }
    { by rewrite id_of_converted. }
    split.
    + intros x Hx. destruct (Hin x Hx) as (k & Hk & Hkx).
      rewrite id_of_converted in Hk. exists k. split; [done|].
      by eapply ins_lookup_issued.
    + intros k Hk. apply ins_lookup_other. intros [k' v] Hkv Heq. cbn in Heq. subst k'.
      apply issued_members in Hkv as (x & Hx & Hkx).
      rewrite id_of_converted in Hkx. by apply (Hk x).
Qed.

(** A first load (no metadata yet), a network failure and an empty answer at
    cursor 100, and an answer whose second record has no [plan_id]. *)
Lemma catchup_failure_is_silent_witness :
  checkAndPerformCatchup utc8 5 (answer fivePlans 105) emptyDB = (emptyDB, noNewData, [])
  ∧ (checkAndPerformCatchup utc8 5 FetchRejected (dbWithCursor 100)).1
    = (dbWithCursor 100, noNewData)
  ∧ (checkAndPerformCatchup utc8 5 (answer [] 105) (dbWithCursor 100)).1
    = (dbWithCursor 100, noNewData)
  ∧ let out := performCatchupSyncByChangeLogId utc8 5 (JNumber (Num 100))
                 (answer (onePlan ++ [{[ "start_time" := JString "2025-10-01 09:00:00" ]}])
                    105) (dbWithCursor 100) in
    out.1.2 = noNewData
    ∧ metaData out.1.1 = metaData (dbWithCursor 100)
    ∧ (∀ x, x ∈ onePlan →
         ∃ k, to_key (get x "plan_id") = Some k ∧ is_Some (allDataCache out.1.1 !! k))
    ∧ (∀ k, (∀ x, x ∈ onePlan → to_key (get x "plan_id") ≠ Some k) →
         allDataCache out.1.1 !! k = allDataCache (dbWithCursor 100) !! k).
Proof.
  split; [apply catchup_failure_is_silent; reflexivity|].
  split; [apply catchup_failure_is_silent; reflexivity|].
  split; [apply catchup_failure_is_silent; reflexivity|].
  destruct (catchup_failure_is_silent utc8 5
              (answer (onePlan ++ [{[ "start_time" := JString "2025-10-01 09:00:00" ]}])
                 105) (dbWithCursor 100)) as (_ & _ & _ & H).
  apply (H (JNumber (Num 100)) onePlan
           {[ "start_time" := JString "2025-10-01 09:00:00" ]} []
           (JNumber (Num 105)) (JNumber (Num 0))).
  - reflexivity.
  - repeat constructor. by eexists.
  - reflexivity.
Defined.

(** C6. When a catch-up succeeds on a response with a non-empty list of
    records and the watermark [m], the persisted cursor is exactly [m], every
    returned record's [plan_id] is a key present in the store, and the
    reported count is the number of records. *)
Theorem catchup_applies_and_advances (P : Platform) (now : Z) (c : jsval)
    (rs : list (gmap string jsval)) (m : Z) (filtered : jsval) (db : DB) :
  rs ≠ [] →
  let out := performCatchupSyncByChangeLogId P now c
               (Body true (Some (mkData (Some rs) (JNumber (Num m)) filtered))) db in
  hasNewData out.1.2 = true →
  getLastChangeLogId out.1.1 = JNumber (Num m)
  ∧ cursor out.1.1 = m
  ∧ count out.1.2 = Z.of_nat (List.length rs)
  ∧ ∀ r, r ∈ rs → ∃ k, to_key (get r "plan_id") = Some k
                       ∧ is_Some (allDataCache out.1.1 !! k).
Proof.
  intros Hne. unfold performCatchupSyncByChangeLogId. cbn [records maxChangeLogId].
  destruct rs as [|r0 rs]; [done|]. clear Hne.
  destruct (batchUpdateRecords P now _ db) as [db1 [n|e]] eqn:Hb;
    cbn [fst snd hasNewData count noNewData]; [|done].
  intros _. unfold cursor. rewrite getLastChangeLogId_saved_num.
  split; [done|]. split; [done|]. split; [done|]. intros r Hr.
  apply batchUpdateRecords_resolved in Hb as [_ Hall].
  destruct (Hall (convertRecord r)) as (k & Hk & Hin).
  { by apply (list_elem_of_fmap_2 convertRecord). }
  rewrite id_of_converted in Hk. exists k. split; [done|].
  unfold saveLastChangeLogId. by destruct (metaData db1).
Qed.

(** Every record with a usable [plan_id]: the catch-up succeeds. *)
Lemma catchup_succeeds_when_keyed P now c rs m filtered db :
  rs ≠ [] → Forall (λ r, is_Some (to_key (get r "plan_id"))) rs →
  hasNewData (performCatchupSyncByChangeLogId P now c
                (Body true (Some (mkData (Some rs) (JNumber (Num m)) filtered))) db).1.2
  = true.
Proof.
  intros Hne Hall. unfold performCatchupSyncByChangeLogId. cbn [records maxChangeLogId].
  destruct rs as [|r0 rs]; [done|].
  rewrite batchUpdateRecords_spec by done. cbv zeta.
  assert (Hk : all_keyed (ensure_timestamp P) (map convertRecord (r0 :: rs)) = true).
  { clear Hne. unfold all_keyed. induction Hall as [|x l Hx _ IH]; [done|].
    simpl. rewrite id_of_converted, bool_decide_eq_true_2 by done. exact IH. }
  by rewrite Hk.
Qed.

(** Scenario: called with cursor 100, the server returns five records and
    [maxChangeLogId] 105. *)
Lemma catchup_applies_and_advances_witness :
  let out := performCatchupSyncByChangeLogId utc8 5 (JNumber (Num 100))
               (answer fivePlans 105) (dbWithCursor 100) in
  cursor out.1.1 = 105
  ∧ ∀ r, r ∈ fivePlans → ∃ k, to_key (get r "plan_id") = Some k
                              ∧ is_Some (allDataCache out.1.1 !! k).
Proof.
  destruct (catchup_applies_and_advances utc8 5 (JNumber (Num 100)) fivePlans 105
              (JNumber (Num 0)) (dbWithCursor 100)) as (_ & Hc & _ & Hall).
  - discriminate.
  - vm_compute. reflexivity.
  - split; [exact Hc|exact Hall].
Defined.

(** C9. [handleDataChange] on a change object never fails.  A [delete] of
    an identity that is not stored leaves the records and the total count
    as they were.  In general [deleteRecord] changes nothing but the record
    under the given id and the metadata fields [lastUpdated] and
    [lastSyncTime]: the total count, the cursor, the other metadata, the
    records under other identities and the aggregate caches stay, whether or
    not the identity was stored. *)
Theorem delete_leaves_count (P : Platform) (now : Z) (db : DB) :
  (∀ cd, (handleDataChange P now (Some cd) db).1.2 = Resolved ()) ∧
  (∀ op r k,
     toLowerCase op = "delete" → to_key (get r "id") = Some k →
     allDataCache db !! k = None →
     let db' := (handleDataChange P now (Some (mkChange (JString op) (Some r))) db).1.1 in
     allDataCache db' = allDataCache db
     ∧ totalCount <$> metaData db' = totalCount <$> metaData db) ∧
  (∀ id,
     let db' := (deleteRecord now id db).1 in
     totalCount <$> metaData db' = totalCount <$> metaData db
     ∧ lastChangeLogId <$> metaData db' = lastChangeLogId <$> metaData db
     ∧ extra <$> metaData db' = extra <$> metaData db
     ∧ (∀ k, to_key id ≠ Some k → allDataCache db' !! k = allDataCache db !! k)
     ∧ statisticsCache db' = statisticsCache db
     ∧ dataStoreCache db' = dataStoreCache db).
Proof.
  split; [|split].
  - intros cd. unfold handleDataChange. by destruct (applyChange P now cd db) as [? [?|?]].
  - intros op r k Hop Hk Habs. unfold handleDataChange, applyChange.
    cbn [operation change_record]. rewrite Hop.
    rewrite decide_False by (by intros [?|?]). rewrite decide_True by done.
    unfold deleteRecord. rewrite Hk. cbn. rewrite (delete_id _ _ Habs).
    destruct (metaData db) eqn:Hm; cbn; by rewrite ?Hm.
  - intros id. apply deleteRecord_frame.
Qed.

(** A pushed [DELETE] for [p7] on a database that holds no such record. *)
Lemma delete_leaves_count_witness :
  let out := handleDataChange utc8 20
               (Some (mkChange (JString "DELETE") (Some {[ "id" := JString "p7" ]})))
               (dbWithCursor 100) in
  out.1.2 = Resolved ()
  ∧ allDataCache out.1.1 = allDataCache (dbWithCursor 100)
  ∧ totalCount <$> metaData out.1.1 = totalCount <$> metaData (dbWithCursor 100).
Proof.
  destruct (delete_leaves_count utc8 20 (dbWithCursor 100)) as (Hok & Habs & _).
  split; [apply Hok|].
  apply (Habs "DELETE" {[ "id" := JString "p7" ]} (KStr "p7")); reflexivity.
Defined.

End SyncFacts.

(** ** Heartbeat: results *)

Module HeartbeatFacts.
Import Sync.

(** Ticks without an inbound heartbeat, counted from a fresh connection. *)
Lemma two_ticks_keep_open c0 :
  let c := heartbeatTick (heartbeatTick (openEvent c0)) in
  ws c = Some OPEN ∧ missedHeartbeats c = 2 ∧ closeCalls c = closeCalls c0
  ∧ heartbeatsSent c = S (S (heartbeatsSent c0)).
Proof. done. Qed.

(** A heartbeat message between the ticks starts the count afresh. *)
Lemma heartbeat_resets_count c0 :
  let c := heartbeatTick (heartbeatTick (heartbeatReceived
             (heartbeatTick (heartbeatTick (openEvent c0))))) in
  ws c = Some OPEN ∧ missedHeartbeats c = 2 ∧ closeCalls c = closeCalls c0.
Proof. done. Qed.

(** C8 (the code departs from the claim).  After the connection has opened,
    three ticks of the heartbeat interval with no heartbeat message in
    between call [ws.close()] exactly once, and further ticks do nothing.
    When the browser then delivers the [close] event, [handleClose]
    schedules one reconnect if the event says [wasClean = false] and none if
    it says [wasClean = true], as it does when the server completes the
    closing handshake that [ws.close()] started. *)
Theorem heartbeat_timeout_reconnects_only_if_unclean (c0 : Conn) :
  let c3 := heartbeatTick (heartbeatTick (heartbeatTick (openEvent c0))) in
  ws c3 = Some CLOSING
  ∧ closeCalls c3 = S (closeCalls c0)
  ∧ heartbeatTick c3 = c3
  ∧ reconnectsScheduled (closeEvent false c3) = S (reconnectsScheduled c0)
  ∧ reconnectsScheduled (closeEvent true c3) = reconnectsScheduled c0
  ∧ (∀ wasClean, heartbeatTick (closeEvent wasClean c3) = closeEvent wasClean c3).
Proof. repeat split. by intros []. Qed.

End HeartbeatFacts.

(** ** Storage workers: results *)

Module LoaderFacts.
Import Js Cache Loader Examples.

(** The lock discipline, on the lock set [L] and the worker table [W]: a
    write holds its partition's lock, no partition has two writes, and no
    lock is held without a write. *)
Definition disciplined (L : gset string) (W : gmap nat wstatus) : Prop :=
  (∀ w pid b, W !! w = Some (Storing pid b) → pid ∈ L)
  ∧ (∀ w1 w2 pid b1 b2,
       W !! w1 = Some (Storing pid b1) → W !! w2 = Some (Storing pid b2) → w1 = w2)
  ∧ (∀ pid, pid ∈ L → ∃ w b, W !! w = Some (Storing pid b)).

Lemma disciplined_idle L W w st :
  (∀ pid b, st ≠ Storing pid b) →
  disciplined L (delete w W) → disciplined L (<[w := st]> W).
Proof.
  intros Hst (H1 & H2 & H3). repeat split.
  - intros w' pid b Hw. destruct (decide (w = w')) as [<-|Hne].
    + rewrite lookup_insert_eq in Hw. injection Hw as ->. by destruct (Hst pid b).
    + rewrite lookup_insert_ne in Hw by done. apply (H1 w' pid b).
      by rewrite lookup_delete_ne.
  - intros w1 w2 pid b1 b2 Hw1 Hw2.
    destruct (decide (w = w1)) as [<-|Hn1].
    { rewrite lookup_insert_eq in Hw1. injection Hw1 as ->. by destruct (Hst pid b1). }
    destruct (decide (w = w2)) as [<-|Hn2].
    { rewrite lookup_insert_eq in Hw2. injection Hw2 as ->. by destruct (Hst pid b2). }
    rewrite lookup_insert_ne in Hw1, Hw2 by done.
    apply (H2 w1 w2 pid b1 b2); by rewrite lookup_delete_ne.
  - intros pid Hpid. destruct (H3 pid Hpid) as (w' & b & Hw').
    destruct (decide (w = w')) as [<-|Hne]; [by rewrite lookup_delete_eq in Hw'|].
    rewrite lookup_delete_ne in Hw' by done.
    exists w', b. by rewrite lookup_insert_ne.
Qed.

Lemma disciplined_claim L W w pid b :
  pid ∉ L → disciplined L (delete w W) →
  disciplined ({[pid]} ∪ L) (<[w := Storing pid b]> W).
Proof.
  intros Hfree (H1 & H2 & H3). repeat split.
  - intros w' pid' b' Hw. destruct (decide (w = w')) as [<-|Hne].
    + rewrite lookup_insert_eq in Hw. injection Hw as <- <-.
      apply elem_of_union_l. by apply elem_of_singleton.
    + rewrite lookup_insert_ne in Hw by done.
      apply elem_of_union_r, (H1 w' pid' b'). by rewrite lookup_delete_ne.
  - intros w1 w2 pid' b1 b2 Hw1 Hw2.
    destruct (decide (w = w1)) as [<-|Hn1], (decide (w = w2)) as [<-|Hn2]; [done| | |].
    + rewrite lookup_insert_eq in Hw1. injection Hw1 as <- <-.
      rewrite lookup_insert_ne in Hw2 by done.
      destruct Hfree. apply (H1 w2 pid b2). by rewrite lookup_delete_ne.
    + rewrite lookup_insert_eq in Hw2. injection Hw2 as <- <-.
      rewrite lookup_insert_ne in Hw1 by done.
      destruct Hfree. apply (H1 w1 pid b1). by rewrite lookup_delete_ne.
    + rewrite lookup_insert_ne in Hw1, Hw2 by done.
      apply (H2 w1 w2 pid' b1 b2); by rewrite lookup_delete_ne.
  - intros pid' Hpid. destruct (decide (pid' = pid)) as [->|Hne].
    + exists w, b. by rewrite lookup_insert_eq.
    + apply elem_of_union in Hpid as [Hs%elem_of_singleton|Hin]; [done|].
      destruct (H3 pid' Hin) as (w' & b' & Hw').
      destruct (decide (w = w')) as [<-|Hnw]; [by rewrite lookup_delete_eq in Hw'|].
      rewrite lookup_delete_ne in Hw' by done.
      exists w', b'. by rewrite lookup_insert_ne.
Qed.

(** Taking a worker that is not writing out of the table. *)
Lemma disciplined_drop_idle L W w :
  (∀ pid b, W !! w ≠ Some (Storing pid b)) →
  disciplined L W → disciplined L (delete w W).
Proof.
  intros Hw (H1 & H2 & H3). repeat split.
  - intros w' pid b Hw'. apply lookup_delete_Some in Hw' as [_ Hw']. eauto.
  - intros w1 w2 pid b1 b2 Hw1 Hw2.
    apply lookup_delete_Some in Hw1 as [_ Hw1], Hw2 as [_ Hw2]. eauto.
  - intros pid Hpid. destruct (H3 pid Hpid) as (w' & b & Hw').
    exists w', b. apply lookup_delete_Some. split; [|done].
    intros <-. by destruct (Hw pid b).
Qed.

(** Taking a writer out of the table together with its lock. *)
Lemma disciplined_release L W w pid b :
  W !! w = Some (Storing pid b) →
  disciplined L W → disciplined (L ∖ {[pid]}) (delete w W).
Proof.
  intros Hw (H1 & H2 & H3). repeat split.
  - intros w' pid' b' Hw'. apply lookup_delete_Some in Hw' as [Hne Hw'].
    apply elem_of_difference. split; [eauto|].
    intros ->%elem_of_singleton. by destruct Hne; eapply H2.
  - intros w1 w2 pid' b1 b2 Hw1 Hw2.
    apply lookup_delete_Some in Hw1 as [_ Hw1], Hw2 as [_ Hw2]. eauto.
  - intros pid' [Hin Hne%not_elem_of_singleton]%elem_of_difference.
    destruct (H3 pid' Hin) as (w' & b' & Hw').
    exists w', b'. apply lookup_delete_Some. split; [|done].
    intros <-. congruence.
Qed.

Lemma disciplined_same_partition L W w pid b b' :
  W !! w = Some (Storing pid b) →
  disciplined L W → disciplined L (<[w := Storing pid b']> W).
Proof.
  intros Hw HD. pose proof (disciplined_release _ _ _ _ _ Hw HD) as HR.
  assert (Hfree : pid ∉ L ∖ {[pid]}).
  { rewrite elem_of_difference, elem_of_singleton. tauto. }
  pose proof (disciplined_claim (L ∖ {[pid]}) W w pid b' Hfree HR) as HC.
  assert (HL : {[pid]} ∪ L ∖ {[pid]} = L).
  { destruct HD as (H1 & _). pose proof (H1 _ _ _ Hw) as Hin.
    apply set_eq. intros x. rewrite elem_of_union, elem_of_difference, elem_of_singleton.
    destruct (decide (x = pid)) as [->|]; tauto. }
  by rewrite HL in HC.
Qed.

Lemma scan_free s pid : scan s = Some pid → pid ∉ lockedPartitions s.
Proof.
  unfold scan. intros [_ Hc]%find_some. unfold claimable in Hc.
  apply andb_true_iff in Hc as [_ Hc]. apply negb_true_iff in Hc.
  by apply bool_decide_eq_false in Hc.
Qed.

Lemma next_task_disciplined w s :
  disciplined (lockedPartitions s) (delete w (workers s)) →
  disciplined (lockedPartitions (next_task w s)) (workers (next_task w s)).
Proof.
  intros HD. unfold next_task.
  destruct (downloadComplete s && negb (hasTasksInQueues s)).
  { simpl. by apply disciplined_idle. }
  destruct (scan s) as [pid|] eqn:Hs.
  - simpl. apply disciplined_claim; [by apply scan_free|done].
  - simpl. by apply disciplined_idle.
Qed.

Lemma step_disciplined s s' :
  step s s' →
  disciplined (lockedPartitions s) (workers s) →
  disciplined (lockedPartitions s') (workers s').
Proof.
  intros Hstep HD. destruct Hstep as [s w Hw|s w pid batch ok Hw|s pid rs _|s]; [| |done|done].
  - apply next_task_disciplined, disciplined_drop_idle; [|done]. intros ??. by rewrite Hw.
  - assert (Hrel : disciplined (lockedPartitions (release pid s))
                     (delete w (workers (release pid s))))
      by (simpl; by eapply disciplined_release).
    unfold store_settled. destruct ok; [|by apply next_task_disciplined].
    destruct (nonempty _); [|by apply next_task_disciplined].
    simpl. by eapply disciplined_same_partition.
Qed.

Lemma initial_disciplined partitions :
  disciplined (lockedPartitions (initial partitions)) (workers (initial partitions)).
Proof.
  repeat split; simpl.
  - intros w pid b Hw. exfalso. revert Hw. unfold STORAGE_WORKERS. simpl.
    rewrite !lookup_insert. repeat case_decide; by rewrite ?lookup_empty.
  - intros w1 w2 pid b1 b2 Hw. exfalso. revert Hw. unfold STORAGE_WORKERS. simpl.
    rewrite !lookup_insert. repeat case_decide; by rewrite ?lookup_empty.
  - intros pid Hpid. by apply not_elem_of_empty in Hpid.
Qed.

Lemma reachable_disciplined partitions s :
  reachable partitions s → disciplined (lockedPartitions s) (workers s).
Proof.
  unfold reachable. revert s.
  apply (rtc_ind_r (R := step) (λ s, disciplined (lockedPartitions s) (workers s))).
  - apply initial_disciplined.
  - intros y z _ Hstep IH. by eapply step_disciplined.
Qed.







(** *** The same discipline behind [tryLockPartition] *)

Lemma visit_disciplined w rest s s' :
  disciplined (partitionLocks s) (delete w (storageWorkers s)) →
  visit w rest s = Some s' →
  disciplined (partitionLocks s') (storageWorkers s').
Proof.
  intros HD. induction rest as [|pid rest IH]; [done|]. simpl.
  destruct (nonempty (parsed_of s pid)); simpl; [|done].
  unfold tryLockPartition. destruct (decide (pid ∈ partitionLocks s)) as [|Hfree]; [done|].
  intros [= <-]. simpl. by apply disciplined_claim.
Qed.

Lemma next_pass_disciplined w s :
  disciplined (partitionLocks s) (delete w (storageWorkers s)) →
  disciplined (partitionLocks (next_pass w s)) (storageWorkers (next_pass w s)).
Proof.
  intros HD. unfold next_pass.
  destruct (parseComplete s && negb (hasParsedData s)).
  { simpl. by apply disciplined_idle. }
  destruct (visit w (partitionOrder s) s) as [s'|] eqn:Hv.
  - by eapply visit_disciplined.
  - simpl. by apply disciplined_idle.
Qed.

Lemma stage_step_disciplined s s' :
  stage_step s s' →
  disciplined (partitionLocks s) (storageWorkers s) →
  disciplined (partitionLocks s') (storageWorkers s').
Proof.
  intros Hstep HD.
  destruct Hstep as [s w Hw|s w pid batch ok Hw|s pid rs _|s]; [| |done|done].
  - apply next_pass_disciplined, disciplined_drop_idle; [|done]. intros ??. by rewrite Hw.
  - unfold batch_settled.
    set (s1 := mkStage _ _ (unlockPartition pid (partitionLocks s)) _ _ _ _).
    assert (Hrel : disciplined (partitionLocks s1) (delete w (storageWorkers s1)))
      by (simpl; by eapply disciplined_release).
    destruct (visit w _ s1) as [s2|] eqn:Hv.
    + by eapply visit_disciplined.
    + by apply next_pass_disciplined.
Qed.

(** The storage workers of the three-stage pipeline, with the lock of the
    cache manager modelled from the spec, keep the same discipline in every
    reachable state. *)
Lemma try_lock_mutual_exclusion partitions s :
  rtc stage_step (stage_initial partitions) s →
  disciplined (partitionLocks s) (storageWorkers s).
Proof.
  revert s.
  apply (rtc_ind_r (R := stage_step)
           (λ s, disciplined (partitionLocks s) (storageWorkers s))).
  - apply (initial_disciplined partitions).
  - intros y z _ Hstep IH. by eapply stage_step_disciplined.
Qed.

Lemma visit_locks w rest s s' :
  visit w rest s = Some s' →
  ∃ pid, nonempty (parsed_of s pid) = true
         ∧ partitionLocks s' = {[pid]} ∪ partitionLocks s.
Proof.
  induction rest as [|pid rest IH]; [done|]. cbn.
  destruct (nonempty (parsed_of s pid)) eqn:Hq; cbn; [|done].
  unfold tryLockPartition. destruct (decide (pid ∈ partitionLocks s)); [done|].
  intros [= <-]. by exists pid.
Qed.

(** With the lock modelled from the spec, the three-stage worker too
    releases it when the write settles, either way: a partition whose
    queue is empty is unlocked afterwards. *)
Lemma try_lock_released ok w pid batch s :
  parsed_of s pid = [] → pid ∉ partitionLocks (batch_settled ok w pid batch s).
Proof.
  intros Hq. unfold batch_settled.
  set (s1 := mkStage _ _ (unlockPartition pid (partitionLocks s)) _ _ _ _).
  assert (pid ∉ partitionLocks s1) as Hfree.
  { cbn. unfold unlockPartition. intros [_ Hne]%elem_of_difference.
    by destruct Hne; apply elem_of_singleton. }
  assert (∀ s2 rest, visit w rest s1 = Some s2 → pid ∉ partitionLocks s2) as Hvisit.
  { intros s2 rest (pid' & Hne & ->)%visit_locks.
    intros [->%elem_of_singleton|Hin]%elem_of_union; [|done].
    unfold parsed_of in *. cbn in Hne. by rewrite Hq in Hne. }
  destruct (visit w _ s1) as [s2|] eqn:Hv; [by eapply Hvisit|].
  unfold next_pass. destruct (parseComplete s1 && negb (hasParsedData s1)); [done|].
  destruct (visit w (partitionOrder s1) s1) as [s2|] eqn:Hv2; [by eapply Hvisit|done].
Qed.


End LoaderFacts.

(** ** CacheManager: round trips and compositions *)

Module CacheMoreFacts.
Import Js JsDate Cache Sync Batch CacheMore Examples.
Import ParsingFacts CacheFacts CatchupFacts.

Lemma prefixed_inj (p a b : string) : p +:+ a = p +:+ b → a = b.
Proof. induction p as [|c p IH]; simpl; [done|]. intros [= H]. by apply IH. Qed.

(** X1. A statistic saved under a type is what [getStatistics] answers for
    that type; statistics of other types, the records, the metadata and the
    bucket cache are untouched; after [clearStatisticsCache] the answer is
    [null] again. *)
Theorem statistics_round_trip (now : Z) (type : string) (data : payload) (db : DB) :
  let db' := saveStatistics now type data db in
  getStatistics type db' = Some data
  ∧ (∀ other, other ≠ type → getStatistics other db' = getStatistics other db)
  ∧ getStatistics type (clearStatisticsCache db') = None
  ∧ allDataCache db' = allDataCache db
  ∧ metaData db' = metaData db
  ∧ dataStoreCache db' = dataStoreCache db.
Proof.
  unfold getStatistics, saveStatistics. simpl. repeat split.
  - by rewrite lookup_insert_eq.
  - intros other Hne. rewrite lookup_insert_ne; [done|].
    intros H. apply Hne. symmetry. by eapply prefixed_inj.
Qed.

Lemma statistics_round_trip_witness :
  getStatistics "customer" (saveStatistics 20 "customer" "c-v2" cachedDB) = Some "c-v2"
  ∧ getStatistics "bucket" (saveStatistics 20 "customer" "c-v2" cachedDB) = Some "stats-v1".
Proof.
  destruct (statistics_round_trip 20 "customer" "c-v2" cachedDB) as (H1 & H2 & _).
  split; [exact H1|]. by rewrite H2.
Defined.

(** X2. A bucket cache saved at [t0] is served by [loadDataStoreBuckets] at
    time [t] exactly while it is at most 24 hours old and not older than a
    non-zero [lastSyncTime] passed by the caller; entries of other group
    types are not affected by the save. *)
Theorem bucket_cache_round_trip (t0 : Z) (g : string) (b : payload) (n : Z) (db : DB) :
  let db' := saveDataStoreBuckets t0 g b n db in
  (∀ t, t - t0 ≤ 86400000 →
        loadDataStoreBuckets t g None db' = Some (mkBucket g b n t0)
        ∧ loadDataStoreBuckets t g (Some 0) db' = Some (mkBucket g b n t0)
        ∧ ∀ since, since ≤ t0 →
            loadDataStoreBuckets t g (Some since) db' = Some (mkBucket g b n t0))
  ∧ (∀ t since, 86400000 < t - t0 → loadDataStoreBuckets t g since db' = None)
  ∧ (∀ t since, since ≠ 0 → t0 < since →
        loadDataStoreBuckets t g (Some since) db' = None)
  ∧ (∀ t other since, other ≠ g →
        loadDataStoreBuckets t other since db' = loadDataStoreBuckets t other since db).
Proof.
  unfold loadDataStoreBuckets, saveDataStoreBuckets. simpl.
  change (24 * 60 * 60 * 1000) with 86400000. repeat split.
  - rewrite lookup_insert_eq. simpl.
    destruct (Z.gtb_spec (t - t0) 86400000); [lia|done].
  - rewrite lookup_insert_eq. simpl.
    destruct (Z.gtb_spec (t - t0) 86400000); [lia|done].
  - intros since Hs. rewrite lookup_insert_eq. simpl.
    destruct (Z.ltb_spec t0 since); [lia|]. rewrite andb_false_r.
    destruct (Z.gtb_spec (t - t0) 86400000); [lia|done].
  - intros t since Ht. rewrite lookup_insert_eq. simpl.
    destruct (Z.gtb_spec (t - t0) 86400000); [|lia].
    by destruct since as [x|]; [destruct (negb (x =? 0) && (t0 <? x))|].
  - intros t since Hne Hlt. rewrite lookup_insert_eq. simpl.
    destruct (Z.eqb_spec since 0); [done|].
    destruct (Z.ltb_spec t0 since); [done|lia].
  - intros t other since Hne. rewrite lookup_insert_ne; [done|].
    intros H. apply Hne. symmetry. by eapply prefixed_inj.
Qed.

Lemma bucket_cache_round_trip_witness :
  loadDataStoreBuckets 5000 "week" None
    (saveDataStoreBuckets 1000 "week" "w" 3 emptyDB) = Some (mkBucket "week" "w" 3 1000)
  ∧ loadDataStoreBuckets 86401001 "week" None
      (saveDataStoreBuckets 1000 "week" "w" 3 emptyDB) = None.
Proof.
  destruct (bucket_cache_round_trip 1000 "week" "w" 3 emptyDB) as (Hfresh & Hold & _).
  split; [apply (Hfresh 5000); lia|apply (Hold 86401001 None); lia].
Defined.

(** What each write does to [lastSyncTime]. *)
Lemma getLastSyncTime_touched now m db :
  getLastSyncTime (set_meta (Some (touch_sync now m)) db) = now.
Proof. unfold getLastSyncTime. by destruct m. Qed.

(** X3. The store's [lastSyncTime] outdates the bucket cache: after an
    accepted [updateRecord], a non-empty accepted [batchUpdateRecords], or a
    [deleteRecord] on a store that has metadata, at a time later than the
    entry's, [loadDataStoreBuckets] called with the store's [lastSyncTime]
    answers [null].  [appendData] never changes [lastSyncTime], and neither
    does [deleteRecord] while there is no metadata. *)
Theorem sync_write_outdates_bucket_cache (P : Platform) (now : Z) (g : string)
    (e : BucketEntry) (db : DB) :
  dataStoreCache db !! ("datastore_" +:+ g) = Some e →
  bucket_timestamp e < now → now ≠ 0 →
  (∀ r db' r' t, updateRecord P now r db = (db', Resolved r') →
     loadDataStoreBuckets t g (Some (getLastSyncTime db')) db' = None)
  ∧ (∀ rs db' k t, rs ≠ [] → batchUpdateRecords P now rs db = (db', Resolved k) →
     loadDataStoreBuckets t g (Some (getLastSyncTime db')) db' = None)
  ∧ (∀ id db' v t, is_Some (metaData db) → deleteRecord now id db = (db', Resolved v) →
     loadDataStoreBuckets t g (Some (getLastSyncTime db')) db' = None)
  ∧ (∀ rs, getLastSyncTime (appendData P now rs db).1 = getLastSyncTime db)
  ∧ (∀ id, metaData db = None →
     getLastSyncTime (deleteRecord now id db).1 = getLastSyncTime db).
Proof.
  intros He Hlt Hne.
  assert (Hstale : ∀ t db', dataStoreCache db' = dataStoreCache db →
            getLastSyncTime db' = now →
            loadDataStoreBuckets t g (Some (getLastSyncTime db')) db' = None).
  { intros t db' Hc Hs. unfold loadDataStoreBuckets. rewrite Hc, He, Hs.
    destruct (Z.eqb_spec now 0); [done|].
    destruct (Z.ltb_spec (bucket_timestamp e) now); [done|lia]. }
  repeat split.
  - intros r db' r' t Hu. apply Hstale.
    + rewrite <- (proj2 (updateRecord_caches P now r db)). by rewrite Hu.
    + unfold updateRecord in Hu. destruct (put _ db) as [db1|]; [|done].
      injection Hu as <- _. apply getLastSyncTime_touched.
  - intros rs db' k t Hrs Hb. apply Hstale.
    + rewrite <- (proj2 (batchUpdateRecords_caches P now rs db)). by rewrite Hb.
    + rewrite batchUpdateRecords_spec in Hb by done. cbv zeta in Hb.
      destruct (all_keyed _ _); [|done]. injection Hb as <- _.
      apply getLastSyncTime_touched.
  - intros id db' v t [m Hm] Hd. apply Hstale.
    + rewrite <- (proj2 (deleteRecord_caches now id db)). by rewrite Hd.
    + unfold deleteRecord in Hd. destruct (to_key id); [|done].
      simpl in Hd. rewrite Hm in Hd. by injection Hd as <- _.
  - intros rs. destruct rs as [|r rs]; [done|].
    rewrite appendData_spec by done. cbv zeta.
    destruct (all_keyed _ _); [|done]. unfold getLastSyncTime. simpl.
    by destruct (metaData db).
  - intros id Hm. unfold deleteRecord. destruct (to_key id); [|done].
    cbn [metaData set_allData]. rewrite Hm. unfold getLastSyncTime. simpl.
    by rewrite Hm.
Qed.

Lemma sync_write_outdates_bucket_cache_witness :
  loadDataStoreBuckets 30 "day"
    (Some (getLastSyncTime (updateRecord utc8 20 pushedIso cachedDB).1))
    (updateRecord utc8 20 pushedIso cachedDB).1 = None
  ∧ getLastSyncTime (appendData utc8 20 [pushedIso] cachedDB).1 = getLastSyncTime cachedDB.
Proof.
  destruct (sync_write_outdates_bucket_cache utc8 20 "day"
              (mkBucket "day" "buckets-v1" 1 10) cachedDB) as (Hupd & _ & _ & Happ & _);
    [reflexivity|simpl; lia|lia|].
  split; [|apply Happ].
  eapply (Hupd pushedIso _ (ensure_timestamp utc8 pushedIso) 30). reflexivity.
Defined.

(** *** A batch and its records one by one *)

Lemma touch_sync_twice now m :
  touch_sync now (Some (touch_sync now m)) = touch_sync now m.
Proof. by destruct m. Qed.

Lemma fold_updateRecord P now rs db :
  all_keyed (ensure_timestamp P) rs = true → rs ≠ [] →
  fold_left (λ d r, (updateRecord P now r d).1) rs db
  = set_meta (Some (touch_sync now (metaData db)))
      (set_allData (ins (issued (ensure_timestamp P) rs) (allDataCache db)) db).
Proof.
  revert db. induction rs as [|r rs IH]; intros db Hk Hne; [done|].
  unfold all_keyed in Hk. simpl in Hk. apply andb_true_iff in Hk as [Hr Hk].
  apply bool_decide_eq_true in Hr as [k Hr].
  cbn [fold_left issued]. rewrite Hr.
  unfold updateRecord at 2. unfold put. rewrite Hr. cbn [fst mbind option_bind].
  destruct rs as [|r2 rs]; [done|].
  rewrite IH by done. unfold set_meta, set_allData.
  cbn [metaData allDataCache statisticsCache dataStoreCache].
  by rewrite touch_sync_twice.
Qed.

(** X4. When every record of a non-empty batch has a usable key,
    [batchUpdateRecords] leaves the database exactly as applying
    [updateRecord] to its records one after the other does, and reports
    their number. *)
Theorem batch_is_sequence (P : Platform) (now : Z)
    (rs : list (gmap string jsval)) (db : DB) :
  rs ≠ [] → all_keyed (ensure_timestamp P) rs = true →
  batchUpdateRecords P now rs db
  = (fold_left (λ d r, (updateRecord P now r d).1) rs db,
     Resolved (Z.of_nat (List.length rs))).
Proof.
  intros Hne Hk. rewrite batchUpdateRecords_spec by done. cbv zeta.
  by rewrite Hk, fold_updateRecord.
Qed.

Lemma batch_is_sequence_witness :
  batchUpdateRecords utc8 7 [pushedIso; pushedStale] cachedDB
  = ((updateRecord utc8 7 pushedStale (updateRecord utc8 7 pushedIso cachedDB).1).1,
     Resolved 2).
Proof. apply (batch_is_sequence utc8 7 [pushedIso; pushedStale] cachedDB); done. Defined.

(** X5. [clearAllDataCache] empties the record store and removes the
    metadata, and with it the change cursor: [getLastChangeLogId] answers 0
    and the next [checkAndPerformCatchup] sends no request.  The cached
    aggregates are left in place and are still served. *)
Theorem clear_forgets_cursor (P : Platform) (now : Z) (resp : response) (db : DB) :
  let db' := clearAllDataCache db in
  allDataCache db' = ∅
  ∧ checkAllDataCache db' = None
  ∧ getLastChangeLogId db' = JNumber (Num 0)
  ∧ getLastSyncTime db' = 0
  ∧ checkAndPerformCatchup P now resp db' = (db', noNewData, [])
  ∧ (∀ type, getStatistics type db' = getStatistics type db)
  ∧ (∀ t g since, loadDataStoreBuckets t g since db' = loadDataStoreBuckets t g since db).
Proof. done. Qed.

Lemma id_of_ensured P (r : gmap string jsval) :
  get (ensure_timestamp P r) "id" = get r "id".
Proof.
  unfold ensure_timestamp. destruct (truthy _); [done|]. by apply get_insert_ne.
Qed.

(** X6. After an accepted [updateRecord] the record, with its [timestamp],
    is what the store holds under its id, and the records under other ids
    are as before; [deleteRecord] of that id then leaves the store as if the
    id had been deleted from the original one.  A record whose [id] is not a
    key is rejected and the database left as it was. *)
Theorem update_then_delete (P : Platform) (now1 now2 : Z)
    (r : gmap string jsval) (db : DB) :
  (∀ k, to_key (get r "id") = Some k →
     let db1 := (updateRecord P now1 r db).1 in
     allDataCache db1 !! k = Some (ensure_timestamp P r)
     ∧ (∀ k', k' ≠ k → allDataCache db1 !! k' = allDataCache db !! k')
     ∧ allDataCache (deleteRecord now2 (get r "id") db1).1 = delete k (allDataCache db))
  ∧ (to_key (get r "id") = None → updateRecord P now1 r db = (db, Rejected DataError)).
Proof.
  split.
  - intros k Hk. unfold updateRecord, put. rewrite id_of_ensured, Hk. cbn.
    split; [apply lookup_insert_eq|]. split.
    + intros k' Hne. by apply lookup_insert_ne.
    + unfold deleteRecord. rewrite Hk. cbn. apply delete_insert_eq.
  - intros Hk. unfold updateRecord, put. by rewrite id_of_ensured, Hk.
Qed.

Lemma update_then_delete_witness :
  allDataCache (updateRecord utc8 5 pushedStale cachedDB).1 !! KStr "p1"
    = Some (ensure_timestamp utc8 pushedStale)
  ∧ updateRecord utc8 5 (plan "p1" "2025-10-01 08:00:00") cachedDB
    = (cachedDB, Rejected DataError).
Proof.
  destruct (update_then_delete utc8 5 6 pushedStale cachedDB) as [Hin _].
  destruct (update_then_delete utc8 5 6 (plan "p1" "2025-10-01 08:00:00") cachedDB)
    as [_ Hrej].
  split; [apply (Hin (KStr "p1")); reflexivity|apply Hrej; reflexivity].
Defined.

(** *** The key a record is filed under *)

Lemma id_of_derived P (r : gmap string jsval) :
  get (derive_timestamp P r) "id" = get r "id".
Proof.
  unfold derive_timestamp. destruct (truthy _); [|done]. by apply get_insert_ne.
Qed.

Lemma appendData_single P now (r : gmap string jsval) db :
  let stored := derive_timestamp P (standardRecord (generated_id now) r) in
  match to_key (get (standardRecord (generated_id now) r) "id") with
  | Some k =>
      (appendData P now [r] db).2 = Resolved 1
      ∧ allDataCache (appendData P now [r] db).1 !! k = Some stored
  | None => appendData P now [r] db = (db, Rejected DataError)
  end.
Proof.
  cbv zeta. unfold appendData, append_puts, put. rewrite id_of_derived.
  destruct (to_key _) as [k|]; [|done]. cbn. split; [done|]. apply lookup_insert_eq.
Qed.

Lemma standardRecord_id_absent g (r : gmap string jsval) :
  r !! "id" = None →
  get (standardRecord g r) "id"
  = js_or (js_or (js_or (get r "plan_id") (get r "计划ID")) (get r "id")) (JString g).
Proof.
  intros H. unfold get at 1. unfold standardRecord.
  rewrite lookup_union_r by done. by rewrite list_to_map_cons, lookup_insert_eq.
Qed.

(** X7. [appendData] files a record under its own [id] property whenever it
    has one -- also when it carries a [plan_id], and with a [DataError] when
    that [id] is not a key.  Only a record without an [id] property is filed
    under its [plan_id], failing that under its [计划ID], failing that under
    a made-up name.  The catch-up path files the same record under its
    [plan_id] in every case. *)
Theorem appendData_identity (P : Platform) (now : Z) (r : gmap string jsval) (db : DB) :
  (∀ v k, r !! "id" = Some v → to_key v = Some k →
     (appendData P now [r] db).2 = Resolved 1
     ∧ is_Some (allDataCache (appendData P now [r] db).1 !! k))
  ∧ (∀ v, r !! "id" = Some v → to_key v = None →
     appendData P now [r] db = (db, Rejected DataError))
  ∧ (∀ k, r !! "id" = None → truthy (get r "plan_id") = true →
     to_key (get r "plan_id") = Some k →
     is_Some (allDataCache (appendData P now [r] db).1 !! k))
  ∧ (∀ k, r !! "id" = None → truthy (get r "plan_id") = false →
     truthy (get r "计划ID") = true → to_key (get r "计划ID") = Some k →
     is_Some (allDataCache (appendData P now [r] db).1 !! k))
  ∧ (r !! "id" = None → truthy (get r "plan_id") = false →
     truthy (get r "计划ID") = false →
     is_Some (allDataCache (appendData P now [r] db).1 !! KStr (generated_id now)))
  ∧ (∀ k, to_key (get r "plan_id") = Some k →
     is_Some (allDataCache (batchUpdateRecords P now [convertRecord r] db).1 !! k)).
Proof.
  pose proof (appendData_single P now r db) as H. cbv zeta in H.
  split; [|split; [|split; [|split; [|split]]]].
  - intros v k Hv Hk. rewrite (get_standardRecord_own _ _ _ _ Hv), Hk in H.
    destruct H as [H1 H2]. split; [done|]. by eexists.
  - intros v Hv Hk. by rewrite (get_standardRecord_own _ _ _ _ Hv), Hk in H.
  - intros k Hid Ht Hk. rewrite (standardRecord_id_absent _ _ Hid) in H.
    assert (E : js_or (js_or (js_or (get r "plan_id") (get r "计划ID")) (get r "id"))
                  (JString (generated_id now)) = get r "plan_id")
      by (unfold js_or; by rewrite !Ht).
    rewrite E, Hk in H. destruct H as [_ H]. by eexists.
  - intros k Hid Hp Ht Hk. rewrite (standardRecord_id_absent _ _ Hid) in H.
    assert (E : js_or (js_or (js_or (get r "plan_id") (get r "计划ID")) (get r "id"))
                  (JString (generated_id now)) = get r "计划ID")
      by (unfold js_or; by rewrite Hp, !Ht).
    rewrite E, Hk in H. destruct H as [_ H]. by eexists.
  - intros Hid Hp Ht. rewrite (standardRecord_id_absent _ _ Hid) in H.
    assert (Hu : get r "id" = JUndefined) by (unfold get; by rewrite Hid).
    assert (E : js_or (js_or (js_or (get r "plan_id") (get r "计划ID")) (get r "id"))
                  (JString (generated_id now)) = JString (generated_id now))
      by (unfold js_or; by rewrite Hp, Ht, Hu).
    rewrite E in H. cbn [to_key] in H. destruct H as [_ H]. by eexists.
  - intros k Hk. unfold batchUpdateRecords, batch_puts, put.
    rewrite id_of_converted, Hk. cbn. rewrite lookup_insert_eq. by eexists.
Qed.

(** A record with [id] 7 and [plan_id] "p1": [appendData] files it under 7,
    the catch-up path under "p1". *)
Lemma appendData_identity_witness :
  is_Some (allDataCache
             (appendData utc8 5 [<["id" := JNumber (Num 7)]> (plan "p1" "2025-10-01")]
                emptyDB).1 !! KNum 7)
  ∧ is_Some (allDataCache
               (batchUpdateRecords utc8 5
                  [convertRecord (<["id" := JNumber (Num 7)]> (plan "p1" "2025-10-01"))]
                  emptyDB).1 !! KStr "p1").
Proof.
  destruct (appendData_identity utc8 5 (<["id" := JNumber (Num 7)]> (plan "p1" "2025-10-01"))
              emptyDB) as (Hid & _ & _ & _ & _ & Hcatch).
  split; [apply (Hid (JNumber (Num 7)) (KNum 7)); reflexivity|].
  apply (Hcatch (KStr "p1")). reflexivity.
Defined.

End CacheMoreFacts.

(** ** Heartbeat, messages and reconnection: results *)

Module SyncMoreFacts.
Import Js JsDate Cache Sync SyncMore Examples.

Lemma three_in_a_row_cons p ps :
  three_in_a_row (p :: ps)
  = match p, ps with
    | Tick, Tick :: Tick :: _ => true
    | _, _ => three_in_a_row ps
    end.
Proof. by destruct p, ps as [|[] [|[] ?]]. Qed.

Lemma three_in_a_row_spec ps :
  three_in_a_row ps = true ↔ ∃ l1 l2, ps = l1 ++ [Tick; Tick; Tick] ++ l2.
Proof.
  split.
  - induction ps as [|p ps IH]; [done|]. rewrite three_in_a_row_cons.
    assert (Hrest : three_in_a_row ps = true →
              ∃ l1 l2, p :: ps = l1 ++ [Tick; Tick; Tick] ++ l2).
    { intros H. destruct (IH H) as (l1 & l2 & ->). by exists (p :: l1), l2. }
    destruct p; [|done]. destruct ps as [|[] [|[] ps']]; try done.
    intros _. by exists [], ps'.
  - intros (l1 & l2 & ->). induction l1 as [|p l1 IH]; [done|].
    cbn [app] in *. rewrite three_in_a_row_cons, IH.
    by destruct p, (l1 ++ _) as [|[] [|[] ?]].
Qed.

(** Messages other than heartbeats do not touch the connection. *)
Lemma conn_of_events P es c db :
  (run_events P es (c, db)).1 = fold_left on_pulse (pulses_of es) c.
Proof.
  revert c db. induction es as [|e es IH]; intros c db; [done|].
  unfold run_events in *. cbn [fold_left].
  destruct e as [|now m]; cbn [on_event fst snd pulses_of omap].
  - apply IH.
  - unfold handleMessage.
    destruct m as [| |d|d|]; cbn; try apply IH.
    + destruct (handleDataChange P now d db) as [[db' o] us]. apply IH.
    + destruct (handleBatchUpdate P now d db) as [[db' o] ns]. apply IH.
Qed.

Lemma closing_stays ps c :
  ws c = Some CLOSING →
  ws (fold_left on_pulse ps c) = Some CLOSING
  ∧ closeCalls (fold_left on_pulse ps c) = closeCalls c.
Proof.
  revert c. induction ps as [|p ps IH]; intros c Hc; [done|].
  cbn [fold_left]. destruct p; cbn [on_pulse].
  - assert (heartbeatTick c = c) as ->; [|by apply IH].
    unfold heartbeatTick. rewrite Hc. by destruct (negb _).
  - destruct (IH (heartbeatReceived c) Hc) as [H1 H2]. by rewrite H1, H2.
Qed.

Lemma open_pulses ps : ∀ c (m : nat),
  ws c = Some OPEN → heartbeatInterval c = true →
  missedHeartbeats c = Z.of_nat m → (m ≤ 2)%nat →
  let c' := fold_left on_pulse ps c in
  if three_in_a_row (replicate m Tick ++ ps)
  then ws c' = Some CLOSING ∧ closeCalls c' = S (closeCalls c)
  else ws c' = Some OPEN ∧ closeCalls c' = closeCalls c.
Proof.
  induction ps as [|p ps IH]; intros c m Hws Hint Hm Hle.
  - cbn. by destruct m as [|[|[|m]]]; [..|lia].
  - cbn [fold_left]. destruct p; cbn [on_pulse].
    + destruct (decide (m = 2%nat)) as [->|Hne].
      * cbn [replicate app three_in_a_row].
        assert (Hc : ws (heartbeatTick c) = Some CLOSING
                     ∧ closeCalls (heartbeatTick c) = S (closeCalls c))
          by (unfold heartbeatTick; by rewrite Hint, Hws, Hm).
        destruct Hc as [Hc1 Hc2].
        destruct (closing_stays ps (heartbeatTick c) Hc1) as [H1 H2].
        by rewrite H1, H2, Hc2.
      * assert (Hstep : ws (heartbeatTick c) = Some OPEN
                  ∧ heartbeatInterval (heartbeatTick c) = true
                  ∧ missedHeartbeats (heartbeatTick c) = Z.of_nat (S m)
                  ∧ closeCalls (heartbeatTick c) = closeCalls c).
        { unfold heartbeatTick. rewrite Hint, Hws, Hm. cbn.
          destruct (Z.geb_spec (Z.of_nat m + 1) maxMissedHeartbeats) as [H|H];
            [unfold maxMissedHeartbeats in H; lia|].
          cbn. repeat split; [done..|lia]. }
        destruct Hstep as (H1 & H2 & H3 & H4).
        pose proof (IH (heartbeatTick c) (S m) H1 H2 H3 ltac:(lia)) as H.
        cbv zeta in H. rewrite H4 in H.
        replace (replicate m Tick ++ Tick :: ps) with (replicate (S m) Tick ++ ps);
          [done|]. destruct m as [|[|m]]; [done|done|lia].
    + pose proof (IH (heartbeatReceived c) 0%nat Hws Hint eq_refl ltac:(lia)) as H.
      cbv zeta in H. cbn [replicate app] in H.
      replace (three_in_a_row (replicate m Tick ++ Beat :: ps))
        with (three_in_a_row ps); [done|].
      by destruct m as [|[|[|m]]]; [..|lia].
Qed.

(** X8. Between the [open] event and the [close] event of its socket, under
    any sequence of interval callbacks and inbound messages, the manager
    calls [ws.close()] if and only if three intervals have passed with no
    [heartbeat] message between them -- messages of other types do not count
    as a sign of life -- and it calls it at most once. *)
Theorem heartbeat_silence_closes (P : Platform) (c0 : Conn) (db : DB) (es : list event) :
  let c := (run_events P es (openEvent c0, db)).1 in
  (ws c = Some CLOSING ↔ ∃ l1 l2, pulses_of es = l1 ++ [Tick; Tick; Tick] ++ l2)
  ∧ (ws c = Some OPEN ↔ ¬ ∃ l1 l2, pulses_of es = l1 ++ [Tick; Tick; Tick] ++ l2)
  ∧ closeCalls c = (if three_in_a_row (pulses_of es) then S (closeCalls c0)
                    else closeCalls c0).
Proof.
  cbv zeta. rewrite conn_of_events, <- three_in_a_row_spec.
  pose proof (open_pulses (pulses_of es) (openEvent c0) 0%nat
                eq_refl eq_refl eq_refl ltac:(lia)) as H.
  cbv zeta in H. cbn [replicate app] in H.
  destruct (three_in_a_row (pulses_of es)); destruct H as [H1 H2]; rewrite H1, H2;
    (split; [|split]); try done; split; try done.
Qed.

(** Two silent intervals, a data message, a third silent interval: closed;
    with a heartbeat message in its place: still open. *)
Lemma heartbeat_silence_closes_witness :
  ws (run_events utc8 [Interval; Interval; Received 9 MsgOther; Interval]
        (openEvent (mkConn None false false false 0 0 0 0), emptyDB)).1 = Some CLOSING
  ∧ ws (run_events utc8 [Interval; Interval; Received 9 MsgHeartbeat; Interval]
          (openEvent (mkConn None false false false 0 0 0 0), emptyDB)).1 = Some OPEN.
Proof.
  split.
  - apply (heartbeat_silence_closes utc8). by exists [], [].
  - apply (heartbeat_silence_closes utc8). rewrite <- three_in_a_row_spec. done.
Defined.

(** *** Reconnecting *)

Lemma link_handleClose_conn wasClean l :
  conn (link_handleClose wasClean l) = handleClose wasClean (conn l).
Proof.
  unfold link_handleClose, handleClose, link_scheduleReconnect, scheduleReconnect.
  cbn. destruct wasClean, (isReconnecting (conn l)); done.
Qed.

Lemma heartbeatTick_reconnect c :
  isReconnecting (heartbeatTick c) = isReconnecting c
  ∧ reconnectsScheduled (heartbeatTick c) = reconnectsScheduled c.
Proof.
  unfold heartbeatTick. destruct (negb _); [done|].
  destruct (ws c) as [[]|]; try done. by destruct (_ >=? _).
Qed.

Lemma connect_waiting throws l :
  isReconnecting (conn l) = true →
  isReconnecting (conn (connect throws l)) = true
  ∧ reconnectsScheduled (conn (connect throws l)) = reconnectsScheduled (conn l)
  ∧ pendingTimers (connect throws l) = pendingTimers l.
Proof.
  intros H. unfold connect, link_scheduleReconnect.
  destruct (negb (wsUrl l)); [done|].
  destruct (ws (conn l)) as [[]|]; try done; destruct throws; by rewrite ?H.
Qed.

Lemma on_waiting_keeps l e :
  isReconnecting (conn l) = true →
  isReconnecting (conn (on_waiting l e)) = true
  ∧ reconnectsScheduled (conn (on_waiting l e)) = reconnectsScheduled (conn l)
  ∧ pendingTimers (on_waiting l e) ⊆ pendingTimers l.
Proof.
  intros H. destruct e as [id throws|throws|wasClean|]; cbn [on_waiting].
  - unfold timerFires. destruct (bool_decide _); [|done].
    destruct (connect_waiting throws
                (mkLink (conn l) (wsUrl l) (reconnectTimer l)
                   (pendingTimers l ∖ {[id]}) (socketsConstructed l)) H)
      as (H1 & H2 & H3).
    rewrite H1, H2, H3. repeat split. apply subseteq_difference_l. done.
  - destruct (connect_waiting throws l H) as (H1 & H2 & H3). by rewrite H1, H2, H3.
  - unfold link_closeEvent, link_handleClose. cbn. rewrite H.
    by rewrite andb_false_r.
  - cbn. destruct (heartbeatTick_reconnect (conn l)) as [H1 H2]. by rewrite H1, H2.
Qed.

(** X9. Once a reconnect has been scheduled, nothing that happens before the
    next [open] event or [disconnect()] schedules another one: not the timer
    firing, not [connect()] (whether or not the constructor throws), not the
    [close] event of the socket the attempt created, not the heartbeat
    interval.  In particular a reconnect attempt that fails is not repeated. *)
Theorem reconnect_is_scheduled_once (l : Link) (es : list waiting_event) :
  isReconnecting (conn l) = true →
  let l' := fold_left on_waiting es l in
  isReconnecting (conn l') = true
  ∧ reconnectsScheduled (conn l') = reconnectsScheduled (conn l)
  ∧ pendingTimers l' ⊆ pendingTimers l.
Proof.
  revert l. induction es as [|e es IH]; intros l H; [done|].
  cbn [fold_left]. destruct (on_waiting_keeps l e H) as (H1 & H2 & H3).
  destruct (IH _ H1) as (H4 & H5 & H6). cbv zeta in *.
  split; [done|]. split; [congruence|]. by etrans.
Qed.

(** An open connection is lost, the timer fires, the new socket fails before
    it opens, and is closed uncleanly once more: one timer was set, none is
    pending, one socket was constructed. *)
Lemma reconnect_is_scheduled_once_witness :
  let lost := link_closeEvent false
                (mkLink (openEvent (mkConn None false false false 0 0 0 0)) true None ∅ 1) in
  let l' := fold_left on_waiting [WTimer 0 false; WClose false; WClose false] lost in
  reconnectsScheduled (conn l') = 1%nat ∧ pendingTimers l' = ∅
  ∧ socketsConstructed l' = 2%nat.
Proof.
  cbv zeta.
  destruct (reconnect_is_scheduled_once
              (link_closeEvent false
                 (mkLink (openEvent (mkConn None false false false 0 0 0 0)) true None ∅ 1))
              [WTimer 0 false; WClose false; WClose false] eq_refl) as (_ & H & _).
  split; [exact H|]. split; vm_compute; reflexivity.
Defined.

(** X10. [disconnect()] lets go of the socket, stops the heartbeat, clears
    the timer it knows of and resets [isReconnecting].  Because of that
    reset, when the [close] event of the socket it closed then arrives with
    [wasClean = false], [handleClose] schedules a reconnect, and with a URL
    configured that timer constructs a new socket; with [wasClean = true]
    nothing is scheduled. *)
Theorem disconnect_then_close (l : Link) :
  let d := disconnect l in
  ws (conn d) = None
  ∧ heartbeatInterval (conn d) = false
  ∧ isReconnecting (conn d) = false
  ∧ (∀ id, reconnectTimer l = Some id → id ∉ pendingTimers d)
  ∧ reconnectsScheduled (conn (link_handleClose true d)) = reconnectsScheduled (conn l)
  ∧ pendingTimers (link_handleClose true d) = pendingTimers d
  ∧ reconnectsScheduled (conn (link_handleClose false d)) = S (reconnectsScheduled (conn l))
  ∧ (wsUrl l = true →
     socketsConstructed
       (timerFires (reconnectsScheduled (conn l)) false (link_handleClose false d))
     = S (socketsConstructed l)).
Proof.
  cbv zeta. split; [done|]. split; [done|]. split; [done|]. split; [|split; [done|]].
  - intros id Hid. unfold disconnect. rewrite Hid. cbn.
    rewrite elem_of_difference, elem_of_singleton. tauto.
  - split; [done|]. split; [done|]. intros Hurl.
    unfold timerFires, link_handleClose, link_scheduleReconnect. cbn.
    rewrite bool_decide_eq_true_2
      by (apply elem_of_union_l; by apply elem_of_singleton).
    unfold connect. cbn. by rewrite Hurl.
Qed.

Lemma disconnect_then_close_witness :
  socketsConstructed
    (timerFires 0 false
       (link_handleClose false
          (disconnect (mkLink (openEvent (mkConn None false false false 0 0 0 0))
                         true None ∅ 1))))
  = 2%nat.
Proof.
  apply (disconnect_then_close
           (mkLink (openEvent (mkConn None false false false 0 0 0 0)) true None ∅ 1)).
  reflexivity.
Defined.

End SyncMoreFacts.

(** ** DataPreloader: what the workers conserve *)

Module LoaderMoreFacts.
Import Js JsDate Cache Loader LoaderMore LoaderExamples.

Section Sums.
Context {K : Type} `{Countable K} {A : Type} (f : A → Z).

Lemma msum_empty : msum f (∅ : gmap K A) = 0.
Proof. done. Qed.

Lemma msum_insert_fresh (m : gmap K A) i x :
  m !! i = None → msum f (<[i := x]> m) = f x + msum f m.
Proof.
  intros Hi. unfold msum.
  rewrite map_fold_insert_L; [done| |done].
  intros. lia.
Qed.

Lemma msum_insert (m : gmap K A) i x :
  msum f (<[i := x]> m) = msum f m - from_option f 0 (m !! i) + f x.
Proof.
  destruct (m !! i) as [y|] eqn:Hi; cbn.
  - rewrite <- (insert_delete_eq m i x).
    rewrite <- (insert_delete_id m i y) at 2 by done.
    rewrite !msum_insert_fresh by apply lookup_delete_eq. lia.
  - rewrite msum_insert_fresh by done. lia.
Qed.

Lemma msum_nonneg (m : gmap K A) : (∀ x, 0 ≤ f x) → 0 ≤ msum f m.
Proof.
  intros Hf. induction m as [|i x m Hi IH] using map_ind.
  - done.
  - rewrite msum_insert_fresh by done. specialize (Hf x). lia.
Qed.

Lemma msum_zero (m : gmap K A) :
  (∀ i x, m !! i = Some x → f x = 0) → msum f m = 0.
Proof.
  induction m as [|i x m Hi IH] using map_ind; intros Hz.
  - done.
  - rewrite msum_insert_fresh by done.
    rewrite (Hz i x) by apply lookup_insert_eq.
    rewrite IH; [done|]. intros j y Hj. apply (Hz j).
    rewrite lookup_insert_ne; [done|]. intros ->. congruence.
Qed.

End Sums.
Lemma batch_len_nonneg st : 0 ≤ batch_len st.
Proof. destruct st; cbn; lia. Qed.

Lemma inflight_nonneg s : 0 ≤ inflight s.
Proof. apply msum_nonneg, batch_len_nonneg. Qed.

Lemma queued_nonneg s : 0 ≤ queued s.
Proof. apply msum_nonneg. intros; lia. Qed.

Lemma queued_lookup s pid :
  from_option (λ q : list (gmap string jsval), Z.of_nat (List.length q)) 0 (taskQueues s !! pid)
  = Z.of_nat (List.length (queue_of s pid)).
Proof. unfold queue_of. by destruct (taskQueues s !! pid). Qed.

Lemma pending_set_worker w st s :
  pending (set_worker w st s) = pending s - held s w + batch_len st.
Proof.
  unfold pending, inflight, queued, held, set_worker; cbn.
  rewrite msum_insert. lia.
Qed.

Lemma pending_start_batch w pid s :
  pending (start_batch w pid s) = pending s - held s w.
Proof.
  unfold start_batch. cbv zeta. rewrite pending_set_worker.
  unfold pending, inflight, queued, held; cbn.
  rewrite msum_insert, queued_lookup.
  set (q := queue_of s pid).
  set (n := Z.to_nat (batchSize (Z.of_nat (List.length q)))).
  assert (List.length q = (List.length (take n q) + List.length (drop n q))%nat) as Hq
    by (by rewrite <- length_app, take_drop).
  lia.
Qed.

Lemma pending_next_task w s :
  pending (next_task w s) = pending s - held s w.
Proof.
  unfold next_task.
  destruct (downloadComplete s && negb (hasTasksInQueues s)).
  - rewrite pending_set_worker. cbn. lia.
  - destruct (scan s) as [pid|].
    + by rewrite pending_start_batch.
    + rewrite pending_set_worker. cbn. lia.
Qed.

Lemma pending_store_settled ok w pid batch s :
  pending (store_settled ok w pid batch s) = pending s - held s w.
Proof.
  unfold store_settled. destruct ok.
  - destruct (nonempty (queue_of s pid)).
    + by rewrite pending_start_batch.
    + by rewrite pending_next_task.
  - by rewrite pending_next_task.
Qed.

Lemma pending_route pid rs s :
  pending (route pid rs s) = pending s + Z.of_nat (List.length rs).
Proof.
  unfold pending, inflight, queued, route; cbn.
  rewrite msum_insert, queued_lookup, length_app. lia.
Qed.

Lemma totalLoaded_next_task w s : totalLoaded (next_task w s) = totalLoaded s.
Proof.
  unfold next_task.
  destruct (downloadComplete s && negb (hasTasksInQueues s)); [done|].
  by destruct (scan s).
Qed.

Lemma totalLoaded_store_settled ok w pid batch s :
  totalLoaded (store_settled ok w pid batch s)
  = totalLoaded s + (if ok then Z.of_nat (List.length batch) else 0).
Proof.
  unfold store_settled. destruct ok.
  - destruct (nonempty (queue_of s pid)); [done|].
    by rewrite totalLoaded_next_task.
  - rewrite totalLoaded_next_task. cbn. lia.
Qed.

Lemma counted_reachable partitions s routed dropped :
  counted partitions s routed dropped → reachable partitions s.
Proof.
  unfold reachable. induction 1.
  - done.
  - eapply rtc_r; [done|]. by constructor.
  - eapply rtc_r; [done|]. by econstructor.
  - eapply rtc_r; [done|]. by econstructor.
  - eapply rtc_r; [done|]. by constructor.
  - eapply rtc_r; [done|]. by constructor.
Qed.

Lemma counted_balance partitions s routed dropped :
  counted partitions s routed dropped →
  totalLoaded s + pending s + dropped = routed ∧ 0 ≤ dropped.
Proof.
  induction 1 as [|s routed dropped w Hc IH Hw|s routed dropped w pid batch Hc IH Hw
                  |s routed dropped w pid batch Hc IH Hw|s routed dropped pid rs Hc IH Hpid Hdl
                  |s routed dropped Hc IH].
  - split; [|done]. unfold pending, inflight, queued. cbn [totalLoaded initial].
    rewrite !msum_zero; [done| |].
    + intros pid q Hq. cbn in Hq.
      apply elem_of_list_to_map_2, list_elem_of_fmap in Hq as (? & [= _ ->] & _). done.
    + intros w st Hst.
      apply elem_of_list_to_map_2, list_elem_of_fmap in Hst as (? & [= _ ->] & _). done.
  - rewrite pending_next_task, totalLoaded_next_task.
    unfold held. rewrite Hw. cbn. lia.
  - rewrite pending_store_settled, totalLoaded_store_settled.
    unfold held. rewrite Hw. cbn. lia.
  - rewrite pending_store_settled, totalLoaded_store_settled.
    unfold held. rewrite Hw. cbn. lia.
  - rewrite pending_route. cbn [totalLoaded route]. lia.
  - done.
Qed.

Lemma queue_of_start_batch w pid s pid' :
  queue_of (start_batch w pid s) pid'
  = if decide (pid = pid')
    then drop (Z.to_nat (batchSize (Z.of_nat (List.length (queue_of s pid))))) (queue_of s pid)
    else queue_of s pid'.
Proof.
  unfold start_batch, queue_of; cbn.
  destruct (decide (pid = pid')) as [<-|Hne].
  - by rewrite lookup_insert_eq.
  - by rewrite lookup_insert_ne.
Qed.

Lemma queue_of_next_task w s pid :
  queue_of (next_task w s) pid = queue_of s pid
  ∨ ∃ n, queue_of (next_task w s) pid = drop n (queue_of s pid).
Proof.
  unfold next_task.
  destruct (downloadComplete s && negb (hasTasksInQueues s)); [by left|].
  destruct (scan s) as [pid'|]; [|by left].
  rewrite queue_of_start_batch. destruct (decide (pid' = pid)) as [<-|]; [|by left].
  right. by eexists.
Qed.

Lemma queue_of_store_settled ok w pid' batch s pid :
  queue_of (store_settled ok w pid' batch s) pid = queue_of s pid
  ∨ ∃ n, queue_of (store_settled ok w pid' batch s) pid = drop n (queue_of s pid).
Proof.
  unfold store_settled. destruct ok.
  - destruct (nonempty (queue_of s pid')).
    + rewrite queue_of_start_batch. destruct (decide (pid' = pid)) as [<-|]; [|by left].
      right. by eexists.
    + apply (queue_of_next_task w (release pid' (add_loaded (List.length batch) 1 s))).
  - apply (queue_of_next_task w (release pid' s)).
Qed.

Lemma shrunk_nonempty {A} (q q' : list A) :
  q' = q ∨ (∃ n, q' = drop n q) → q' ≠ [] → q ≠ [].
Proof.
  intros [->|[n ->]] Hq; [done|]. intros ->. by rewrite drop_nil in Hq.
Qed.

Lemma shrunk_empty {A} (q q' : list A) :
  q' = q ∨ (∃ n, q' = drop n q) → q = [] → q' = [].
Proof. intros [->|[n ->]] ->; [done|]. by rewrite drop_nil. Qed.

Lemma order_next_task w s : order (next_task w s) = order s.
Proof.
  unfold next_task.
  destruct (downloadComplete s && negb (hasTasksInQueues s)); [done|].
  by destruct (scan s).
Qed.

Lemma order_store_settled ok w pid batch s :
  order (store_settled ok w pid batch s) = order s.
Proof.
  unfold store_settled. destruct ok.
  - destruct (nonempty (queue_of s pid)); [done|]. by rewrite order_next_task.
  - by rewrite order_next_task.
Qed.

Lemma downloadComplete_next_task w s :
  downloadComplete (next_task w s) = downloadComplete s.
Proof.
  unfold next_task.
  destruct (downloadComplete s && negb (hasTasksInQueues s)); [done|].
  by destruct (scan s).
Qed.

Lemma downloadComplete_store_settled ok w pid batch s :
  downloadComplete (store_settled ok w pid batch s) = downloadComplete s.
Proof.
  unfold store_settled. destruct ok.
  - destruct (nonempty (queue_of s pid)); [done|]. by rewrite downloadComplete_next_task.
  - by rewrite downloadComplete_next_task.
Qed.

Lemma counted_queues_registered partitions s routed dropped :
  counted partitions s routed dropped → queues_registered s.
Proof.
  unfold queues_registered.
  induction 1 as [|s routed dropped w Hc IH Hw|s routed dropped w pid batch Hc IH Hw
                  |s routed dropped w pid batch Hc IH Hw|s routed dropped pid rs Hc IH Hpid Hdl
                  |s routed dropped Hc IH]; intros p Hp.
  - exfalso. apply Hp. unfold queue_of, initial; cbn.
    destruct (list_to_map _ !! p) as [q|] eqn:Hq; [|done].
    by apply elem_of_list_to_map_2, list_elem_of_fmap in Hq as (? & [= _ ->] & _).
  - rewrite order_next_task. apply IH.
    eapply shrunk_nonempty; [|done]. apply queue_of_next_task.
  - rewrite order_store_settled. apply IH.
    eapply shrunk_nonempty; [|done]. apply queue_of_store_settled.
  - rewrite order_store_settled. apply IH.
    eapply shrunk_nonempty; [|done]. apply queue_of_store_settled.
  - cbn [order route]. destruct (decide (pid = p)) as [<-|Hne]; [done|].
    apply IH. unfold queue_of, route in Hp; cbn in Hp.
    by rewrite lookup_insert_ne in Hp.
  - by apply IH.
Qed.

Lemma no_tasks_queues_empty s :
  queues_registered s → hasTasksInQueues s = false → ∀ pid, queue_of s pid = [].
Proof.
  intros Hreg Hno pid. unfold hasTasksInQueues in Hno.
  destruct (queue_of s pid) as [|r q] eqn:Hq; [done|].
  assert (pid ∈ order s) as Hin by (apply Hreg; by rewrite Hq).
  assert (existsb (λ pid, nonempty (queue_of s pid)) (order s) = true) as Hex.
  { apply existsb_exists. exists pid. split; [by apply list_elem_of_In|]. by rewrite Hq. }
  congruence.
Qed.

Lemma queues_empty_no_tasks s :
  (∀ pid, queue_of s pid = []) → hasTasksInQueues s = false.
Proof.
  intros Hq. unfold hasTasksInQueues.
  destruct (existsb _ _) eqn:Hex; [|done].
  apply existsb_exists in Hex as (pid & _ & Hne). by rewrite Hq in Hne.
Qed.

Lemma exited_before_next_task w s w' :
  workers s !! w = Some Sleeping ∨ (∃ pid b, workers s !! w = Some (Storing pid b)) →
  workers (next_task w s) !! w' = Some Exited →
  workers s !! w' = Some Exited
  ∨ (downloadComplete s = true ∧ hasTasksInQueues s = false).
Proof.
  intros Hw. unfold next_task.
  destruct (downloadComplete s) eqn:Hd, (hasTasksInQueues s) eqn:Hh; cbn [andb negb];
    try (by right);
    (destruct (scan s) as [pid|]; cbn;
      (destruct (decide (w = w')) as [<-|Hne];
        [by rewrite lookup_insert_eq|rewrite lookup_insert_ne by done; by left])).
Qed.

Lemma counted_drained partitions s routed dropped :
  counted partitions s routed dropped → drained s.
Proof.
  intros Hc. pose proof (counted_queues_registered _ _ _ _ Hc) as Hreg. revert Hreg.
  unfold drained.
  induction Hc as [|s routed dropped w Hc IH Hw|s routed dropped w pid batch Hc IH Hw
                  |s routed dropped w pid batch Hc IH Hw|s routed dropped pid rs Hc IH Hpid Hdl
                  |s routed dropped Hc IH]; intros Hreg [w' Hw'].
  - apply elem_of_list_to_map_2, list_elem_of_fmap in Hw' as (? & [=] & _).
  - pose proof (counted_queues_registered _ _ _ _ Hc) as Hreg0.
    rewrite downloadComplete_next_task.
    apply exited_before_next_task in Hw' as [Hex|[Hd Hh]]; [| |by left].
    + destruct (IH Hreg0) as [Hd Hq]; [by eexists|]. split; [done|].
      intros pid. eapply shrunk_empty; [apply queue_of_next_task|apply Hq].
    + split; [done|]. intros pid.
      eapply shrunk_empty; [apply queue_of_next_task|by apply no_tasks_queues_empty].
  - pose proof (counted_queues_registered _ _ _ _ Hc) as Hreg0.
    rewrite downloadComplete_store_settled.
    assert (workers s !! w' = Some Exited
            ∨ (downloadComplete s = true ∧ hasTasksInQueues s = false)) as [Hex|[Hd Hh]].
    { unfold store_settled in Hw'. destruct (nonempty (queue_of s pid)).
      - left. unfold start_batch in Hw'; cbn in Hw'.
        destruct (decide (w = w')) as [<-|Hne]; [by rewrite lookup_insert_eq in Hw'|].
        by rewrite lookup_insert_ne in Hw'.
      - apply exited_before_next_task in Hw'; [|right; by exists pid, batch].
        destruct Hw' as [?|[? Hh]]; [by left|right]. split; [done|].
        apply queues_empty_no_tasks. intros p.
        apply (no_tasks_queues_empty _ (λ p Hp, Hreg0 p Hp)) with (pid := p) in Hh as Hp.
        + done.
    }
    + destruct (IH Hreg0) as [Hd Hq]; [by eexists|]. split; [done|].
      intros p. eapply shrunk_empty; [apply queue_of_store_settled|apply Hq].
    + split; [done|]. intros p.
      eapply shrunk_empty; [apply queue_of_store_settled|by apply no_tasks_queues_empty].
  - pose proof (counted_queues_registered _ _ _ _ Hc) as Hreg0.
    rewrite downloadComplete_store_settled.
    assert (workers s !! w' = Some Exited
            ∨ (downloadComplete s = true ∧ hasTasksInQueues s = false)) as [Hex|[Hd Hh]].
    { unfold store_settled in Hw'.
      apply exited_before_next_task in Hw'; [|right; by exists pid, batch].
      destruct Hw' as [?|[? Hh]]; [by left|by right]. }
    + destruct (IH Hreg0) as [Hd Hq]; [by eexists|]. split; [done|].
      intros p. eapply shrunk_empty; [apply queue_of_store_settled|apply Hq].
    + split; [done|]. intros p.
      eapply shrunk_empty; [apply queue_of_store_settled|by apply no_tasks_queues_empty].
  - pose proof (counted_queues_registered _ _ _ _ Hc) as Hreg0.
    destruct (IH Hreg0) as [Hd _]; [by exists w'|]. congruence.
  - pose proof (counted_queues_registered _ _ _ _ Hc) as Hreg0.
    destruct (IH Hreg0) as [_ Hq]; [by exists w'|]. done.
Qed.

Lemma counted_loaded_nonneg partitions s routed dropped :
  counted partitions s routed dropped → 0 ≤ totalLoaded s.
Proof.
  induction 1; rewrite ?totalLoaded_next_task, ?totalLoaded_store_settled; cbn; lia.
Qed.

Lemma counted_worker_present partitions s routed dropped :
  counted partitions s routed dropped → is_Some (workers s !! 1%nat).
Proof.
  assert (∀ w s0, is_Some (workers s0 !! 1%nat) →
                  is_Some (workers (next_task w s0) !! 1%nat)) as Hn.
  { intros w s0 Hs. unfold next_task.
    destruct (downloadComplete s0 && negb (hasTasksInQueues s0));
      [|destruct (scan s0)]; cbn; apply lookup_insert_is_Some';
      by right. }
  induction 1 as [|s routed dropped w Hc IH Hw|s routed dropped w pid batch Hc IH Hw
                  |s routed dropped w pid batch Hc IH Hw|s routed dropped pid rs Hc IH Hpid Hdl
                  |s routed dropped Hc IH]; try done.
  - by apply Hn.
  - unfold store_settled. destruct (nonempty (queue_of s pid)).
    + cbn. apply lookup_insert_is_Some'. by right.
    + by apply Hn.
  - by apply Hn.
Qed.

(** X11. Records are conserved by the pipeline of [parallelShardedLoad]: at
    every await, the records written so far ([totalLoaded]), those in writes
    in flight, those waiting in the queues and those of batches whose write
    was rejected add up to the records the download workers routed; so
    [totalLoaded] never exceeds what was downloaded. *)
Theorem records_are_conserved (partitions : list string) (s : Pool) (routed dropped : Z) :
  counted partitions s routed dropped →
  totalLoaded s + inflight s + queued s + dropped = routed
  ∧ 0 ≤ dropped
  ∧ 0 ≤ totalLoaded s ≤ routed.
Proof.
  intros Hc. destruct (counted_balance _ _ _ _ Hc) as [Hb Hd].
  pose proof (counted_loaded_nonneg _ _ _ _ Hc).
  pose proof (inflight_nonneg s). pose proof (queued_nonneg s).
  unfold pending in Hb. lia.
Qed.

(** X12. When all storage workers have left their loop (the point where
    [await Promise.all(storageWorkers)] returns), the downloads were
    complete, every queue is empty, no partition is locked, and the
    [totalLoaded] that is reported as [totalCount] is the number of records
    downloaded less those of the batches whose write was rejected: these are
    in no queue any more and are not retried. *)
Theorem load_returns_accounted (partitions : list string) (s : Pool) (routed dropped : Z) :
  counted partitions s routed dropped →
  all_exited s →
  downloadComplete s = true
  ∧ (∀ pid, queue_of s pid = [])
  ∧ hasTasksInQueues s = false
  ∧ lockedPartitions s = ∅
  ∧ totalLoaded s = routed - dropped.
Proof.
  intros Hc Hall.
  assert (∀ w st, workers s !! w = Some st → st = Exited) as Hex.
  { intros w st Hw. apply Hall in Hw. by destruct st. }
  destruct (counted_worker_present _ _ _ _ Hc) as [st Hst].
  pose proof (Hex _ _ Hst) as ->.
  destruct (counted_drained _ _ _ _ Hc) as [Hd Hq]; [by eexists|].
  split; [done|]. split; [done|]. split; [by apply queues_empty_no_tasks|].
  split.
  - apply elem_of_equiv_empty_L. intros pid Hpid.
    destruct (LoaderFacts.reachable_disciplined _ _ (counted_reachable _ _ _ _ Hc))
      as (_ & _ & H3).
    destruct (H3 pid Hpid) as (w & b & Hw). by apply Hex in Hw.
  - destruct (counted_balance _ _ _ _ Hc) as [Hb _].
    assert (pending s = 0) as Hp; [|lia].
    unfold pending, inflight, queued. rewrite !msum_zero; [done| |].
    + intros pid q Hpq. specialize (Hq pid). unfold queue_of in Hq.
      rewrite Hpq in Hq. cbn in Hq. by rewrite Hq.
    + intros w st' Hw. by rewrite (Hex _ _ Hw).
Qed.

Lemma batchSize_bounds len :
  1 ≤ len → 1 ≤ batchSize len ≤ len ∧ batchSize len ≤ MIN_BATCH_SIZE.
Proof.
  intros Hlen. unfold batchSize, MIN_BATCH_SIZE.
  destruct (10 * len <=? 50000 * 4) eqn:Hle; lia.
Qed.

Lemma start_batch_well_sized w pid s :
  queue_of s pid ≠ [] → well_sized s → well_sized (start_batch w pid s).
Proof.
  intros Hq Hs w' pid' b. unfold start_batch; cbn.
  destruct (decide (w = w')) as [<-|Hne].
  - rewrite lookup_insert_eq. intros [= <- <-].
    destruct (queue_of s pid) as [|r q] eqn:Hqq; [done|].
    destruct (batchSize_bounds (Z.of_nat (List.length (r :: q)))) as [[H1 H2] H3];
      [cbn; lia|].
    split.
    + destruct (Z.to_nat _) eqn:Hn; [lia|done].
    + rewrite length_take. lia.
  - rewrite lookup_insert_ne by done. apply Hs.
Qed.

Lemma set_worker_well_sized w st s :
  (∀ pid b, st ≠ Storing pid b) → well_sized s → well_sized (set_worker w st s).
Proof.
  intros Hst Hs w' pid b. unfold set_worker; cbn.
  destruct (decide (w = w')) as [<-|Hne].
  - rewrite lookup_insert_eq. intros [= ->]. by destruct (Hst pid b).
  - rewrite lookup_insert_ne by done. apply Hs.
Qed.

Lemma nonempty_true {A} (l : list A) : nonempty l = true → l ≠ [].
Proof. by destruct l. Qed.

Lemma next_task_well_sized w s : well_sized s → well_sized (next_task w s).
Proof.
  intros Hs. unfold next_task.
  destruct (downloadComplete s && negb (hasTasksInQueues s)).
  { by apply set_worker_well_sized. }
  destruct (scan s) as [pid|] eqn:Hscan.
  - apply start_batch_well_sized; [|done].
    apply find_some in Hscan as [_ Hc]. unfold claimable in Hc.
    apply andb_prop in Hc as [Hc _]. by apply nonempty_true.
  - by apply set_worker_well_sized.
Qed.

Lemma step_well_sized s s' : step s s' → well_sized s → well_sized s'.
Proof.
  intros [s0 w Hw|s0 w pid batch ok Hw|s0 pid rs Hpid|s0] Hs.
  - by apply next_task_well_sized.
  - unfold store_settled. destruct ok.
    + destruct (nonempty (queue_of s0 pid)) eqn:Hq.
      * apply start_batch_well_sized; [by apply nonempty_true|done].
      * by apply next_task_well_sized.
    + by apply next_task_well_sized.
  - done.
  - done.
Qed.

Lemma step_exits_late s s' :
  step s s' →
  (∀ w, workers s !! w = Some Exited → downloadComplete s = true) →
  (∀ w, workers s' !! w = Some Exited → downloadComplete s' = true).
Proof.
  intros [s0 w Hw|s0 w pid batch ok Hw|s0 pid rs Hpid|s0] Hs w' Hw'.
  - rewrite downloadComplete_next_task.
    apply exited_before_next_task in Hw' as [Hex|[Hd _]]; [by eapply Hs|done|by left].
  - rewrite downloadComplete_store_settled.
    unfold store_settled in Hw'.
    assert (workers s0 !! w' = Some Exited ∨ downloadComplete s0 = true) as [?|?];
      [|by eapply Hs|done].
    destruct ok; [destruct (nonempty (queue_of s0 pid))|].
    + left. unfold start_batch in Hw'; cbn in Hw'.
      destruct (decide (w = w')) as [<-|Hne]; [by rewrite lookup_insert_eq in Hw'|].
      by rewrite lookup_insert_ne in Hw'.
    + apply exited_before_next_task in Hw' as [?|[? _]];
        [by left|by right|right; by exists pid, batch].
    + apply exited_before_next_task in Hw' as [?|[? _]];
        [by left|by right|right; by exists pid, batch].
  - by eapply Hs.
  - done.
Qed.

(** X13. [storePartitionedBatch] is never called with an empty batch nor
    with more than [MIN_BATCH_SIZE] records, and a storage worker is past
    its loop only after the downloads were declared complete. *)
Theorem writes_are_well_sized (partitions : list string) (s : Pool) :
  reachable partitions s →
  (∀ w pid batch, workers s !! w = Some (Storing pid batch) →
     batch ≠ [] ∧ Z.of_nat (List.length batch) ≤ 50000)
  ∧ (∀ w, workers s !! w = Some Exited → downloadComplete s = true).
Proof.
  unfold reachable. revert s.
  apply (rtc_ind_r (R := step)
           (λ s, well_sized s
                 ∧ ∀ w, workers s !! w = Some Exited → downloadComplete s = true)).
  - split.
    + intros w pid b Hw.
      by apply elem_of_list_to_map_2, list_elem_of_fmap in Hw as (? & [=] & _).
    + intros w Hw.
      by apply elem_of_list_to_map_2, list_elem_of_fmap in Hw as (? & [=] & _).
  - intros s s' _ Hstep [IH1 IH2]. split.
    + by eapply step_well_sized.
    + by eapply step_exits_late.
Qed.

Lemma counted_routed_state : counted [quarter] routed_state 2 0.
Proof.
  apply (counted_route [quarter] (initial [quarter]) 0 0 quarter downloaded).
  - apply counted_initial.
  - apply list_elem_of_here.
  - done.
Qed.

Lemma counted_writing_state : counted [quarter] writing_state 2 0.
Proof. apply counted_wake; [apply counted_routed_state|done]. Qed.

Lemma counted_written_state : counted [quarter] written_state 2 0.
Proof.
  apply (counted_stored [quarter] writing_state 2 0 1 quarter downloaded);
    [apply counted_writing_state|done].
Qed.

Lemma counted_returned_state : counted [quarter] returned_state 2 0.
Proof.
  unfold returned_state.
  apply counted_wake; [apply counted_wake; [apply counted_wake|]|]; try done.
  apply counted_finish, counted_written_state.
Qed.

Lemma records_are_conserved_witness :
  totalLoaded writing_state + inflight writing_state + queued writing_state + 0 = 2
  ∧ 0 ≤ 0 ∧ 0 ≤ totalLoaded writing_state ≤ 2.
Proof. apply (records_are_conserved [quarter]), counted_writing_state. Defined.

Lemma load_returns_accounted_witness :
  downloadComplete returned_state = true
  ∧ (∀ pid, queue_of returned_state pid = [])
  ∧ hasTasksInQueues returned_state = false
  ∧ lockedPartitions returned_state = ∅
  ∧ totalLoaded returned_state = 2 - 0.
Proof.
  apply (load_returns_accounted [quarter]); [apply counted_returned_state|].
  unfold all_exited.
  apply (bool_decide_unpack (map_Forall (λ _ st, is_exited st = true) (workers returned_state))).
  by vm_compute.
Defined.

Lemma writes_are_well_sized_witness :
  (∀ w pid batch, workers writing_state !! w = Some (Storing pid batch) →
     batch ≠ [] ∧ Z.of_nat (List.length batch) ≤ 50000)
  ∧ (∀ w, workers writing_state !! w = Some Exited →
       downloadComplete writing_state = true).
Proof.
  apply (writes_are_well_sized [quarter]).
  eapply counted_reachable, counted_writing_state.
Defined.

Lemma fetch_step_claims shards f f' :
  fetch_step f f' → claims_in_order shards f → claims_in_order shards f'.
Proof.
  intros [f0 w Hw|f0 w i Hw] (Hn & Hc & Hle & Hlt & Hone & Hfin).
  - unfold resume_download. destruct (index f0 <? shardCount f0)%nat eqn:Hi.
    + apply Nat.ltb_lt in Hi.
      split; [done|]. split; [|split; [cbn; lia|split; [|split]]];
        cbn [claimed index downloaders shardCount].
      * by rewrite seq_S, reverse_app, Hc.
      * intros w' i. destruct (decide (w = w')) as [<-|Hne].
        -- rewrite lookup_insert_eq. intros [= <-]. lia.
        -- rewrite lookup_insert_ne by done. intros Hw'. apply Hlt in Hw'. lia.
      * intros w1 w2 i.
        destruct (decide (w = w1)) as [<-|Hn1], (decide (w = w2)) as [<-|Hn2];
          rewrite ?lookup_insert_eq, ?(lookup_insert_ne _ _ _ _ Hn1),
                  ?(lookup_insert_ne _ _ _ _ Hn2); try done.
        -- intros [= <-] Hw2. apply Hlt in Hw2. lia.
        -- intros Hw1 [= <-]. apply Hlt in Hw1. lia.
        -- apply Hone.
      * intros w'. destruct (decide (w = w')) as [<-|Hne].
        -- by rewrite lookup_insert_eq.
        -- rewrite lookup_insert_ne by done. intros Hw'. apply Hfin in Hw'. lia.
    + apply Nat.ltb_ge in Hi.
      split; [done|]. split; [done|]. split; [done|]. cbn. split; [|split].
      * intros w' i. destruct (decide (w = w')) as [<-|Hne].
        -- by rewrite lookup_insert_eq.
        -- rewrite lookup_insert_ne by done. apply Hlt.
      * intros w1 w2 i.
        destruct (decide (w = w1)) as [<-|Hn1], (decide (w = w2)) as [<-|Hn2];
          rewrite ?lookup_insert_eq, ?(lookup_insert_ne _ _ _ _ Hn1),
                  ?(lookup_insert_ne _ _ _ _ Hn2); try done.
        apply Hone.
      * intros _ _. lia.
  - unfold fetch_settled.
    split; [done|]. split; [done|]. split; [done|]. cbn. split; [|split].
    + intros w' i'. destruct (decide (w = w')) as [<-|Hne].
      * by rewrite lookup_insert_eq.
      * rewrite lookup_insert_ne by done. apply Hlt.
    + intros w1 w2 i'.
      destruct (decide (w = w1)) as [<-|Hn1], (decide (w = w2)) as [<-|Hn2];
        rewrite ?lookup_insert_eq, ?(lookup_insert_ne _ _ _ _ Hn1),
                ?(lookup_insert_ne _ _ _ _ Hn2); try done.
      apply Hone.
    + intros w'. destruct (decide (w = w')) as [<-|Hne].
      * by rewrite lookup_insert_eq.
      * rewrite lookup_insert_ne by done. apply Hfin.
Qed.

Lemma fetch_initial_claims shards concurrency :
  claims_in_order shards (fetch_initial shards concurrency).
Proof.
  split; [done|]. split; [done|]. split; [cbn; lia|]. cbn.
  split; [|split].
  - intros w i Hw.
    by apply elem_of_list_to_map_2, list_elem_of_fmap in Hw as (? & [=] & _).
  - intros w1 w2 i Hw.
    by apply elem_of_list_to_map_2, list_elem_of_fmap in Hw as (? & [=] & _).
  - intros w Hw.
    by apply elem_of_list_to_map_2, list_elem_of_fmap in Hw as (? & [=] & _).
Qed.

(** X14. The download workers share the shards without a lock: however
    their awaits interleave, the shards are claimed in order, each at most
    once, no two fetches in flight are for the same shard, and when a
    worker has left its loop every shard has been claimed. *)
Theorem each_shard_is_claimed_once (shards concurrency : nat) (f : Fetch) :
  rtc fetch_step (fetch_initial shards concurrency) f →
  claimed f = reverse (seq 0 (index f))
  ∧ NoDup (claimed f)
  ∧ (∀ i, i ∈ claimed f → (i < shards)%nat)
  ∧ (∀ w1 w2 i, downloaders f !! w1 = Some (Fetching i) →
       downloaders f !! w2 = Some (Fetching i) → w1 = w2)
  ∧ (∀ w, downloaders f !! w = Some Finished →
       ∀ i, (i < shards)%nat → i ∈ claimed f).
Proof.
  intros Hrun.
  assert (claims_in_order shards f) as (Hn & Hc & Hle & Hlt & Hone & Hfin).
  { revert f Hrun. apply (rtc_ind_r (R := fetch_step) (claims_in_order shards)).
    - apply fetch_initial_claims.
    - intros f f' _ Hstep IH. by eapply fetch_step_claims. }
  split; [done|]. rewrite Hc. split; [|split; [|split; [done|]]].
  - rewrite reverse_Permutation. apply NoDup_seq.
  - intros i Hi. apply elem_of_reverse, elem_of_seq in Hi. lia.
  - intros w Hw i Hi. apply elem_of_reverse, elem_of_seq.
    rewrite (Hfin w Hw). lia.
Qed.

Lemma each_shard_is_claimed_once_witness :
  let f := resume_download 2 (resume_download 1 (fetch_initial 3 2)) in
  claimed f = reverse (seq 0 (index f))
  ∧ NoDup (claimed f)
  ∧ (∀ i, i ∈ claimed f → (i < 3)%nat)
  ∧ (∀ w1 w2 i, downloaders f !! w1 = Some (Fetching i) →
       downloaders f !! w2 = Some (Fetching i) → w1 = w2)
  ∧ (∀ w, downloaders f !! w = Some Finished →
       ∀ i, (i < 3)%nat → i ∈ claimed f).
Proof.
  apply (each_shard_is_claimed_once 3 2).
  eapply rtc_l; [by apply (fetch_resume _ 1)|].
  eapply rtc_l; [by apply (fetch_resume _ 2)|].
  done.
Defined.

End LoaderMoreFacts.

(** ** Reading a time window: results *)

Module QueryFacts.
Import Js JsDate Cache Query Examples.

Lemma getAll_stored db :
  getAll db ≡ₚ (map_to_list (allDataCache db)).*2.
Proof. unfold getAll. by rewrite merge_sort_Permutation. Qed.

Lemma elem_of_getAll db r :
  r ∈ getAll db ↔ ∃ k, allDataCache db !! k = Some r.
Proof.
  rewrite getAll_stored, list_elem_of_fmap. split.
  - intros ([k r'] & -> & Hkr). exists k. by apply elem_of_map_to_list.
  - intros [k Hk]. exists (k, r). split; [done|]. by apply elem_of_map_to_list.
Qed.

Lemma in_window_open P f r :
  truthy (startDate f) = false → truthy (endDate f) = false → in_window P f r = true.
Proof. unfold in_window. by intros -> ->. Qed.

Lemma elem_of_queryAllData P f db r :
  r ∈ queryAllData P f db
  ↔ (∃ k, allDataCache db !! k = Some r) ∧ in_window P f r = true.
Proof.
  unfold queryAllData. cbv zeta.
  destruct (truthy (startDate f) || truthy (endDate f)) eqn:Hf.
  - rewrite list_elem_of_In, filter_In, <- list_elem_of_In, elem_of_getAll. done.
  - apply orb_false_elim in Hf as [Hs He].
    rewrite elem_of_getAll, in_window_open by done. tauto.
Qed.

Lemma filter_all {A} (p : A → bool) (l : list A) :
  (∀ x, p x = true) → List.filter p l = l.
Proof. intros Hp. induction l as [|x l IH]; cbn; [done|]. by rewrite Hp, IH. Qed.

Lemma unreadable_bound P (v : jsval) h mi s ms :
  (∀ str, v = JString str → List.length (split_on "-" str) ≠ 3%nat) →
  parseLocalDateToTimestamp P v h mi s ms = Num 0.
Proof.
  intros Hv. unfold parseLocalDateToTimestamp.
  destruct (truthy v); [|done]. cbn.
  destruct v as [| | | |str|]; try done.
  specialize (Hv str eq_refl).
  by destruct (split_on "-" str) as [|p0 [|p1 [|p2 [|p3 l]]]].
Qed.

Lemma Date_fields_NaN P y mo d h mi s ms :
  y = NaN ∨ mo = NaN ∨ d = NaN → Date_fields P y mo d h mi s ms = NaN.
Proof. intros [-> | [-> | ->]]; [done| |]; destruct y; try done; by destruct mo. Qed.

Lemma js_lt_NaN a : js_lt a NaN = false.
Proof. by destruct a. Qed.

(** X15. What [queryAllData] does with dates it cannot read.  Without
    dates it returns every stored record once.  An end date that is not a
    string of three parts separated by [-] (such as 2025/10/31, or a number)
    is taken as the epoch: no record with a time after 1970 is returned,
    and no error is raised.  A start date of three parts one of which is not
    a number filters nothing. *)
Theorem query_with_unreadable_dates (P : Platform) (f : Filters) (db : DB) :
  getAll db ≡ₚ (map_to_list (allDataCache db)).*2
  ∧ (truthy (startDate f) = false → truthy (endDate f) = false →
       queryAllData P f db = getAll db)
  ∧ (truthy (endDate f) = true →
     (∀ str, endDate f = JString str → List.length (split_on "-" str) ≠ 3%nat) →
     (∀ r, r ∈ queryAllData P f db → js_lt (Num 0) (ToNumber P (recordTime P r)) = false)
     ∧ (∀ k r t, allDataCache db !! k = Some r →
          get r "timestamp" = JNumber (Num t) → 0 < t → r ∉ queryAllData P f db))
  ∧ (∀ a p0 p1 p2, startDate f = JString a → split_on "-" a = [p0; p1; p2] →
       parseInt p0 = NaN ∨ parseInt p1 = NaN ∨ parseInt p2 = NaN →
       truthy (endDate f) = false →
       queryAllData P f db = getAll db).
Proof.
  split; [apply getAll_stored|]. split; [|split].
  - intros Hs He. unfold queryAllData. by rewrite Hs, He.
  - intros He Hparts.
    assert (∀ r, r ∈ queryAllData P f db →
                 js_lt (Num 0) (ToNumber P (recordTime P r)) = false) as Hnone.
    { intros r [_ Hw]%elem_of_queryAllData. unfold in_window in Hw. cbv zeta in Hw.
      rewrite He, (unreadable_bound P (endDate f)) in Hw by done.
      destruct (truthy (startDate f) && _); [done|].
      cbn [andb] in Hw. by destruct (js_lt (Num 0) _). }
    split; [done|].
    intros k r t Hk Ht Hpos Hin. apply Hnone in Hin.
    unfold recordTime, js_or in Hin. rewrite Ht in Hin. cbn in Hin.
    destruct (t =? 0) eqn:H0; [lia|]. cbn in Hin. lia.
  - intros a p0 p1 p2 Ha Hsplit Hnan He.
    unfold queryAllData. cbv zeta. rewrite He, orb_false_r.
    destruct (truthy (startDate f)) eqn:Hs; [|done].
    apply filter_all. intros r. unfold in_window. cbv zeta.
    rewrite He, Hs. cbn [andb].
    unfold parseLocalDateToTimestamp at 1. rewrite Hs, Ha, Hsplit. cbn [negb].
    rewrite Date_fields_NaN, js_lt_NaN; [done|].
    destruct Hnan as [-> | [-> | ->]]; auto.
Qed.

Lemma query_with_unreadable_dates_witness :
  let f := mkFilters JUndefined (JString "2025/10/31") in
  let db := (appendData utc8 1759000000000 [plan "P-1" "2025-10-01 08:00:00"] emptyDB).1 in
  (∀ r, r ∈ queryAllData utc8 f db →
        js_lt (Num 0) (ToNumber utc8 (recordTime utc8 r)) = false)
  ∧ (∀ k r t, allDataCache db !! k = Some r →
       get r "timestamp" = JNumber (Num t) → 0 < t → r ∉ queryAllData utc8 f db).
Proof.
  intros f db.
  destruct (query_with_unreadable_dates utc8 f db) as (_ & _ & H & _).
  apply H; [done|]. intros str [= <-]. by vm_compute.
Defined.

Section FixedOffset.
Context (P : Platform) (tz : Z).
Hypothesis fixed_offset : ∀ t, LocalTZA P t = tz.
Hypothesis offset_small : Z.abs tz ≤ msPerDay.

Lemma TimeClip_local day tod :
  Z.abs day ≤ 99999998 → 0 ≤ tod < msPerDay →
  TimeClip (UTC P (MakeDate day tod)) = Num (day * msPerDay + tod - tz).
Proof.
  intros Hday Htod. unfold TimeClip, UTC, MakeDate. rewrite fixed_offset.
  unfold msPerDay in *.
  destruct (Z.abs (day * 86400000 + tod - tz) >? 8640000000000000) eqn:Hc; [lia|done].
Qed.

Lemma filter_bound a y m d h mi s ms :
  filter_date a = Some (y, m, d) →
  Z.abs (day_number y m d) ≤ 99999998 →
  0 ≤ MakeTime h mi s ms < msPerDay →
  parseLocalDateToTimestamp P (JString a) h mi s ms
  = Num (day_number y m d * msPerDay + MakeTime h mi s ms - tz).
Proof.
  intros Ha Hday Htod. unfold filter_date in Ha. unfold parseLocalDateToTimestamp.
  destruct a as [|c a]; [done|]. cbn [truthy String.eqb negb].
  destruct (split_on "-" (String c a)) as [|p0 [|p1 [|p2 [|p3 l]]]]; try done.
  destruct (parseInt p0) as [y'|], (parseInt p1) as [m'|], (parseInt p2) as [d'|];
    try done.
  injection Ha as -> -> ->. cbn [Date_fields num_sub].
  by apply TimeClip_local.
Qed.

Lemma match_date_nonempty s x : match_date s = Some x → s ≠ "".
Proof. by intros H ->. Qed.

Lemma record_time s day tod :
  wall_clock s = Some (day, tod) →
  Z.abs day ≤ 99999998 → 0 ≤ tod < msPerDay →
  parseTimeToTimestamp P (JString s) = Num (day * msPerDay + tod - tz).
Proof.
  intros Hs Hday Htod. unfold wall_clock in Hs.
  destruct (match_date (clean s)) as [[[[y m] d] rest]|] eqn:Hm; [|done].
  cbn in Hs. cbn [parseTimeToTimestamp]. unfold parseLocalTime.
  destruct (String.eqb (clean s) "") eqn:He.
  { apply String.eqb_eq in He. by destruct (match_date_nonempty _ _ Hm). }
  rewrite Hm. unfold date_of_captures.
  destruct (match match_time rest with
            | Some (h, mi, se) =>
                (parseInt_digits h, parseInt_digits mi, parseInt_digits se)
            | None => (0, 0, 0)
            end) as [[h mi] se].
  injection Hs as <- <-. cbn [Date_local].
  fold (day_number (parseInt_digits y) (parseInt_digits m) (parseInt_digits d)).
  by rewrite TimeClip_local.
Qed.

(** X16. Where the offset of local time from UTC is fixed, a query by date
    range returns a stored record whose [timestamp] is the one [appendData]
    derives from the digits of its [start_time] exactly when the calendar
    day of that [start_time] lies between the start date and the end date,
    both included, whatever the time of day (all days within the range of
    [Date]). *)
Theorem query_day_window (db : DB) (a b s : string) (k : idbkey) (r : record)
    (ya ma da yb mb db' day tod : Z) :
  allDataCache db !! k = Some r →
  get r "start_time" = JString s →
  get r "timestamp" = JNumber (parseTimeToTimestamp P (JString s)) →
  wall_clock s = Some (day, tod) →
  filter_date a = Some (ya, ma, da) →
  filter_date b = Some (yb, mb, db') →
  0 ≤ tod < msPerDay →
  Z.abs day ≤ 99999998 →
  Z.abs (day_number ya ma da) ≤ 99999998 →
  Z.abs (day_number yb mb db') ≤ 99999998 →
  r ∈ queryAllData P (mkFilters (JString a) (JString b)) db
  ↔ day_number ya ma da ≤ day ≤ day_number yb mb db'.
Proof.
  intros Hk Hst Hts Hs Ha Hb Htod Hday Hda Hdb.
  rewrite elem_of_queryAllData.
  assert (in_window P (mkFilters (JString a) (JString b)) r = true
          ↔ day_number ya ma da ≤ day ≤ day_number yb mb db') as <-;
    [|split; [by intros [_ ?]|intros ?; split; [by exists k|done]]].
  unfold in_window. cbv zeta. cbn [startDate endDate].
  rewrite (filter_bound a ya ma da 0 0 0 0 Ha Hda) by (unfold MakeTime, msPerDay; lia).
  rewrite (filter_bound b yb mb db' 23 59 59 999 Hb Hdb)
    by (unfold MakeTime, msPerDay; lia).
  assert (ToNumber P (recordTime P r) = Num (day * msPerDay + tod - tz)) as ->.
  { unfold recordTime, js_or. rewrite Hts, Hst.
    rewrite (record_time s day tod Hs Hday Htod). by destruct (truthy _). }
  assert (truthy (JString a) = true) as ->.
  { destruct a; [done|]. done. }
  assert (truthy (JString b) = true) as ->.
  { destruct b; [done|]. done. }
  cbn [andb js_lt].
  change (MakeTime 0 0 0 0) with 0. change (MakeTime 23 59 59 999) with 86399999.
  unfold msPerDay in *.
  destruct (_ <? _) eqn:H1.
  { apply Z.ltb_lt in H1. split; [done|lia]. }
  apply Z.ltb_ge in H1.
  destruct (_ <? _) eqn:H2.
  { apply Z.ltb_lt in H2. split; [done|lia]. }
  apply Z.ltb_ge in H2. split; [lia|done].
Qed.

End FixedOffset.

Lemma query_day_window_witness :
  let r := derive_timestamp utc8
             (standardRecord (generated_id 1759000000000)
                (plan "P-1" "2025-10-15 23:59:59")) in
  let db := mkDB {[ KStr "P-1" := r ]} None ∅ ∅ in
  r ∈ queryAllData utc8 (mkFilters (JString "2025-10-15") (JString "2025-10-15")) db
  ↔ day_number 2025 10 15 ≤ 20376 ≤ day_number 2025 10 15.
Proof.
  intros r db.
  assert (Z.abs 28800000 ≤ msPerDay) as Hsmall by (unfold msPerDay; lia).
  apply (query_day_window utc8 28800000 (λ _, eq_refl) Hsmall db
           "2025-10-15" "2025-10-15" "2025-10-15 23:59:59" (KStr "P-1") r
           2025 10 15 2025 10 15 20376 86399000).
  - apply lookup_singleton_eq.
  - vm_compute. reflexivity.
  - vm_compute. reflexivity.
  - vm_compute. reflexivity.
  - vm_compute. reflexivity.
  - vm_compute. reflexivity.
  - unfold msPerDay. lia.
  - lia.
  - vm_compute. discriminate.
  - vm_compute. discriminate.
Defined.

End QueryFacts.

(** ** Reading in batches: results *)

Module BatchesFacts.
Import Js JsDate Cache Query Batches Examples QueryFacts.

Lemma slice_window {A} (l : list A) (i n : Z) :
  0 ≤ i < Z.of_nat (List.length l) → 1 ≤ n →
  slice l i (i + n) = take (Z.to_nat n) (drop (Z.to_nat i) l).
Proof.
  intros Hi Hn. unfold slice. cbv zeta.
  destruct (i <? 0) eqn:H1; [lia|]. destruct (i + n <? 0) eqn:H2; [lia|].
  rewrite (Z.min_l i) by lia.
  destruct (decide (i + n ≤ Z.of_nat (List.length l))) as [Hle|Hgt].
  - rewrite Z.min_l by lia. f_equal. lia.
  - rewrite Z.min_r by lia.
    rewrite !take_ge; [done| |]; rewrite length_drop; lia.
Qed.

Lemma fast_calls_done fuel (l : list record) n i :
  Z.of_nat (List.length l) ≤ i → fast_calls fuel l n i = Some [].
Proof.
  intros Hi. destruct fuel; cbn; by destruct (i <? _) eqn:H; try lia.
Qed.

Lemma fast_calls_eq fuel (l : list record) n i :
  i < Z.of_nat (List.length l) →
  fast_calls (S fuel) l n i
  = calls ← fast_calls fuel l n (i + n);
    Some ((slice l i (i + n), Z.min (i + n) (Z.of_nat (List.length l))) :: calls).
Proof. intros Hi. cbn. by destruct (i <? _) eqn:H; try lia. Qed.

(** What the calls of the fast path are, once the loop has ended. *)
Lemma fast_calls_spec fuel (l : list record) n i cs :
  1 ≤ n → 0 ≤ i →
  fast_calls fuel l n i = Some cs →
  List.concat cs.*1 = drop (Z.to_nat i) l
  ∧ Forall (λ c : call, 1 ≤ Z.of_nat (List.length c.1) ≤ n) cs.
Proof.
  intros Hn. revert i cs. induction fuel as [|fuel IH]; intros i cs Hi Hcs.
  - cbn in Hcs. destruct (i <? _) eqn:H; [done|]. injection Hcs as <-.
    split; [|done]. cbn. rewrite drop_ge; [done|lia].
  - destruct (decide (i < Z.of_nat (List.length l))) as [Hlt|Hge].
    + rewrite fast_calls_eq in Hcs by done.
      destruct (fast_calls fuel l n (i + n)) as [cs'|] eqn:Hrec; [|done].
      cbn in Hcs. injection Hcs as <-.
      destruct (IH (i + n) cs') as [Hcat Hall]; [lia|done|].
      rewrite slice_window by lia. split.
      * cbn. rewrite Hcat.
        replace (Z.to_nat (i + n)) with (Z.to_nat i + Z.to_nat n)%nat by lia.
        by rewrite <- drop_drop, take_drop.
      * constructor; [|done]. cbn. rewrite length_take, length_drop. lia.
    + rewrite fast_calls_done in Hcs by lia. injection Hcs as <-.
      split; [|done]. cbn. rewrite drop_ge; [done|lia].
Qed.

Lemma fast_calls_zero fuel (l : list record) n i :
  n ≤ 0 → i < Z.of_nat (List.length l) → fast_calls fuel l n i = None.
Proof.
  intros Hn. revert i. induction fuel as [|fuel IH]; intros i Hi.
  - cbn. by destruct (i <? _) eqn:H; try lia.
  - rewrite fast_calls_eq by done. rewrite IH by lia. done.
Qed.

Ltac geb H :=
  rewrite Z.geb_leb in H; first [apply Z.leb_le in H | apply Z.leb_gt in H].

Section Cursor.
Context (n : Z).
Hypothesis positive : 1 ≤ n.

Abbreviation run := (fold_left (cursor_value true n)).

Lemma run_short xs rest b t cs :
  Z.of_nat (List.length b + List.length xs) < n →
  run (xs ++ rest) (mkProgress b t cs)
  = run rest (mkProgress (b ++ xs) (t + Z.of_nat (List.length xs)) cs).
Proof.
  revert b t. induction xs as [|x xs IH]; intros b t Hlen.
  - cbn. by rewrite app_nil_r, Z.add_0_r.
  - cbn [app fold_left]. unfold cursor_value at 2. cbn [batch totalLoaded calls].
    destruct (_ >=? _) eqn:Hge.
    { geb Hge. rewrite length_app in Hge. cbn in *. lia. }
    rewrite IH.
    + rewrite <- app_assoc. cbn. do 2 f_equal. lia.
    + rewrite length_app. cbn in *. lia.
Qed.

Lemma run_full v rest b t cs :
  Z.of_nat (List.length b) + 1 = n →
  run (v :: rest) (mkProgress b t cs)
  = run rest (mkProgress [] (t + 1) (cs ++ [(b ++ [v], t + 1)])).
Proof.
  intros Hlen. cbn [fold_left]. unfold cursor_value at 2. cbn [batch totalLoaded calls].
  destruct (_ >=? _) eqn:Hge; [done|].
  geb Hge. rewrite length_app in Hge. cbn in Hge. lia.
Qed.

Lemma run_calls rest b t cs :
  cursor_end true (run rest (mkProgress b t cs))
  = (cs ++ (cursor_end true (run rest (mkProgress b t []))).1,
     t + Z.of_nat (List.length rest)).
Proof.
  revert b t cs. induction rest as [|v rest IH]; intros b t cs.
  - unfold cursor_end. cbn. destruct (Loader.nonempty b); cbn; f_equal; try lia.
    by rewrite app_nil_r.
  - cbn [fold_left]. unfold cursor_value. cbn [batch totalLoaded calls].
    destruct (_ >=? _).
    + rewrite IH. rewrite (IH [] (t + 1) ([] ++ _)). cbn [fst].
      rewrite app_assoc. f_equal. cbn. lia.
    + rewrite IH. f_equal. cbn. lia.
Qed.

Lemma fast_calls_cursor fuel (l : list record) i :
  0 ≤ i → (List.length (drop (Z.to_nat i) l) ≤ fuel)%nat →
  fast_calls fuel l n i
  = Some (cursor_end true (run (drop (Z.to_nat i) l) (mkProgress [] i []))).1.
Proof.
  revert i. induction fuel as [|fuel IH]; intros i Hi Hfuel.
  - rewrite length_drop in Hfuel.
    rewrite fast_calls_done by lia. by rewrite drop_ge by lia.
  - destruct (decide (i < Z.of_nat (List.length l))) as [Hlt|Hge];
      [|rewrite fast_calls_done by lia; by rewrite drop_ge by lia].
    rewrite fast_calls_eq, slice_window by lia.
    set (rest := drop (Z.to_nat i) l) in *.
    assert (Z.of_nat (List.length rest) = Z.of_nat (List.length l) - i) as Hrest
      by (unfold rest; rewrite length_drop; lia).
    assert (drop (Z.to_nat (i + n)) l = drop (Z.to_nat n) rest) as Hdrop.
    { unfold rest. rewrite drop_drop. f_equal. lia. }
    destruct (decide (n ≤ Z.of_nat (List.length rest))) as [Hfull|Hshort].
    + rewrite IH; [|lia|rewrite Hdrop, length_drop; lia]. cbn [mbind option_bind].
      rewrite Hdrop, Z.min_l by lia. f_equal.
      rewrite <- (take_drop (Z.to_nat n) rest) at 3.
      destruct (Z.to_nat n) as [|m] eqn:Hm; [lia|].
      assert (List.length (take (S m) rest) = S m) as Htl
        by (rewrite length_take; lia).
      destruct (take (S m) rest) as [|x xs] eqn:Htake using rev_ind; [done|].
      clear IHxs. rewrite length_app in Htl. cbn in Htl.
      rewrite <- app_assoc. cbn [app].
      rewrite run_short by (cbn; lia).
      rewrite run_full by (cbn; lia). cbn [app].
      replace (i + Z.of_nat (List.length xs) + 1) with (i + n) by lia.
      by rewrite (run_calls _ [] (i + n) [(xs ++ [x], i + n)]).
    + rewrite fast_calls_done by lia. cbn [mbind option_bind].
      rewrite take_ge by lia. rewrite Z.min_r by lia. f_equal.
      rewrite <- (app_nil_r rest) at 2.
      rewrite run_short by (cbn; lia). cbn [fold_left].
      unfold cursor_end. cbn [batch totalLoaded calls].
      cbn [app].
      assert (Loader.nonempty rest = true) as ->
        by (destruct rest; [cbn in Hrest; lia|done]).
      cbn [andb fst]. do 2 f_equal. lia.
Qed.

End Cursor.
Lemma cursor_total n (l : list record) b t cs :
  (cursor_end true (fold_left (cursor_value true n) l (mkProgress b t cs))).2
  = t + Z.of_nat (List.length l).
Proof.
  revert b t cs. induction l as [|v l IH]; intros b t cs.
  - cbn. lia.
  - cbn [fold_left]. unfold cursor_value. cbn [batch totalLoaded calls].
    destruct (_ >=? _); rewrite IH; cbn; lia.
Qed.

Lemma cursor_singletons n (l : list record) t cs :
  n ≤ 0 →
  (cursor_end true (fold_left (cursor_value true n) l (mkProgress [] t cs))).1.*1
  = cs.*1 ++ map (λ v, [v]) l.
Proof.
  intros Hn. revert t cs. induction l as [|v l IH]; intros t cs.
  - cbn. by rewrite app_nil_r.
  - cbn [fold_left]. unfold cursor_value. cbn [batch totalLoaded calls app].
    destruct (_ >=? _) eqn:Hge; [|geb Hge; cbn in Hge; lia].
    rewrite IH, fmap_app. cbn. by rewrite <- app_assoc.
Qed.

Lemma getAll_nonempty db : allDataCache db ≠ ∅ → getAll db ≠ [].
Proof.
  intros Hne Hnil. apply Hne.
  pose proof (getAll_stored db) as Hp. rewrite Hnil in Hp.
  apply Permutation_nil_l in Hp. symmetry in Hp. apply fmap_nil_inv in Hp.
  by apply map_to_list_empty_iff.
Qed.

(** X17. The two ways of reading the whole store in batches agree: for a
    batch size of at least one, [queryAllDataFast] (one [getAll], then
    slices) and its fallback [queryAllDataProgressive] (a cursor that
    collects) make the same calls of [onBatch] with the same running totals
    and resolve with the same count; the batches are never empty nor larger
    than the batch size, and put end to end they are the store in key
    order. *)
Theorem batched_reads_agree (batchSize : Z) (db : DB) (fuel : nat) :
  1 ≤ batchSize →
  (List.length (getAll db) ≤ fuel)%nat →
  ∃ cs : list call,
    queryAllDataFast fuel true batchSize db
      = Some (cs, Z.of_nat (List.length (getAll db)))
    ∧ queryAllDataProgressive true batchSize db
      = (cs, Z.of_nat (List.length (getAll db)))
    ∧ List.concat cs.*1 = getAll db
    ∧ Forall (λ c : call, 1 ≤ Z.of_nat (List.length c.1) ≤ batchSize) cs.
Proof.
  intros Hn Hfuel.
  pose proof (fast_calls_cursor batchSize Hn fuel (getAll db) 0 (Z.le_refl 0)) as Hfast.
  change (drop (Z.to_nat 0) (getAll db)) with (getAll db) in Hfast.
  specialize (Hfast Hfuel).
  eexists. split; [|split].
  - unfold queryAllDataFast. cbv zeta. by rewrite Hfast.
  - unfold queryAllDataProgressive.
    rewrite (surjective_pairing (cursor_end _ _)). f_equal.
    rewrite cursor_total. lia.
  - by destruct (fast_calls_spec _ _ _ _ _ Hn (Z.le_refl 0) Hfast) as [Hcat Hall].
Qed.

(** X18. A batch size of zero or less: on a store that is not empty the
    loop of [queryAllDataFast] never ends, so its promise never settles,
    whereas the fallback hands over the records one by one.  Without an
    [onBatch] the fast path resolves at once with the count. *)
Theorem batched_read_with_no_batch_size (batchSize : Z) (db : DB) :
  batchSize ≤ 0 →
  allDataCache db ≠ ∅ →
  (∀ fuel, queryAllDataFast fuel true batchSize db = None)
  ∧ (queryAllDataProgressive true batchSize db).1.*1 = map (λ v, [v]) (getAll db)
  ∧ (queryAllDataProgressive true batchSize db).2 = Z.of_nat (List.length (getAll db))
  ∧ (∀ fuel, queryAllDataFast fuel false batchSize db
             = Some ([], Z.of_nat (List.length (getAll db)))).
Proof.
  intros Hn Hne. apply getAll_nonempty in Hne.
  split; [|split; [|split]].
  - intros fuel. unfold queryAllDataFast. cbv zeta.
    rewrite fast_calls_zero; [done|done|].
    destruct (getAll db); [done|cbn; lia].
  - unfold queryAllDataProgressive. by rewrite cursor_singletons.
  - unfold queryAllDataProgressive. rewrite cursor_total. lia.
  - done.
Qed.

Lemma batched_reads_agree_witness :
  let db := (appendData utc8 1759000000000
               [plan "P-1" "2025-10-01 08:00:00"; plan "P-2" "2025-10-02 08:00:00";
                plan "P-3" "2025-10-03 08:00:00"] emptyDB).1 in
  ∃ cs : list call,
    queryAllDataFast 3 true 2 db = Some (cs, Z.of_nat (List.length (getAll db)))
    ∧ queryAllDataProgressive true 2 db = (cs, Z.of_nat (List.length (getAll db)))
    ∧ List.concat cs.*1 = getAll db
    ∧ Forall (λ c : call, 1 ≤ Z.of_nat (List.length c.1) ≤ 2) cs.
Proof.
  intros db. apply (batched_reads_agree 2 db 3); [lia|]. vm_compute. lia.
Defined.

Lemma batched_read_with_no_batch_size_witness :
  let db := mkDB {[ KStr "P-1" := plan "P-1" "2025-10-01 08:00:00" ]} None ∅ ∅ in
  (∀ fuel, queryAllDataFast fuel true 0 db = None)
  ∧ (queryAllDataProgressive true 0 db).1.*1 = map (λ v, [v]) (getAll db)
  ∧ (queryAllDataProgressive true 0 db).2 = Z.of_nat (List.length (getAll db))
  ∧ (∀ fuel, queryAllDataFast fuel false 0 db
             = Some ([], Z.of_nat (List.length (getAll db)))).
Proof.
  intros db. apply (batched_read_with_no_batch_size 0 db); [lia|].
  apply insert_non_empty.
Defined.

End BatchesFacts.
